(** * Exchange settlement examples of the Highload Wallet V3 repository

    A shallow embedding of the three exchange examples
    (deposit monitor, batch withdrawal processor, deposit address generator)
    together with the properties the settlement specification states
    about them.

    Conventions.
    - A JavaScript [Map<string, V>] is an insertion-ordered association list
      ([JsMap]): the examples iterate their maps ([values()], [entries()],
      [slice(0, limit)]), so the order is observable.
    - A JavaScript [Set<string>] that is only asked [has] and [add] is a
      [gset string].
    - [bigint] and integral [number] values are [Z]; [Math.floor (a / b)]
      with [b > 0] is [Z.div]. Arithmetic on a [number] is exact only on
      integers up to 2^53: a statement that adds [number]s carries that bound.
    - A [string] is a list of bytes. [length] and [substring] of the source
      count UTF-16 units; the two agree on text of 7-bit characters, and a
      statement that measures or cuts a string is made for such text.
    - [string | null] is [option string]; a condition [if (x)] on such a
      value is [truthy x] (neither [null] nor the empty string).
    - Each [Date.now()] is an explicit clock reading handed to the function.
    - [console.log] output is not modelled, except where a database method
      of the examples consists of nothing else ([creditUserAccount],
      [markWithdrawalProcessing], [markWithdrawalFailed]): those calls are
      recorded in a log, since the call is the externally visible effect. *)

From Stdlib Require Import ZArith Lia List Sorted.
From stdpp Require Import base decidable option list gmap sets strings pretty.

Open Scope Z_scope.

(** ** JavaScript values *)

Definition truthy (o : option string) : bool :=
  match o with
  | Some s => negb (String.eqb s "")
  | None => false
  end.

(** [x || null] on [string | undefined]. *)
Definition orNull (o : option string) : option string :=
  if truthy o then o else None.

(** ** Insertion-ordered maps with string keys *)

Module JsMap.
Section Ops.
Context {V : Type}.

Fixpoint get (k : string) (m : list (string * V)) : option V :=
  match m with
  | [] => None
  | (k', v) :: r => if decide (k' = k) then Some v else get k r
  end.

Definition has (k : string) (m : list (string * V)) : bool :=
  bool_decide (is_Some (get k m)).

(** [Map.prototype.set]: an existing key keeps its position, a new key
    is appended. *)
Fixpoint set (k : string) (v : V) (m : list (string * V)) : list (string * V) :=
  match m with
  | [] => [(k, v)]
  | (k', v') :: r =>
      if decide (k' = k) then (k, v) :: r else (k', v') :: set k v r
  end.

Definition delete (k : string) (m : list (string * V)) : list (string * V) :=
  filter (λ p, p.1 ≠ k) m.

Definition values (m : list (string * V)) : list V := m.*2.

Definition keys (m : list (string * V)) : list string := m.*1.

(** What every [Map] satisfies: no key occurs twice. *)
Definition wf (m : list (string * V)) : Prop := NoDup (keys m).
End Ops.
End JsMap.

(** ** Deposit monitor (exchange-deposit-monitor.ts) *)

Module Deposit.

Definition POLL_INTERVAL_MS : Z := 10000.
Definition MIN_CONFIRMATIONS : Z := 3.
Definition MIN_DEPOSIT_AMOUNT : Z := 1000000000.

Record UserDeposit := mkUserDeposit {
  userId : string;
  transactionHash : string;
  amount : Z;
  sender : string;
  timestamp : Z;
  confirmations : Z
}.

(** One call [creditUserAccount(userId, amount, txHash)]. *)
Record Credit := mkCredit {
  creditUser : string;
  creditAmount : Z;
  creditTx : string
}.

(** [class DepositDatabase]: the two private collections, and the calls
    of [creditUserAccount] in the order they were made. *)
Record DepositDatabase := mkDb {
  processedTxs : gset string;
  pendingDeposits : list (string * UserDeposit);
  credited : list Credit
}.

Definition emptyDb : DepositDatabase :=
  {| processedTxs := ∅; pendingDeposits := []; credited := [] |}.

Definition isTransactionProcessed (txHash : string) (db : DepositDatabase) : bool :=
  bool_decide (txHash ∈ processedTxs db).

Definition markTransactionProcessed (txHash : string) (db : DepositDatabase) : DepositDatabase :=
  {| processedTxs := {[txHash]} ∪ processedTxs db;
     pendingDeposits := pendingDeposits db;
     credited := credited db |}.

Definition creditUserAccount (user : string) (amt : Z) (txHash : string)
    (db : DepositDatabase) : DepositDatabase :=
  {| processedTxs := processedTxs db;
     pendingDeposits := pendingDeposits db;
     credited := credited db ++ [mkCredit user amt txHash] |}.

Definition getUserByMemo (memo : string) : option string :=
  if String.prefix "DEPOSIT:" memo
  then Some (String.substring 8 (String.length memo - 8) memo)
  else Some memo.

Definition addPendingDeposit (deposit : UserDeposit) (db : DepositDatabase) : DepositDatabase :=
  {| processedTxs := processedTxs db;
     pendingDeposits := JsMap.set (transactionHash deposit) deposit (pendingDeposits db);
     credited := credited db |}.

Definition getPendingDeposits (db : DepositDatabase) : list UserDeposit :=
  JsMap.values (pendingDeposits db).

Definition removePendingDeposit (txHash : string) (db : DepositDatabase) : DepositDatabase :=
  {| processedTxs := processedTxs db;
     pendingDeposits := JsMap.delete txHash (pendingDeposits db);
     credited := credited db |}.

(** The part of a [Transaction] of the chain client that the monitor
    reads. [txhash] is [tx.hash().toString('hex')], [src] is
    [info.src.toString()], [coins] is [info.value.coins]; [body] is the
    bit string of the message body (the slice [body.beginParse()]). *)
Inductive CommonMessageInfo :=
| internal (src : string) (coins : Z)
| external_in
| external_out.

Record Message := mkMessage {
  info : CommonMessageInfo;
  body : option (list bool)
}.

Inductive TransactionDescription :=
| generic (aborted : bool)
| other_description.

Record Transaction := mkTransaction {
  txhash : string;
  inMessage : option Message;
  description : TransactionDescription
}.

(** [slice.loadUint(n)]: [n] bits, most significant first. *)
Fixpoint loadUintFrom (acc : Z) (n : nat) (bits : list bool) : Z * list bool :=
  match n, bits with
  | S n', b :: rest => loadUintFrom (2 * acc + (if b then 1 else 0)) n' rest
  | _, _ => (acc, bits)
  end.

Definition loadUint (n : nat) (bits : list bool) : Z * list bool :=
  loadUintFrom 0 n bits.

(** The collaborators of the monitor that are not part of the example:
    the string decoder of the cell library ([None] when it throws) and the
    look-up of a user by deposit address, which the example leaves as a
    stub to be replaced by the exchange's database. *)
Class Collaborators := {
  loadStringTail : list bool → option string;
  getUserByAddress : string → option string
}.

Section Monitor.
Context `{Collaborators}.

Definition extractComment (tx : Transaction) : option string :=
  match inMessage tx with
  | None => None
  | Some msg =>
      match body msg with
      | None => None
      | Some slice =>
          if (32 <=? Z.of_nat (length slice))%Z then
            let '(op, rest) := loadUint 32 slice in
            if (op =? 0) && (8 <=? Z.of_nat (length rest))
            then loadStringTail rest
            else None
          else None
      end
  end.

(** Methods 1 and 2 of [processTransaction]: the user that owns a
    deposit from [sender] carrying [comment]. *)
Definition identifyUser (sender : string) (comment : option string) : option string :=
  let userId := getUserByAddress sender in
  if negb (truthy userId) && truthy comment
  then match comment with
       | Some memo => getUserByMemo memo
       | None => userId
       end
  else userId.

Definition processTransaction (now : Z) (tx : Transaction)
    (db : DepositDatabase) : DepositDatabase :=
  let txHash := txhash tx in
  if isTransactionProcessed txHash db then db
  else
    match inMessage tx with
    | Some {| info := internal sender amount |} =>
        if amount <? MIN_DEPOSIT_AMOUNT then markTransactionProcessed txHash db
        else if match description tx with
                | generic aborted => aborted
                | other_description => true
                end
        then markTransactionProcessed txHash db
        else
          let comment := extractComment tx in
          match orNull (identifyUser sender comment) with
          | None => markTransactionProcessed txHash db
          | Some user =>
              addPendingDeposit
                {| userId := user;
                   transactionHash := txHash;
                   amount := amount;
                   sender := sender;
                   timestamp := now;
                   confirmations := 0 |} db
          end
    | _ => db
    end.
End Monitor.

(** The body of the [for] loop of [processPendingDeposits] for one
    deposit of the snapshot, at clock reading [now]. *)
Definition confirmDeposit (now : Z) (deposit : UserDeposit)
    (db : DepositDatabase) : DepositDatabase :=
  let timeSinceDeposit := now - timestamp deposit in
  let estimatedConfirmations := timeSinceDeposit / 5000 in
  if MIN_CONFIRMATIONS <=? estimatedConfirmations then
    removePendingDeposit (transactionHash deposit)
      (markTransactionProcessed (transactionHash deposit)
         (creditUserAccount (userId deposit) (amount deposit)
            (transactionHash deposit) db))
  else db.

(** The loop over the snapshot; [clock i] is what [Date.now()] returns in
    iteration [i]. *)
Fixpoint confirmAll (clock : nat → Z) (i : nat) (pending : list UserDeposit)
    (db : DepositDatabase) : DepositDatabase :=
  match pending with
  | [] => db
  | deposit :: rest => confirmAll clock (S i) rest (confirmDeposit (clock i) deposit db)
  end.

Definition processPendingDeposits (currentSeqno : Z) (clock : nat → Z)
    (db : DepositDatabase) : DepositDatabase :=
  confirmAll clock 0 (getPendingDeposits db) db.

(** The store invariant of [DepositDatabase]: a [Map], whose entries were
    all written by [addPendingDeposit], hence sit under their own hash. *)
Definition wfDb (db : DepositDatabase) : Prop :=
  JsMap.wf (pendingDeposits db) ∧
  Forall (λ p, transactionHash p.2 = p.1) (pendingDeposits db).

(** The credits applied so far for one transaction hash. *)
Definition creditsFor (txHash : string) (db : DepositDatabase) : list Credit :=
  filter (λ c, creditTx c = txHash) (credited db).

(** What the stores hold about one transaction hash: the credits applied
    for it, whether it is marked processed, and its pending record. *)
Definition recordView (txHash : string) (db : DepositDatabase)
    : list Credit * bool * option UserDeposit :=
  (creditsFor txHash db, isTransactionProcessed txHash db,
   JsMap.get txHash (pendingDeposits db)).

(** Successive runs of the confirmation step, each with the sequence
    number and the clock it is given. *)
Definition advanceRuns (runs : list (Z * (nat → Z))) (db : DepositDatabase) : DepositDatabase :=
  foldl (λ d r, processPendingDeposits r.1 r.2 d) db runs.

(** The two operations the polling loop applies to the stores. *)
Inductive Step :=
| Observe (now : Z) (tx : Transaction)
| Advance (currentSeqno : Z) (clock : nat → Z).

Section Steps.
Context `{Collaborators}.

Definition step (db : DepositDatabase) (s : Step) : DepositDatabase :=
  match s with
  | Observe now tx => processTransaction now tx db
  | Advance currentSeqno clock => processPendingDeposits currentSeqno clock db
  end.

Definition steps (ss : list Step) (db : DepositDatabase) : DepositDatabase :=
  foldl step db ss.

(** The transaction hash is a key: a step that observes the hash of
    [tx] observes [tx] itself. *)
Definition sameTransaction (tx : Transaction) (s : Step) : Prop :=
  match s with
  | Observe _ tx' => txhash tx' = txhash tx → tx' = tx
  | Advance _ _ => True
  end.

(** The resolution order in the words of the specification: first the
    exact match of the sender address against an allocated deposit
    address, else the text comment read against the recognised formats
    ([DEPOSIT:<user>] or the bare user id); [None] when neither yields a
    user. *)
Definition resolveOwner (sender : string) (comment : option string) : option string :=
  match getUserByAddress sender with
  | Some (String c u) => Some (String c u)
  | _ =>
      match comment with
      | Some (String c memo) =>
          if String.prefix "DEPOSIT:" (String c memo)
          then match String.substring 8 (String.length (String c memo) - 8) (String c memo) with
               | EmptyString => None
               | user => Some user
               end
          else Some (String c memo)
      | _ => None
      end
  end.
End Steps.

End Deposit.

(** ** Query ids *)

Module QueryId.

(** What the batch processor asks of a query id. *)
Class Sequencer (Q : Type) := {
  hasNext : Q → bool;
  getNext : Q → Q
}.

(** Modelled from the spec: the wrapper class [HighloadQueryId]
    (wrappers/HighloadQueryId) is not among the sources. The spec describes
    a query id as an ordered coordinate pair that marks a position in an id
    space bounded by the documented ceiling 8,380,415; a fresh sequencer
    stands at position zero, [hasNext] is a pure capacity check, and the
    next id is the next position. The source names the coordinates
    ([getShift], [getBitNumber]). The extent [BITS] of the second coordinate
    is not given by the spec and is a parameter. *)
Record HighloadQueryId := mkQueryId {
  shift : Z;
  bitnumber : Z
}.

Definition CEILING : Z := 8380415.

Definition zero : HighloadQueryId := {| shift := 0; bitnumber := 0 |}.

Section Space.
Variable BITS : Z.

Definition position (q : HighloadQueryId) : Z := shift q * BITS + bitnumber q.

Definition specHasNext (q : HighloadQueryId) : bool := position q <? CEILING.

Definition specGetNext (q : HighloadQueryId) : HighloadQueryId :=
  if bitnumber q + 1 <? BITS
  then {| shift := shift q; bitnumber := bitnumber q + 1 |}
  else {| shift := shift q + 1; bitnumber := 0 |}.

Definition specSequencer : Sequencer HighloadQueryId :=
  {| hasNext := specHasNext; getNext := specGetNext |}.

(** A pair that denotes a position of the space. *)
Definition valid (q : HighloadQueryId) : Prop :=
  0 <= shift q ∧ 0 <= bitnumber q < BITS ∧ position q <= CEILING.

(** How many ids are left after [q]. *)
Definition remaining (q : HighloadQueryId) : nat := Z.to_nat (CEILING - position q).
End Space.

(** The order of query ids: first coordinate, then second. *)
Definition idLt (p q : HighloadQueryId) : Prop :=
  shift p < shift q ∨ (shift p = shift q ∧ bitnumber p < bitnumber q).

End QueryId.

(** ** Batch withdrawal processor (exchange-batch-withdrawal.ts) *)

Module Withdrawal.
Import QueryId.

Definition SUBWALLET_ID : Z := 0x10ad.
Definition TIMEOUT : Z := 3600.
Definition MAX_BATCH_SIZE : Z := 254.
Definition PAY_GAS_SEPARATELY : Z := 1.
Definition IGNORE_ERRORS : Z := 2.

Record WithdrawalRequest := mkRequest {
  userId : string;
  address : string;
  amount : Z;
  withdrawalId : string
}.

(** [class WithdrawalDatabase]: the two private collections, and the calls
    of [markWithdrawalProcessing] and [markWithdrawalFailed] in order. *)
Record WithdrawalDatabase := mkDb {
  pendingWithdrawals : list (string * WithdrawalRequest);
  processedWithdrawals : gset string;
  processing : list string;
  failed : list (string * string)
}.

(** [Array.prototype.slice(0, end)] for an integral [end]. *)
Definition slice0 {A : Type} (finish : Z) (l : list A) : list A :=
  if 0 <=? finish then take (Z.to_nat finish) l
  else take (length l - Z.to_nat (- finish)) l.

Definition getPendingWithdrawals (limit : Z) (db : WithdrawalDatabase) : list WithdrawalRequest :=
  slice0 limit (JsMap.values (pendingWithdrawals db)).

Definition markWithdrawalProcessing (id : string) (db : WithdrawalDatabase) : WithdrawalDatabase :=
  {| pendingWithdrawals := pendingWithdrawals db;
     processedWithdrawals := processedWithdrawals db;
     processing := processing db ++ [id];
     failed := failed db |}.

(** The transaction hash handed to [markWithdrawalCompleted] is only
    printed and is left out. *)
Definition markWithdrawalCompleted (id : string) (db : WithdrawalDatabase) : WithdrawalDatabase :=
  {| pendingWithdrawals := JsMap.delete id (pendingWithdrawals db);
     processedWithdrawals := {[id]} ∪ processedWithdrawals db;
     processing := processing db;
     failed := failed db |}.

Definition markWithdrawalFailed (id error : string) (db : WithdrawalDatabase) : WithdrawalDatabase :=
  {| pendingWithdrawals := pendingWithdrawals db;
     processedWithdrawals := processedWithdrawals db;
     processing := processing db;
     failed := failed db ++ [(id, error)] |}.

Definition addTestWithdrawal (request : WithdrawalRequest) (db : WithdrawalDatabase) : WithdrawalDatabase :=
  {| pendingWithdrawals := JsMap.set (withdrawalId request) request (pendingWithdrawals db);
     processedWithdrawals := processedWithdrawals db;
     processing := processing db;
     failed := failed db |}.

(** An outgoing message: send mode, destination, value, bounce flag and
    the body, a text comment (operation code 0 followed by the text). *)
Record OutActionSendMsg (Address : Type) := mkMsg {
  mode : Z;
  to : Address;
  value : Z;
  bounce : bool;
  bodyOp : Z;
  bodyText : string
}.
Arguments mkMsg {Address}.
Arguments mode {Address}.
Arguments to {Address}.
Arguments value {Address}.
Arguments bounce {Address}.
Arguments bodyOp {Address}.
Arguments bodyText {Address}.

(** The arguments of one [wallet.sendBatch] call that vary. *)
Record Batch (Address Q : Type) := mkBatch {
  messages : list (OutActionSendMsg Address);
  subwalletId : Z;
  queryId : Q;
  timeout : Z;
  createdAt : Z
}.
Arguments mkBatch {Address Q}.
Arguments messages {Address Q}.
Arguments subwalletId {Address Q}.
Arguments queryId {Address Q}.
Arguments timeout {Address Q}.
Arguments createdAt {Address Q}.

(** The collaborators outside the example: the address parser ([inl e]
    when it throws [e]) and the submission of a batch through the wallet
    wrapper ([Some e] when it throws [e], [None] when it is accepted). *)
Class Chain (Address Q : Type) := {
  parse : string → string + Address;
  sendBatch : Batch Address Q → option string
}.

(** [class BatchWithdrawalProcessor]: database, last query id, and the
    batches the wallet accepted. *)
Record Processor (Address Q : Type) := mkProcessor {
  db : WithdrawalDatabase;
  lastQueryId : Q;
  sent : list (Batch Address Q)
}.
Arguments mkProcessor {Address Q}.
Arguments db {Address Q}.
Arguments lastQueryId {Address Q}.
Arguments sent {Address Q}.

Inductive Outcome :=
| Returned
| Threw (e : string).

Section Processor.
Context {Address Q : Type} `{Sequencer Q} `{Chain Address Q}.

Definition withdrawalMessage (withdrawal : WithdrawalRequest) (destAddress : Address)
    : OutActionSendMsg Address :=
  {| mode := PAY_GAS_SEPARATELY + IGNORE_ERRORS;
     to := destAddress;
     value := amount withdrawal;
     bounce := false;
     bodyOp := 0;
     bodyText := "Withdrawal: " +:+ withdrawalId withdrawal |}.

(** What a request contributes to a batch: its message when the
    address parses, the failure record otherwise. *)
Definition messageOf (withdrawal : WithdrawalRequest) : option (OutActionSendMsg Address) :=
  match parse (address withdrawal) with
  | inr destAddress => Some (withdrawalMessage withdrawal destAddress)
  | inl _ => None
  end.

Definition failureOf (withdrawal : WithdrawalRequest) : option (string * string) :=
  match parse (address withdrawal) with
  | inr _ => None
  | inl e => Some (withdrawalId withdrawal, "Invalid address: " +:+ e)
  end.

(** One iteration of the loop of [createWithdrawalMessages]. *)
Definition createStep (acc : list (OutActionSendMsg Address) * WithdrawalDatabase)
    (withdrawal : WithdrawalRequest) : list (OutActionSendMsg Address) * WithdrawalDatabase :=
  match parse (address withdrawal) with
  | inr destAddress => (acc.1 ++ [withdrawalMessage withdrawal destAddress], acc.2)
  | inl e =>
      (acc.1, markWithdrawalFailed (withdrawalId withdrawal) ("Invalid address: " +:+ e) acc.2)
  end.

Definition createWithdrawalMessages (withdrawals : list WithdrawalRequest)
    (d : WithdrawalDatabase) : list (OutActionSendMsg Address) * WithdrawalDatabase :=
  foldl createStep ([], d) withdrawals.

Definition getNextQueryId (p : Processor Address Q) : (string + Q) * Processor Address Q :=
  if hasNext (lastQueryId p) then
    let next := getNext (lastQueryId p) in
    (inr next, {| db := db p; lastQueryId := next; sent := sent p |})
  else (inl "Query ID exhausted. Wait for timeout period to reset.", p).

Definition processBatch (now : Z) (p : Processor Address Q) : Outcome * Processor Address Q :=
  let withdrawals := getPendingWithdrawals MAX_BATCH_SIZE (db p) in
  if (length withdrawals =? 0)%nat then (Returned, p)
  else
    let d1 := foldl (λ d w, markWithdrawalProcessing (withdrawalId w) d) (db p) withdrawals in
    let '(msgs, d2) := createWithdrawalMessages withdrawals d1 in
    let p2 := {| db := d2; lastQueryId := lastQueryId p; sent := sent p |} in
    if (length msgs =? 0)%nat then (Returned, p2)
    else
      match getNextQueryId p2 with
      | (inl e, p3) => (Threw e, p3)
      | (inr qid, p3) =>
          let batch :=
            {| messages := msgs;
               subwalletId := SUBWALLET_ID;
               queryId := qid;
               timeout := TIMEOUT;
               createdAt := now / 1000 |} in
          match sendBatch batch with
          | Some e => (Threw e, p3)
          | None =>
              let d3 := foldl (λ d w, markWithdrawalCompleted (withdrawalId w) d)
                          (db p3) withdrawals in
              (Returned,
               {| db := d3; lastQueryId := lastQueryId p3; sent := sent p3 ++ [batch] |})
          end
      end.

(** The batch that a call of [processBatch] at clock reading [now]
    hands to the wallet, when it gets that far. *)
Definition plannedBatch (now : Z) (p : Processor Address Q) : Batch Address Q :=
  {| messages := omap messageOf (getPendingWithdrawals MAX_BATCH_SIZE (db p));
     subwalletId := SUBWALLET_ID;
     queryId := getNext (lastQueryId p);
     timeout := TIMEOUT;
     createdAt := now / 1000 |}.

(** [n] successive calls of [getNextQueryId]; the results in call order. *)
Fixpoint nextQueryIds (n : nat) (p : Processor Address Q)
    : list (string + Q) * Processor Address Q :=
  match n with
  | O => ([], p)
  | S n' =>
      let '(r, p1) := getNextQueryId p in
      let '(rs, p2) := nextQueryIds n' p1 in
      (r :: rs, p2)
  end.
End Processor.

(** The store invariant of [WithdrawalDatabase]: a [Map] whose entries
    sit under their own withdrawal id. *)
Definition wfDb (d : WithdrawalDatabase) : Prop :=
  JsMap.wf (pendingWithdrawals d) ∧
  Forall (λ p, withdrawalId p.2 = p.1) (pendingWithdrawals d).

End Withdrawal.

(** ** SHA-256 (the digest of Node's [crypto.createHash('sha256')]) *)

Module Sha256.

Definition w32 (x : Z) : Z := x mod 2 ^ 32.
Definition add32 (x y : Z) : Z := w32 (x + y).
Definition rotr (n x : Z) : Z := Z.lor (Z.shiftr x n) (w32 (Z.shiftl x (32 - n))).
Definition Ch (x y z : Z) : Z := Z.lxor (Z.land x y) (Z.land (Z.lxor x 0xFFFFFFFF) z).
Definition Maj (x y z : Z) : Z := Z.lxor (Z.lxor (Z.land x y) (Z.land x z)) (Z.land y z).
Definition Sigma0 (x : Z) : Z := Z.lxor (Z.lxor (rotr 2 x) (rotr 13 x)) (rotr 22 x).
Definition Sigma1 (x : Z) : Z := Z.lxor (Z.lxor (rotr 6 x) (rotr 11 x)) (rotr 25 x).
Definition sigma0 (x : Z) : Z := Z.lxor (Z.lxor (rotr 7 x) (rotr 18 x)) (Z.shiftr x 3).
Definition sigma1 (x : Z) : Z := Z.lxor (Z.lxor (rotr 17 x) (rotr 19 x)) (Z.shiftr x 10).

(** The constants of SHA-256 are defined from the first 64 primes: the
    first 32 bits of the fractional parts of their cube roots ([K]) and, for
    the first 8, of their square roots ([H0]). *)
Definition isPrime (n : Z) : bool :=
  forallb (λ d, negb (n mod d =? 0)) (seqZ 2 (n - 2)).

Definition primes : list Z := filter (λ n, isPrime n = true) (seqZ 2 310).

(** The integer cube root of [n], built bit by bit below bit [k]. *)
Fixpoint cubeRootBits (k : nat) (n r : Z) : Z :=
  match k with
  | O => r
  | S k' =>
      let c := r + 2 ^ Z.of_nat k' in
      cubeRootBits k' n (if c * c * c <=? n then c else r)
  end.

Definition cubeRoot (n : Z) : Z := cubeRootBits 40 n 0.

Definition K : list Z := (λ p, w32 (cubeRoot (p * 2 ^ 96))) <$> primes.

Definition H0 : list Z := (λ p, w32 (Z.sqrt (p * 2 ^ 64))) <$> take 8 primes.

(** The bytes that [update(s)] feeds to the hash. *)
Definition bytesOf (s : string) : list Z :=
  (λ a, Z.of_N (Ascii.N_of_ascii a)) <$> String.list_ascii_of_string s.

(** The [n] low bytes of [x], most significant first. *)
Fixpoint beBytes (n : nat) (x : Z) : list Z :=
  match n with
  | O => []
  | S n' => beBytes n' (x / 256) ++ [x mod 256]
  end.

Definition pad (msg : list Z) : list Z :=
  let len := Z.of_nat (length msg) in
  let zeros := Z.to_nat ((55 - len) mod 64) in
  msg ++ [0x80] ++ replicate zeros 0 ++ beBytes 8 (8 * len).

Fixpoint words (fuel : nat) (bs : list Z) : list Z :=
  match fuel, bs with
  | S f, b0 :: b1 :: b2 :: b3 :: rest =>
      (((b0 * 256 + b1) * 256 + b2) * 256 + b3) :: words f rest
  | _, _ => []
  end.

(** Message schedule: [n] further words after the ones in [w]. *)
Fixpoint schedule (n : nat) (w : list Z) : list Z :=
  match n with
  | O => w
  | S n' =>
      let t := length w in
      let back k := nth (t - k) w 0 in
      schedule n' (w ++ [add32 (add32 (sigma1 (back 2%nat)) (back 7%nat))
                               (add32 (sigma0 (back 15%nat)) (back 16%nat))])
  end.

Definition round (st : list Z) (kw : Z * Z) : list Z :=
  match st with
  | [a; b; c; d; e; f; g; h] =>
      let t1 := add32 (add32 (add32 h (Sigma1 e)) (add32 (Ch e f g) kw.1)) kw.2 in
      let t2 := add32 (Sigma0 a) (Maj a b c) in
      [add32 t1 t2; a; b; c; add32 d t1; e; f; g]
  | _ => st
  end.

Definition compress (hs : list Z) (block : list Z) : list Z :=
  zip_with add32 hs (foldl round hs (zip K (schedule 48 block))).

Fixpoint blocks (fuel : nat) (hs : list Z) (ws : list Z) : list Z :=
  match fuel with
  | O => hs
  | S f =>
      match ws with
      | [] => hs
      | _ => blocks f (compress hs (take 16 ws)) (drop 16 ws)
      end
  end.

(** The digest of a byte string, as eight 32-bit words. *)
Definition digest (msg : list Z) : list Z :=
  let p := pad msg in
  let ws := words (length p) p in
  blocks (length ws) H0 ws.

(** [hash.readUInt32BE(0)]: the first four bytes of the digest. *)
Definition readUInt32BE0 (d : list Z) : Z := nth 0 d 0.

End Sha256.

(** ** Deposit address generator (exchange-address-generator.ts) *)

Module AddressGenerator.

Definition BASE_SUBWALLET_ID : Z := 0x10ad.
Definition TIMEOUT : Z := 3600.

Record AddressMappingDatabase := mkDb {
  userToAddress : list (string * string);
  addressToUser : list (string * string);
  userToSubwalletId : list (string * Z);
  nextUserId : Z
}.

Definition emptyDb : AddressMappingDatabase :=
  {| userToAddress := []; addressToUser := []; userToSubwalletId := []; nextUserId := 1 |}.

Record Mapping := mkMapping {
  userId : string;
  address : string;
  subwalletId : Z
}.

Definition createUserAddress (user addr : string) (id : Z)
    (db : AddressMappingDatabase) : AddressMappingDatabase :=
  {| userToAddress := JsMap.set user addr (userToAddress db);
     addressToUser := JsMap.set addr user (addressToUser db);
     userToSubwalletId := JsMap.set user id (userToSubwalletId db);
     nextUserId := nextUserId db |}.

Definition getAddressForUser (user : string) (db : AddressMappingDatabase) : option string :=
  orNull (JsMap.get user (userToAddress db)).

Definition getUserForAddress (addr : string) (db : AddressMappingDatabase) : option string :=
  orNull (JsMap.get addr (addressToUser db)).

(** [get(userId) || null] on a number: zero is falsy as well. *)
Definition getSubwalletIdForUser (user : string) (db : AddressMappingDatabase) : option Z :=
  match JsMap.get user (userToSubwalletId db) with
  | Some id => if id =? 0 then None else Some id
  | None => None
  end.

Definition getNextUserIdNumber (db : AddressMappingDatabase) : Z * AddressMappingDatabase :=
  (nextUserId db,
   {| userToAddress := userToAddress db;
      addressToUser := addressToUser db;
      userToSubwalletId := userToSubwalletId db;
      nextUserId := nextUserId db + 1 |}).

Definition getAllMappings (db : AddressMappingDatabase) : list Mapping :=
  omap (λ p, mkMapping p.1 p.2 <$> JsMap.get p.1 (userToSubwalletId db)) (userToAddress db).

(** The collaborator outside the example: the address, as a string, of the
    wallet that [HighloadWalletV3.createFromConfig] builds for the
    generator's code and public key from a subwallet id and a timeout. *)
Class Wallet := {
  walletAddress : Z → Z → string
}.

(** [class ExchangeAddressGenerator] ([code] and [publicKey] are fixed and
    enter through [walletAddress]). *)
Record Generator := mkGenerator {
  db : AddressMappingDatabase;
  baseSubwalletId : Z;
  timeout : Z
}.

Definition maxAttempts : Z := 1000.

(** The 32-bit number read from the digest of the concatenated updates. *)
Definition hash32 (parts : list string) : Z :=
  Sha256.readUInt32BE0 (Sha256.digest (concat (Sha256.bytesOf <$> parts))).

(** The candidate of one iteration of the [do ... while] loop. *)
Definition candidate (user : string) (base nonce : Z) : Z :=
  let id := hash32 [user; pretty base; pretty nonce] in
  if id =? 0 then base else id.

(** The loop condition: some stored mapping has this subwallet id. *)
Definition collides (id : Z) (d : AddressMappingDatabase) : bool :=
  existsb (λ m, subwalletId m =? id) (getAllMappings d).

Inductive SearchResult :=
| Found (id : Z)
| AttemptsExceeded
| OutOfFuel.

(** The [do ... while] loop, entered with the given [nonce]; [fuel] bounds
    the number of iterations. *)
Fixpoint search (fuel : nat) (user : string) (base nonce : Z)
    (d : AddressMappingDatabase) : SearchResult :=
  match fuel with
  | O => OutOfFuel
  | S fuel' =>
      let id := candidate user base nonce in
      let nonce' := nonce + 1 in
      if maxAttempts <=? nonce' then AttemptsExceeded
      else if collides id d then search fuel' user base nonce' d
      else Found id
  end.

Section Generator.
Context `{Wallet}.

(** [generateDepositAddress]: the early return for a user who has an
    address, then the [do ... while] loop, then the wallet and the store.
    The id handed to [createFromConfig] and [createUserAddress] is the
    [subwalletId] that the function declares before the loop ([let
    subwalletId: number]) and that the loop assigns. Between the loop and
    the wallet the source declares [hash] and [subwalletId] a second time
    ([const], in the same block, from a digest without the nonce); a block
    cannot declare a name twice, so these lines are no part of what the
    function can do, and they are left out: the function is taken as its
    loop and its comments have it. *)
Definition generateDepositAddress (user : string) (g : Generator)
    : (string + string) * Generator :=
  match getAddressForUser user (db g) with
  | Some existingAddress => (inr existingAddress, g)
  | None =>
      match search (Z.to_nat maxAttempts) user (baseSubwalletId g) 0 (db g) with
      | Found subwalletId =>
          let address := walletAddress subwalletId (timeout g) in
          (inr address,
           {| db := createUserAddress user address subwalletId (db g);
              baseSubwalletId := baseSubwalletId g;
              timeout := timeout g |})
      | _ =>
          (inl ("Failed to generate unique subwallet ID for user " +:+ user
                +:+ " after " +:+ pretty maxAttempts +:+ " attempts"), g)
      end
  end.

Definition identifyUser (addr : string) (g : Generator) : option string :=
  getUserForAddress addr (db g).
End Generator.

(** The (subwallet id, address) pair the store holds for a user. *)
Definition allocation (user : string) (g : Generator) : option (Z * string) :=
  match JsMap.get user (userToSubwalletId (db g)), JsMap.get user (userToAddress (db g)) with
  | Some id, Some addr => Some (id, addr)
  | _, _ => None
  end.

End AddressGenerator.

(** ** Collaborators used in the worked examples *)

Module Examples.

(** Reads a bit string as 8-bit characters; fails on a partial byte. *)
Fixpoint asciiTail (fuel : nat) (bits : list bool) : option string :=
  match fuel, bits with
  | _, [] => Some EmptyString
  | S f, b7 :: b6 :: b5 :: b4 :: b3 :: b2 :: b1 :: b0 :: rest =>
      String (Ascii.Ascii b0 b1 b2 b3 b4 b5 b6 b7) <$> asciiTail f rest
  | _, _ => None
  end.

(** The bits of a text comment: 32 zero bits, then the characters. *)
Definition bitsOfAscii (a : Ascii.ascii) : list bool :=
  match a with
  | Ascii.Ascii b0 b1 b2 b3 b4 b5 b6 b7 => [b7; b6; b5; b4; b3; b2; b1; b0]
  end.

Definition commentBody (text : string) : list bool :=
  replicate 32 false ++ concat (bitsOfAscii <$> String.list_ascii_of_string text).

(** The database of the example as it stands: [getUserByAddress] returns
    [null] for every address. *)
Definition memoryDatabase : Deposit.Collaborators :=
  {| Deposit.loadStringTail := λ bits, asciiTail (length bits) bits;
     Deposit.getUserByAddress := λ _, None |}.

(** A database that knows one deposit address. *)
Definition oneAddressDatabase (addr user : string) : Deposit.Collaborators :=
  {| Deposit.loadStringTail := λ bits, asciiTail (length bits) bits;
     Deposit.getUserByAddress := λ a, if decide (a = addr) then Some user else None |}.

Definition depositTx (h src : string) (coins : Z) (text : string) : Deposit.Transaction :=
  {| Deposit.txhash := h;
     Deposit.inMessage :=
       Some {| Deposit.info := Deposit.internal src coins;
               Deposit.body := Some (commentBody text) |};
     Deposit.description := Deposit.generic false |}.

(** A chain whose parser accepts the 48-character address form and whose
    wallet accepts every batch. *)
Definition acceptingChain (Q : Type) : Withdrawal.Chain string Q :=
  {| Withdrawal.parse := λ s,
       if (String.length s =? 48)%nat then inr s else inl "Unknown address type";
     Withdrawal.sendBatch := λ _, None |}.

Definition goodAddress : string := "EQAAAAAAAAAAAAAAAAAAAAAAAAAAAAAAAAAAAAAAAAAAAM9c".

(** [n] requests wd_(start) .. wd_(start + n - 1), all to [goodAddress]
    except the request numbered [bad]. *)
Fixpoint requests (start : Z) (n : nat) (bad : Z) : list Withdrawal.WithdrawalRequest :=
  match n with
  | O => []
  | S n' =>
      {| Withdrawal.userId := "user" +:+ pretty start;
         Withdrawal.address := if start =? bad then "not-an-address" else goodAddress;
         Withdrawal.amount := 1000000000;
         Withdrawal.withdrawalId := "wd_" +:+ pretty start |}
      :: requests (start + 1) n' bad
  end.

Definition emptyWithdrawals : Withdrawal.WithdrawalDatabase :=
  {| Withdrawal.pendingWithdrawals := [];
     Withdrawal.processedWithdrawals := ∅;
     Withdrawal.processing := [];
     Withdrawal.failed := [] |}.

Definition queue (rs : list Withdrawal.WithdrawalRequest) : Withdrawal.WithdrawalDatabase :=
  foldl (λ d r, Withdrawal.addTestWithdrawal r d) emptyWithdrawals rs.

(** A wallet whose address text spells out the configuration. *)
Definition textWallet : AddressGenerator.Wallet :=
  {| AddressGenerator.walletAddress := λ id t, "wallet:" +:+ pretty id +:+ ":" +:+ pretty t |}.

Definition freshGenerator : AddressGenerator.Generator :=
  {| AddressGenerator.db := AddressGenerator.emptyDb;
     AddressGenerator.baseSubwalletId := AddressGenerator.BASE_SUBWALLET_ID;
     AddressGenerator.timeout := AddressGenerator.TIMEOUT |}.

End Examples.

(** ** Deposit monitor: polling (exchange-deposit-monitor.ts, continued) *)

Module Polling.
Import Deposit.

(** [class DepositMonitor] without its chain client. *)
Record DepositMonitor := mkMonitor {
  db : DepositDatabase;
  lastProcessedLt : option string;
  running : bool
}.

Definition newMonitor : DepositMonitor :=
  {| db := emptyDb; lastProcessedLt := None; running := false |}.

(** What one call of [pollTransactions] reads from outside: the fetched
    transactions, newest first, each with its logical time ([None] when
    [Address.parse] or [getTransactions] throws); the clock reading in the
    i-th call of [processTransaction]; the masterchain sequence number
    ([None] when [getMasterchainInfo] throws); the clock of the
    confirmation loop. *)
Record PollInput := mkPoll {
  fetched : option (list (Z * Transaction));
  observedAt : nat → Z;
  masterchainSeqno : option Z;
  confirmClock : nat → Z
}.

Section Poll.
Context `{Collaborators}.

(** The loop over the sorted transactions. *)
Fixpoint observeAll (clock : nat → Z) (i : nat) (txs : list Transaction)
    (d : DepositDatabase) : DepositDatabase :=
  match txs with
  | [] => d
  | tx :: rest => observeAll clock (S i) rest (processTransaction (clock i) tx d)
  end.

Definition pollTransactions (input : PollInput) (m : DepositMonitor) : DepositMonitor :=
  match fetched input with
  | None => m
  | Some transactions =>
      if (length transactions =? 0)%nat then m
      else
        let sortedTxs := reverse transactions in
        let d1 := observeAll (observedAt input) 0 (sortedTxs.*2) (db m) in
        let cursor :=
          match head transactions with
          | Some newest => Some (pretty newest.1)
          | None => lastProcessedLt m
          end in
        match masterchainSeqno input with
        | None => {| db := d1; lastProcessedLt := cursor; running := running m |}
        | Some currentSeqno =>
            {| db := processPendingDeposits currentSeqno (confirmClock input) d1;
               lastProcessedLt := cursor;
               running := running m |}
        end
  end.

(** Successive polls. *)
Definition polls (inputs : list PollInput) (m : DepositMonitor) : DepositMonitor :=
  foldl (λ m input, pollTransactions input m) m inputs.

(** The steps a poll applies to the stores. *)
Definition pollSteps (input : PollInput) : list Step :=
  match fetched input with
  | None => []
  | Some transactions =>
      if (length transactions =? 0)%nat then []
      else
        imap (λ i tx, Observe (observedAt input i) tx) ((reverse transactions).*2)
        ++ match masterchainSeqno input with
           | None => []
           | Some currentSeqno => [Advance currentSeqno (confirmClock input)]
           end
  end.
End Poll.

(** A poll to which the chain client delivers [tx] (possibly once more),
    with no other transaction under its hash, and which runs its
    confirmation loop less than 15000 ms after its observations. *)
Definition redelivers (tx : Transaction) (input : PollInput) : Prop :=
  ∃ transactions,
    fetched input = Some transactions
    ∧ tx ∈ transactions.*2
    ∧ Forall (λ t, txhash t = txhash tx → t = tx) (transactions.*2)
    ∧ ∀ i j, confirmClock input j - observedAt input i < 15000.

(** The hashes for which a credit has been applied. *)
Definition creditedHashes (d : DepositDatabase) : list string :=
  creditTx <$> credited d.

(** How the three stores of [DepositDatabase] hang together: the pending
    map is well formed, no hash has two credits, and a credited hash is
    marked processed and has no pending record. *)
Definition consistent (d : DepositDatabase) : Prop :=
  wfDb d
  ∧ NoDup (creditedHashes d)
  ∧ ∀ h, h ∈ creditedHashes d →
      isTransactionProcessed h d = true ∧ JsMap.get h (pendingDeposits d) = None.

Section Backing.
Context `{Collaborators}.

(** An observation that [processTransaction] accepts as a deposit of
    [amt] from [src] for [user]. *)
Definition accepts (s : Step) (now : Z) (h user src : string) (amt : Z) : Prop :=
  ∃ tx msgbody,
    s = Observe now tx
    ∧ txhash tx = h
    ∧ inMessage tx = Some {| info := internal src amt; body := msgbody |}
    ∧ MIN_DEPOSIT_AMOUNT <= amt
    ∧ description tx = generic false
    ∧ resolveOwner src (extractComment tx) = Some user.

(** A pending record, or a credit, that goes back to an accepted
    observation among the steps [ss]. *)
Definition backedDeposit (ss : list Step) (d : UserDeposit) : Prop :=
  ∃ s, s ∈ ss
    ∧ accepts s (timestamp d) (transactionHash d) (userId d) (sender d) (amount d)
    ∧ confirmations d = 0.

Definition backedCredit (ss : list Step) (c : Credit) : Prop :=
  ∃ s now src, s ∈ ss ∧ accepts s now (creditTx c) (creditUser c) src (creditAmount c).
End Backing.

End Polling.

(** ** Batch withdrawal processor: sequences of calls *)

Module Batches.
Import QueryId Withdrawal.

(** What the owner of a processor does with it: queue a request through
    [getDatabase().addTestWithdrawal], or call [processBatch]. *)
Inductive Op :=
| AddWithdrawal (request : WithdrawalRequest)
| ProcessBatch (now : Z).

Definition emptyDatabase : WithdrawalDatabase :=
  {| pendingWithdrawals := [];
     processedWithdrawals := ∅;
     processing := [];
     failed := [] |}.

(** The requests that a list of operations queues, in order. *)
Definition queued (ops : list Op) : list WithdrawalRequest :=
  omap (λ op, match op with AddWithdrawal request => Some request | ProcessBatch _ => None end)
    ops.

Section Run.
Context {Address Q : Type} `{Sequencer Q} `{Chain Address Q}.

(** Every message the wallet accepted, in the order of sending. *)
Definition sentMessages (p : Processor Address Q) : list (OutActionSendMsg Address) :=
  concat (messages <$> sent p).

(** Whether [n] successive ids can be taken after [q]. *)
Fixpoint hasNexts (n : nat) (q : Q) : bool :=
  match n with
  | O => true
  | S n' => hasNext q && hasNexts n' (getNext q)
  end.

(** The processor the constructor builds; [first] is [new HighloadQueryId()]. *)
Definition newProcessor (first : Q) : Processor Address Q :=
  {| db := emptyDatabase; lastQueryId := first; sent := [] |}.

Definition apply (p : Processor Address Q) (op : Op) : Processor Address Q :=
  match op with
  | AddWithdrawal request =>
      {| db := addTestWithdrawal request (db p);
         lastQueryId := lastQueryId p;
         sent := sent p |}
  | ProcessBatch now => (processBatch now p).2
  end.

Definition run (ops : list Op) (p : Processor Address Q) : Processor Address Q :=
  foldl apply p ops.
End Run.

End Batches.

(** ** Deposit address generator: the remaining functions *)

Module AddressTools.
Import AddressGenerator.

Section Batch.
Context `{Wallet}.

(** The loop of [generateBatchAddresses]; an exception of
    [generateDepositAddress] ends it. *)
Fixpoint generateBatchLoop (userIds : list string) (addresses : list (string * string))
    (g : Generator) : (string + list (string * string)) * Generator :=
  match userIds with
  | [] => (inr addresses, g)
  | user :: rest =>
      match generateDepositAddress user g with
      | (inl e, g') => (inl e, g')
      | (inr address, g') => generateBatchLoop rest (JsMap.set user address addresses) g'
      end
  end.

Definition generateBatchAddresses (userIds : list string) (g : Generator)
    : (string + list (string * string)) * Generator :=
  generateBatchLoop userIds [] g.

(** Successive calls of [generateDepositAddress], whatever they return. *)
Definition allocateAll (users : list string) (g : Generator) : Generator :=
  foldl (λ g user, (generateDepositAddress user g).2) g users.
End Batch.

(** Text of 7-bit characters only, as the text forms of an address are
    (base64, hex). On such text the byte count of [String.length] is the
    [length] of the source and [String.substring] cuts where [substring]
    does; on other text they differ, and [formatAddress] below is the
    source's function only on text of this kind. *)
Definition isAscii (s : string) : bool :=
  forallb (λ a, (Ascii.N_of_ascii a <? 128)%N) (String.list_ascii_of_string s).

Definition formatAddress (address : string) : string :=
  if (String.length address <=? 20)%nat then address
  else String.substring 0 10 address +:+ "..."
       +:+ String.substring (String.length address - 10) 10 address.

Record Range := mkRange {
  min : Z;
  max : Z
}.

Definition calculateSubwalletRange (baseId userCount : Z) : Range :=
  if userCount <=? 0 then {| min := baseId; max := baseId |}
  else {| min := baseId; max := baseId + userCount - 1 |}.

End AddressTools.

(** ** Deposit address generator with sequential subwallet ids
    (the variant of the generator that numbers its users) *)

Module SequentialGenerator.
Import AddressGenerator.

(** The largest integer up to which every integer is a [number], and a
    sum of [number]s is the exact sum. *)
Definition MAX_EXACT : Z := 2 ^ 53.

Section Generator.
Context `{Wallet}.

(** [this.baseSubwalletId + userIdNumber] and [this.nextUserId++] add
    [number]s; the sums below are those of the source as long as they stay
    within [MAX_EXACT]. *)
Definition generateDepositAddress (user : string) (g : Generator) : string * Generator :=
  match getAddressForUser user (db g) with
  | Some existingAddress => (existingAddress, g)
  | None =>
      let '(userIdNumber, d1) := getNextUserIdNumber (db g) in
      let subwalletId := baseSubwalletId g + userIdNumber in
      let address := walletAddress subwalletId (timeout g) in
      (address,
       {| db := createUserAddress user address subwalletId d1;
          baseSubwalletId := baseSubwalletId g;
          timeout := timeout g |})
  end.

Fixpoint generateBatchLoop (userIds : list string) (addresses : list (string * string))
    (g : Generator) : list (string * string) * Generator :=
  match userIds with
  | [] => (addresses, g)
  | user :: rest =>
      let '(address, g') := generateDepositAddress user g in
      generateBatchLoop rest (JsMap.set user address addresses) g'
  end.

Definition generateBatchAddresses (userIds : list string) (g : Generator)
    : list (string * string) * Generator :=
  generateBatchLoop userIds [] g.
End Generator.

(** [calculateSubwalletRange] of this variant. *)
Definition calculateSubwalletRange (baseId userCount : Z) : AddressTools.Range :=
  {| AddressTools.min := baseId; AddressTools.max := baseId + userCount - 1 |}.

End SequentialGenerator.

(** ** Further collaborators for worked examples *)

Module MoreExamples.

(** A sequencer that counts positions up to the documented ceiling. *)
Definition counterSequencer : QueryId.Sequencer Z :=
  {| QueryId.hasNext := λ q, q <? QueryId.CEILING;
     QueryId.getNext := λ q, q + 1 |}.

(** A chain whose wallet refuses every batch. *)
Definition refusingChain (Q : Type) : Withdrawal.Chain string Q :=
  {| Withdrawal.parse := λ s,
       if (String.length s =? 48)%nat then inr s else inl "Unknown address type";
     Withdrawal.sendBatch := λ _, Some "network error" |}.

(** A wallet whose address text names the subwallet id only. *)
Definition idWallet : AddressGenerator.Wallet :=
  {| AddressGenerator.walletAddress := λ id _, "subwallet:" +:+ pretty id |}.

End MoreExamples.

(** * Properties *)

(** ** Lists *)

Lemma Forall_filter_keep {A : Type} (P Q : A → Prop) `{∀ x, Decision (Q x)} (l : list A) :
  Forall P l → Forall P (filter Q l).
Proof.
  rewrite !Forall_forall. intros HP x Hx.
  apply list_elem_of_filter in Hx as [_ Hx]. by apply HP.
Qed.

Lemma last_cons_default {A : Type} (l : list A) :
  ∀ x d, List.last (x :: l) d = List.last l x.
Proof.
  induction l as [|y l IH]; intros x d; [done|].
  change (List.last (x :: y :: l) d) with (List.last (y :: l) d).
  by rewrite !IH.
Qed.

(** ** Insertion-ordered maps *)

Section JsMapFacts.
Context {V : Type}.
Implicit Types (m : list (string * V)) (k : string) (v : V).

Lemma JsMap_get_None k m : JsMap.get k m = None ↔ k ∉ JsMap.keys m.
Proof.
  induction m as [|[k' v'] m IH]; simpl.
  - split; [intros _; apply not_elem_of_nil | done].
  - destruct (decide (k' = k)) as [->|Hne].
    + split; [done | intros Hn; exfalso; apply Hn; left].
    + rewrite IH. unfold JsMap.keys. simpl. rewrite not_elem_of_cons.
      split; [intros Hn; split; [congruence | done] | intros [_ Hn]; done].
Qed.

Lemma JsMap_get_Some_split k v m :
  JsMap.get k m = Some v →
  ∃ m1 m2, m = m1 ++ (k, v) :: m2 ∧ k ∉ JsMap.keys m1.
Proof.
  induction m as [|[k' v'] m IH]; simpl; [done|].
  destruct (decide (k' = k)) as [->|Hne].
  - intros [= ->]. exists [], m. split; [done | apply not_elem_of_nil].
  - intros Hg. destruct (IH Hg) as (m1 & m2 & -> & Hn).
    exists ((k', v') :: m1), m2. split; [done|].
    unfold JsMap.keys. simpl. rewrite not_elem_of_cons. done.
Qed.

Lemma JsMap_keys_delete k m :
  JsMap.keys (JsMap.delete k m) = filter (λ k', k' ≠ k) (JsMap.keys m).
Proof.
  unfold JsMap.keys, JsMap.delete.
  induction m as [|[k' v'] m IH]; [done|].
  rewrite fmap_cons, !filter_cons. simpl.
  destruct (decide (k' ≠ k)); [rewrite fmap_cons; simpl|]; by rewrite IH.
Qed.

Lemma JsMap_get_delete_eq k m : JsMap.get k (JsMap.delete k m) = None.
Proof.
  apply JsMap_get_None. rewrite JsMap_keys_delete, list_elem_of_filter.
  intros [Hne _]. by apply Hne.
Qed.

Lemma JsMap_get_delete_ne k k' m :
  k ≠ k' → JsMap.get k' (JsMap.delete k m) = JsMap.get k' m.
Proof.
  intros Hne. unfold JsMap.delete.
  induction m as [|[k0 v0] m IH]; [done|].
  rewrite filter_cons. simpl.
  destruct (decide (k0 ≠ k)) as [Hk|Hk]; simpl.
  - by rewrite IH.
  - apply dec_stable in Hk. subst k0.
    destruct (decide (k = k')); [done | apply IH].
Qed.

Lemma JsMap_wf_delete k m : JsMap.wf m → JsMap.wf (JsMap.delete k m).
Proof.
  unfold JsMap.wf. rewrite JsMap_keys_delete. apply NoDup_filter.
Qed.

Lemma JsMap_delete_absent k m : k ∉ JsMap.keys m → JsMap.delete k m = m.
Proof.
  unfold JsMap.delete, JsMap.keys.
  induction m as [|[k' v'] m IH]; [done|].
  simpl. rewrite not_elem_of_cons. intros [Hne Hn].
  rewrite filter_cons. simpl.
  destruct (decide (k' ≠ k)) as [|Hk]; [by rewrite IH | exfalso; apply Hk; congruence].
Qed.

Lemma JsMap_get_set_eq k v m : JsMap.get k (JsMap.set k v m) = Some v.
Proof.
  induction m as [|[k' v'] m IH]; simpl.
  - by rewrite decide_True.
  - destruct (decide (k' = k)) as [->|Hne]; simpl.
    + by rewrite decide_True.
    + by rewrite decide_False.
Qed.

Lemma JsMap_get_set_ne k k' v m :
  k ≠ k' → JsMap.get k' (JsMap.set k v m) = JsMap.get k' m.
Proof.
  intros Hne. induction m as [|[k0 v0] m IH]; simpl.
  - by rewrite decide_False.
  - destruct (decide (k0 = k)) as [->|Hk]; simpl.
    + by rewrite !decide_False.
    + destruct (decide (k0 = k')); [done | apply IH].
Qed.

Lemma JsMap_keys_set_present k v m :
  k ∈ JsMap.keys m → JsMap.keys (JsMap.set k v m) = JsMap.keys m.
Proof.
  unfold JsMap.keys. induction m as [|[k' v'] m IH]; simpl.
  - intros Hin. by apply elem_of_nil in Hin.
  - destruct (decide (k' = k)) as [->|Hne]; simpl; [done|].
    rewrite elem_of_cons. intros [->|Hin]; [done|]. f_equal. by apply IH.
Qed.

Lemma JsMap_set_absent k v m :
  k ∉ JsMap.keys m → JsMap.set k v m = m ++ [(k, v)].
Proof.
  unfold JsMap.keys. induction m as [|[k' v'] m IH]; simpl; [done|].
  rewrite not_elem_of_cons. intros [Hne Hn].
  rewrite decide_False by done. f_equal. by apply IH.
Qed.

Lemma JsMap_wf_set k v m : JsMap.wf m → JsMap.wf (JsMap.set k v m).
Proof.
  unfold JsMap.wf. intros Hwf.
  destruct (decide (k ∈ JsMap.keys m)) as [Hin|Hn].
  - by rewrite JsMap_keys_set_present.
  - rewrite JsMap_set_absent by done. unfold JsMap.keys in *.
    rewrite fmap_app. simpl. apply NoDup_app. split_and!; [done | | apply NoDup_singleton].
    intros x Hx. rewrite list_elem_of_singleton. intros ->. done.
Qed.

(** Overwriting a key twice leaves what the second write alone leaves. *)
Lemma JsMap_set_set k v v' m : JsMap.set k v' (JsMap.set k v m) = JsMap.set k v' m.
Proof.
  induction m as [|[k0 v0] m IH]; simpl.
  - by rewrite decide_True.
  - destruct (decide (k0 = k)) as [->|Hne]; simpl.
    + by rewrite decide_True.
    + rewrite decide_False by done. by rewrite IH.
Qed.
End JsMapFacts.

(** ** Deposit monitor: the confirmation step *)

Section ConfirmationFacts.
Import Deposit.
Implicit Types (db : DepositDatabase) (d : UserDeposit) (h : string).

Lemma isTransactionProcessed_mark h h' db :
  isTransactionProcessed h (markTransactionProcessed h' db)
  = bool_decide (h = h') || isTransactionProcessed h db.
Proof.
  unfold isTransactionProcessed, markTransactionProcessed. simpl.
  rewrite <- bool_decide_or. apply bool_decide_ext. set_solver.
Qed.

Lemma creditsFor_credit h user amt h' db :
  creditsFor h (creditUserAccount user amt h' db)
  = creditsFor h db ++ (if decide (h' = h) then [mkCredit user amt h'] else []).
Proof.
  unfold creditsFor, creditUserAccount. simpl. rewrite filter_app. by f_equal.
Qed.

(** A deposit with another hash leaves the view of [h] alone. *)
Lemma recordView_confirmDeposit_other h now d db :
  transactionHash d ≠ h →
  recordView h (confirmDeposit now d db) = recordView h db.
Proof.
  intros Hne. unfold confirmDeposit.
  destruct (MIN_CONFIRMATIONS <=? _); [|done].
  unfold recordView. f_equal; [f_equal|].
  - change (creditsFor h (creditUserAccount (userId d) (amount d) (transactionHash d) db)
            = creditsFor h db).
    rewrite creditsFor_credit, decide_False by done. apply app_nil_r.
  - change (isTransactionProcessed h
              (markTransactionProcessed (transactionHash d) db)
            = isTransactionProcessed h db).
    rewrite isTransactionProcessed_mark, bool_decide_eq_false_2 by congruence. done.
  - simpl. by apply JsMap_get_delete_ne.
Qed.

Lemma recordView_confirmAll_other h clock l :
  ∀ i db, Forall (λ d, transactionHash d ≠ h) l →
    recordView h (confirmAll clock i l db) = recordView h db.
Proof.
  induction l as [|d l IH]; intros i db Hall; [done|].
  apply Forall_cons in Hall as [Hd Hl]. simpl.
  rewrite IH by done. by apply recordView_confirmDeposit_other.
Qed.

(** A deposit that has reached the threshold is credited, marked and
    removed. *)
Lemma recordView_confirmDeposit_hit now d db :
  MIN_CONFIRMATIONS <= (now - timestamp d) / 5000 →
  recordView (transactionHash d) (confirmDeposit now d db)
  = (creditsFor (transactionHash d) db
       ++ [mkCredit (userId d) (amount d) (transactionHash d)], true, None).
Proof.
  intros Hreached. unfold confirmDeposit.
  rewrite (proj2 (Z.leb_le _ _) Hreached).
  unfold recordView. f_equal; [f_equal|].
  - change (creditsFor (transactionHash d)
              (creditUserAccount (userId d) (amount d) (transactionHash d) db) = 
            creditsFor (transactionHash d) db
              ++ [mkCredit (userId d) (amount d) (transactionHash d)]).
    by rewrite creditsFor_credit, decide_True.
  - change (isTransactionProcessed (transactionHash d)
              (markTransactionProcessed (transactionHash d) db) = true).
    by rewrite isTransactionProcessed_mark, bool_decide_eq_true_2.
  - simpl. apply JsMap_get_delete_eq.
Qed.

Lemma confirmAll_app clock l1 l2 :
  ∀ i db, confirmAll clock i (l1 ++ l2) db
          = confirmAll clock (i + length l1) l2 (confirmAll clock i l1 db).
Proof.
  induction l1 as [|d l1 IH]; intros i db; simpl.
  - by rewrite Nat.add_0_r.
  - rewrite IH. by rewrite Nat.add_succ_r.
Qed.

Lemma wfDb_confirmDeposit now d db : wfDb db → wfDb (confirmDeposit now d db).
Proof.
  intros [Hwf Hkeys]. unfold confirmDeposit.
  destruct (MIN_CONFIRMATIONS <=? _); [|done].
  split; simpl.
  - by apply JsMap_wf_delete.
  - unfold JsMap.delete. by apply Forall_filter_keep.
Qed.

Lemma wfDb_confirmAll clock l : ∀ i db, wfDb db → wfDb (confirmAll clock i l db).
Proof.
  induction l as [|d l IH]; intros i db Hwf; [done|].
  simpl. apply IH. by apply wfDb_confirmDeposit.
Qed.

Lemma wfDb_processPendingDeposits seqno clock db :
  wfDb db → wfDb (processPendingDeposits seqno clock db).
Proof. apply wfDb_confirmAll. Qed.

(** Entries sit under their own hash: a hash that is no key is the hash of
    no entry. *)
Lemma entries_other_hash h (m : list (string * UserDeposit)) :
  Forall (λ p, transactionHash p.2 = p.1) m →
  h ∉ JsMap.keys m →
  Forall (λ d, transactionHash d ≠ h) (JsMap.values m).
Proof.
  unfold JsMap.keys, JsMap.values.
  induction m as [|[k v] m IH]; intros Hkeys Hn; [constructor|].
  apply Forall_cons in Hkeys as [Hk Hm]. simpl in *.
  apply not_elem_of_cons in Hn as [Hne Hn].
  constructor; [congruence | by apply IH].
Qed.

Lemma recordView_processPending_absent h seqno clock db :
  wfDb db →
  JsMap.get h (pendingDeposits db) = None →
  recordView h (processPendingDeposits seqno clock db) = recordView h db.
Proof.
  intros [Hwf Hkeys] Hnone. apply recordView_confirmAll_other.
  apply entries_other_hash; [done | by apply JsMap_get_None].
Qed.

Lemma recordView_advanceRuns_absent h runs :
  ∀ db, wfDb db →
    JsMap.get h (pendingDeposits db) = None →
    recordView h (advanceRuns runs db) = recordView h db.
Proof.
  induction runs as [|[seqno clock] runs IH]; intros db Hwf Hnone; [done|].
  unfold advanceRuns in *. simpl.
  pose proof (recordView_processPending_absent h seqno clock db Hwf Hnone) as Hview.
  rewrite IH, Hview; [done | by apply wfDb_processPendingDeposits |].
  unfold recordView in Hview. injection Hview as _ _ ->. done.
Qed.

(** The run in which an outstanding record has reached the threshold. *)
Lemma recordView_processPending_hit seqno clock d db :
  wfDb db →
  JsMap.get (transactionHash d) (pendingDeposits db) = Some d →
  (∀ i, MIN_CONFIRMATIONS <= (clock i - timestamp d) / 5000) →
  recordView (transactionHash d) (processPendingDeposits seqno clock db)
  = (creditsFor (transactionHash d) db
       ++ [mkCredit (userId d) (amount d) (transactionHash d)], true, None).
Proof.
  intros [Hwf Hkeys] Hget Hreached.
  destruct (JsMap_get_Some_split _ _ _ Hget) as (m1 & m2 & Hm & Hn1).
  unfold processPendingDeposits, getPendingDeposits, JsMap.values.
  rewrite Hm in Hwf, Hkeys |- *.
  assert (transactionHash d ∉ JsMap.keys m2) as Hn2.
  { unfold JsMap.wf, JsMap.keys in Hwf. rewrite fmap_app, fmap_cons in Hwf.
    apply NoDup_app in Hwf as (_ & _ & Hnd). by apply NoDup_cons in Hnd as [? _]. }
  apply Forall_app in Hkeys as [Hk1 Hk2]. apply Forall_cons in Hk2 as [_ Hk2].
  rewrite fmap_app, fmap_cons, confirmAll_app. simpl.
  rewrite recordView_confirmAll_other by (by apply entries_other_hash).
  rewrite recordView_confirmDeposit_hit by done.
  do 3 f_equal.
  pose proof (recordView_confirmAll_other (transactionHash d) clock (m1.*2) 0%nat db
                (entries_other_hash _ _ Hk1 Hn1)) as Hview.
  exact (f_equal (λ view, view.1.1) Hview).
Qed.
End ConfirmationFacts.

(** C1. An outstanding deposit record that has reached the confirmation
    threshold is credited exactly once, whatever the number k >= 1 of runs of
    [processPendingDeposits] that follow: the first run appends the one
    credit for the record, marks its hash processed and removes it from the
    pending map, and every further run leaves all three unchanged. *)
Theorem deposit_credited_exactly_once
    (db : Deposit.DepositDatabase) (d : Deposit.UserDeposit)
    (seqno : Z) (clock : nat → Z) (later : list (Z * (nat → Z))) :
  Deposit.wfDb db →
  JsMap.get (Deposit.transactionHash d) (Deposit.pendingDeposits db) = Some d →
  (∀ i, Deposit.MIN_CONFIRMATIONS <= (clock i - Deposit.timestamp d) / 5000) →
  let h := Deposit.transactionHash d in
  let first := Deposit.processPendingDeposits seqno clock db in
  Deposit.recordView h first
  = (Deposit.creditsFor h db ++ [Deposit.mkCredit (Deposit.userId d) (Deposit.amount d) h],
     true, None)
  ∧ Deposit.recordView h (Deposit.advanceRuns later first) = Deposit.recordView h first.
Proof.
  intros Hwf Hget Hreached h first.
  pose proof (recordView_processPending_hit seqno clock d db Hwf Hget Hreached) as Hfirst.
  split; [exact Hfirst|].
  apply recordView_advanceRuns_absent.
  - by apply wfDb_processPendingDeposits.
  - fold h first in Hfirst. unfold Deposit.recordView in Hfirst.
    by injection Hfirst as _ _ ->.
Qed.

Lemma deposit_credited_exactly_once_witness :
  let d := Deposit.mkUserDeposit "alice" "ab01" 2000000000 "EQsender" 0 0 in
  let db := Deposit.addPendingDeposit d Deposit.emptyDb in
  let first := Deposit.processPendingDeposits 7 (λ _, 15000) db in
  Deposit.recordView "ab01" first
  = ([Deposit.mkCredit "alice" 2000000000 "ab01"], true, None)
  ∧ Deposit.recordView "ab01"
      (Deposit.advanceRuns [(8, λ _, 25000); (9, λ _, 35000)] first)
    = Deposit.recordView "ab01" first.
Proof.
  apply (deposit_credited_exactly_once
           (Deposit.addPendingDeposit
              (Deposit.mkUserDeposit "alice" "ab01" 2000000000 "EQsender" 0 0)
              Deposit.emptyDb)
           (Deposit.mkUserDeposit "alice" "ab01" 2000000000 "EQsender" 0 0)
           7 (λ _, 15000) [(8, λ _, 25000); (9, λ _, 35000)]).
  - split; simpl.
    + apply NoDup_singleton.
    + by repeat constructor.
  - reflexivity.
  - intros i. simpl. vm_compute. discriminate.
Defined.

(** ** Deposit monitor: observing a transaction *)

Section ObservationFacts.
Import Deposit.
Context `{Collaborators}.
Implicit Types (db : DepositDatabase) (tx : Transaction) (h : string).

Lemma processTransaction_processed now tx db :
  isTransactionProcessed (txhash tx) db = true →
  processTransaction now tx db = db.
Proof. intros Hp. unfold processTransaction. by rewrite Hp. Qed.

(** The code's two identification methods agree with the resolution order
    the specification words. *)
Local Arguments String.prefix : simpl never.
Local Arguments String.substring : simpl never.
Local Arguments String.length : simpl never.

Lemma identifyUser_resolveOwner sender comment :
  orNull (identifyUser sender comment) = resolveOwner sender comment.
Proof.
  unfold identifyUser, resolveOwner, orNull.
  destruct (getUserByAddress sender) as [[|c u]|]; simpl;
    destruct comment as [[|c' memo]|]; simpl; try done;
    unfold getUserByMemo;
    (destruct (String.prefix "DEPOSIT:" (String c' memo)); [|done]);
    by destruct (String.substring _ _ _).
Qed.

(** The three things [processTransaction] can do to the stores. *)
Lemma processTransaction_cases now tx db :
  processTransaction now tx db = db
  ∨ processTransaction now tx db = markTransactionProcessed (txhash tx) db
  ∨ ∃ user src amt,
      processTransaction now tx db
      = addPendingDeposit
          {| userId := user; transactionHash := txhash tx; amount := amt;
             sender := src; timestamp := now; confirmations := 0 |} db.
Proof.
  unfold processTransaction.
  destruct (isTransactionProcessed _ _); [by left|].
  destruct (inMessage tx) as [[[src amt| |] ?]|]; try by left.
  destruct (amt <? _); [by right; left|].
  destruct (match description tx with generic a => a | _ => true end); [by right; left|].
  destruct (orNull _) as [user|]; [|by right; left].
  right; right. by exists user, src, amt.
Qed.

(** The full reading of the validation chain for an incoming internal
    message that has not been processed. *)
Lemma processTransaction_internal now tx db msgbody src amt :
  isTransactionProcessed (txhash tx) db = false →
  inMessage tx = Some {| info := internal src amt; body := msgbody |} →
  processTransaction now tx db =
    if amt <? MIN_DEPOSIT_AMOUNT then markTransactionProcessed (txhash tx) db
    else if match description tx with generic a => a | _ => true end
    then markTransactionProcessed (txhash tx) db
    else match resolveOwner src (extractComment tx) with
         | None => markTransactionProcessed (txhash tx) db
         | Some user =>
             addPendingDeposit
               {| userId := user; transactionHash := txhash tx; amount := amt;
                  sender := src; timestamp := now; confirmations := 0 |} db
         end.
Proof.
  intros Hp Hmsg. unfold processTransaction.
  rewrite Hp, Hmsg, identifyUser_resolveOwner. done.
Qed.

Lemma wfDb_addPendingDeposit d db : wfDb db → wfDb (addPendingDeposit d db).
Proof.
  intros [Hwf Hkeys]. split; simpl; [by apply JsMap_wf_set|].
  clear Hwf. induction (pendingDeposits db) as [|[k v] m IH]; simpl.
  - by repeat constructor.
  - apply Forall_cons in Hkeys as [Hk Hm].
    destruct (decide (k = transactionHash d)); constructor; auto.
Qed.

Lemma wfDb_processTransaction now tx db : wfDb db → wfDb (processTransaction now tx db).
Proof.
  intros Hwf.
  destruct (processTransaction_cases now tx db) as [-> | [-> | (u & s & a & ->)]];
    [done | done | by apply wfDb_addPendingDeposit].
Qed.

Lemma wfDb_step db s : wfDb db → wfDb (step db s).
Proof.
  destruct s; simpl; [apply wfDb_processTransaction | apply wfDb_processPendingDeposits].
Qed.

(** Observing a transaction with another hash leaves the view of [h]
    alone. *)
Lemma recordView_processTransaction_other h now tx db :
  txhash tx ≠ h →
  recordView h (processTransaction now tx db) = recordView h db.
Proof.
  intros Hne.
  destruct (processTransaction_cases now tx db) as [-> | [-> | (u & s & a & ->)]];
    [done | |]; unfold recordView; f_equal; try done.
  - f_equal. rewrite isTransactionProcessed_mark, bool_decide_eq_false_2 by congruence. done.
  - simpl. by apply JsMap_get_set_ne.
Qed.

(** Observing twice is observing once, at the clock reading of the second
    observation. *)
Lemma processTransaction_twice now1 now2 tx db :
  processTransaction now2 tx (processTransaction now1 tx db)
  = processTransaction now2 tx db.
Proof.
  destruct (isTransactionProcessed (txhash tx) db) eqn:Hp.
  { by rewrite (processTransaction_processed now1 tx db Hp). }
  destruct (inMessage tx) as [[[src amt| |] msgbody]|] eqn:Hmsg;
    try (unfold processTransaction; by rewrite Hp, Hmsg, ?Hp, ?Hmsg).
  rewrite (processTransaction_internal now1 tx db msgbody src amt Hp Hmsg).
  rewrite (processTransaction_internal now2 tx db msgbody src amt Hp Hmsg).
  assert (∀ db', isTransactionProcessed (txhash tx)
                   (markTransactionProcessed (txhash tx) db') = true) as Hmark.
  { intros db'. by rewrite isTransactionProcessed_mark, bool_decide_eq_true_2. }
  destruct (amt <? MIN_DEPOSIT_AMOUNT) eqn:Hamt.
  { by rewrite processTransaction_processed. }
  destruct (match description tx with generic a => a | _ => true end) eqn:Hdesc.
  { by rewrite processTransaction_processed. }
  destruct (resolveOwner src (extractComment tx)) as [user|] eqn:Hres.
  2:{ by rewrite processTransaction_processed. }
  erewrite processTransaction_internal; [|exact Hp|exact Hmsg].
  rewrite Hamt, Hdesc, Hres. unfold addPendingDeposit. simpl.
  by rewrite JsMap_set_set.
Qed.

(** Observing twice at one clock reading is observing once. *)
Lemma processTransaction_idempotent_same_clock now tx db :
  processTransaction now tx (processTransaction now tx db) = processTransaction now tx db.
Proof.
  rewrite processTransaction_twice. done.
Qed.
End ObservationFacts.

Section RejectionFacts.
Import Deposit.
Context `{Collaborators}.
Implicit Types (db : DepositDatabase) (tx : Transaction).

(** A transaction whose owner cannot be resolved never enters the pending
    map. *)
Lemma processTransaction_unresolved now tx db msgbody src amt :
  inMessage tx = Some {| info := internal src amt; body := msgbody |} →
  resolveOwner src (extractComment tx) = None →
  processTransaction now tx db = db
  ∨ processTransaction now tx db = markTransactionProcessed (txhash tx) db.
Proof.
  intros Hmsg Hres.
  destruct (isTransactionProcessed (txhash tx) db) eqn:Hp.
  { left. by apply processTransaction_processed. }
  right. rewrite (processTransaction_internal now tx db msgbody src amt Hp Hmsg), Hres.
  by repeat case_match.
Qed.

(** Nothing pending and nothing credited under the hash of such a
    transaction: an invariant of every step. *)
Lemma unresolved_step tx db s msgbody src amt :
  inMessage tx = Some {| info := internal src amt; body := msgbody |} →
  resolveOwner src (extractComment tx) = None →
  sameTransaction tx s →
  wfDb db →
  JsMap.get (txhash tx) (pendingDeposits db) = None →
  creditsFor (txhash tx) db = [] →
  wfDb (step db s)
  ∧ JsMap.get (txhash tx) (pendingDeposits (step db s)) = None
  ∧ creditsFor (txhash tx) (step db s) = [].
Proof.
  intros Hmsg Hres Hsame Hwf Hnone Hcred.
  split; [by apply wfDb_step|].
  destruct s as [now' tx'|seqno clock]; simpl in *.
  - destruct (decide (txhash tx' = txhash tx)) as [Heq|Hne].
    + rewrite (Hsame Heq).
      by destruct (processTransaction_unresolved now' tx db msgbody src amt Hmsg Hres)
        as [-> | ->].
    + pose proof (recordView_processTransaction_other (txhash tx) now' tx' db Hne) as Hview.
      unfold recordView in Hview. injection Hview as -> _ ->. done.
  - pose proof (recordView_processPending_absent (txhash tx) seqno clock db Hwf Hnone)
      as Hview.
    unfold recordView in Hview. injection Hview as -> _ ->. done.
Qed.

Lemma unresolved_steps tx msgbody src amt ss :
  inMessage tx = Some {| info := internal src amt; body := msgbody |} →
  resolveOwner src (extractComment tx) = None →
  Forall (sameTransaction tx) ss →
  ∀ db, wfDb db →
    JsMap.get (txhash tx) (pendingDeposits db) = None →
    creditsFor (txhash tx) db = [] →
    wfDb (steps ss db)
    ∧ JsMap.get (txhash tx) (pendingDeposits (steps ss db)) = None
    ∧ creditsFor (txhash tx) (steps ss db) = [].
Proof.
  intros Hmsg Hres. induction ss as [|s ss IH]; intros Hall db Hwf Hnone Hcred; [done|].
  apply Forall_cons in Hall as [Hs Hss]. unfold steps in *. simpl.
  destruct (unresolved_step tx db s msgbody src amt Hmsg Hres Hs Hwf Hnone Hcred)
    as (Hwf' & Hnone' & Hcred').
  by apply IH.
Qed.
End RejectionFacts.

(** C7. A deposit that passes the amount and aborted checks is attributed to
    the user found by the sender's address, else to the user read from the
    text comment ([DEPOSIT:<user>] or the bare user id): the pending map then
    holds under the transaction hash a record for that user, with the
    amount, the sender and the time of the observation, and the hash is not
    marked processed. When neither yields a user the hash is marked
    processed, nothing is stored as pending or credited, and no later step
    ever credits it. *)
Theorem owner_resolved_by_address_then_comment `{Deposit.Collaborators}
    (now : Z) (tx : Deposit.Transaction) (db : Deposit.DepositDatabase)
    (msgbody : option (list bool)) (src : string) (amt : Z) :
  Deposit.isTransactionProcessed (Deposit.txhash tx) db = false →
  Deposit.inMessage tx
    = Some {| Deposit.info := Deposit.internal src amt; Deposit.body := msgbody |} →
  Deposit.MIN_DEPOSIT_AMOUNT <= amt →
  Deposit.description tx = Deposit.generic false →
  let result := Deposit.processTransaction now tx db in
  match Deposit.resolveOwner src (Deposit.extractComment tx) with
  | Some user =>
      result
      = Deposit.addPendingDeposit
          {| Deposit.userId := user; Deposit.transactionHash := Deposit.txhash tx;
             Deposit.amount := amt; Deposit.sender := src;
             Deposit.timestamp := now; Deposit.confirmations := 0 |} db
      ∧ JsMap.get (Deposit.txhash tx) (Deposit.pendingDeposits result)
        = Some {| Deposit.userId := user; Deposit.transactionHash := Deposit.txhash tx;
                  Deposit.amount := amt; Deposit.sender := src;
                  Deposit.timestamp := now; Deposit.confirmations := 0 |}
      ∧ Deposit.isTransactionProcessed (Deposit.txhash tx) result = false
      ∧ Deposit.credited result = Deposit.credited db
      ∧ (∀ byAddress, Deposit.getUserByAddress src = Some byAddress →
           byAddress ≠ "" → user = byAddress)
  | None =>
      result = Deposit.markTransactionProcessed (Deposit.txhash tx) db
      ∧ Deposit.isTransactionProcessed (Deposit.txhash tx) result = true
      ∧ Deposit.pendingDeposits result = Deposit.pendingDeposits db
      ∧ Deposit.credited result = Deposit.credited db
      ∧ ∀ before after,
          Forall (Deposit.sameTransaction tx) (before ++ after) →
          let final :=
            Deposit.steps after
              (Deposit.processTransaction now tx (Deposit.steps before Deposit.emptyDb)) in
          Deposit.creditsFor (Deposit.txhash tx) final = []
          ∧ JsMap.get (Deposit.txhash tx) (Deposit.pendingDeposits final) = None
  end.
Proof.
  intros Hp Hmsg Hamt Hdesc result. subst result.
  rewrite (processTransaction_internal now tx db msgbody src amt Hp Hmsg), Hdesc.
  rewrite (proj2 (Z.ltb_ge _ _) Hamt).
  destruct (Deposit.resolveOwner src (Deposit.extractComment tx)) as [user|] eqn:Hres.
  { split_and!; [done | | done | done |].
    - unfold Deposit.addPendingDeposit. cbn [Deposit.pendingDeposits Deposit.transactionHash].
      apply JsMap_get_set_eq.
    - intros byAddress Hby Hne. unfold Deposit.resolveOwner in Hres. rewrite Hby in Hres.
      destruct byAddress as [|c u]; [done | congruence]. }
  split_and!; [done | | done | done |].
  { rewrite isTransactionProcessed_mark. by rewrite bool_decide_eq_true_2. }
  intros before after Hall. apply Forall_app in Hall as [Hbefore Hafter].
  change (Deposit.processTransaction now tx (Deposit.steps before Deposit.emptyDb))
    with (Deposit.steps [Deposit.Observe now tx] (Deposit.steps before Deposit.emptyDb)).
  unfold Deposit.steps. rewrite <- !foldl_app.
  assert (Forall (Deposit.sameTransaction tx)
            (before ++ [Deposit.Observe now tx] ++ after)) as Hall.
  { rewrite !Forall_app. split_and!; [done | | done]. by repeat constructor. }
  assert (Deposit.wfDb Deposit.emptyDb) as Hwf.
  { split; simpl; [apply NoDup_nil_2 | constructor]. }
  by destruct (unresolved_steps tx msgbody src amt _ Hmsg Hres Hall
                 Deposit.emptyDb Hwf eq_refl eq_refl) as (_ & Hnone & Hcred).
Qed.

Lemma owner_resolved_by_address_then_comment_witness :
  let byComment :=
    Deposit.processTransaction (H := Examples.memoryDatabase) 1000
      (Examples.depositTx "ab01" "EQsender" 1500000000 "DEPOSIT:alice") Deposit.emptyDb in
  let byAddress :=
    Deposit.processTransaction (H := Examples.oneAddressDatabase "EQsender" "bob") 1000
      (Examples.depositTx "ab02" "EQsender" 1500000000 "DEPOSIT:alice") Deposit.emptyDb in
  let unresolved :=
    Deposit.processTransaction (H := Examples.memoryDatabase) 1000
      (Examples.depositTx "ab03" "EQsender" 1500000000 "") Deposit.emptyDb in
  Deposit.userId <$> JsMap.get "ab01" (Deposit.pendingDeposits byComment) = Some "alice"
  ∧ Deposit.isTransactionProcessed "ab01" byComment = false
  ∧ Deposit.userId <$> JsMap.get "ab02" (Deposit.pendingDeposits byAddress) = Some "bob"
  ∧ Deposit.isTransactionProcessed "ab03" unresolved = true
  ∧ Deposit.pendingDeposits unresolved = [].
Proof.
  intros byComment byAddress unresolved.
  assert (Deposit.MIN_DEPOSIT_AMOUNT <= 1500000000) as Hamt by (vm_compute; discriminate).
  pose proof (owner_resolved_by_address_then_comment (H := Examples.memoryDatabase) 1000
                (Examples.depositTx "ab01" "EQsender" 1500000000 "DEPOSIT:alice")
                Deposit.emptyDb (Some (Examples.commentBody "DEPOSIT:alice"))
                "EQsender" 1500000000 eq_refl eq_refl Hamt eq_refl) as (_ & Hget1 & Hp1 & _).
  pose proof (owner_resolved_by_address_then_comment
                (H := Examples.oneAddressDatabase "EQsender" "bob") 1000
                (Examples.depositTx "ab02" "EQsender" 1500000000 "DEPOSIT:alice")
                Deposit.emptyDb (Some (Examples.commentBody "DEPOSIT:alice"))
                "EQsender" 1500000000 eq_refl eq_refl Hamt eq_refl) as (_ & Hget2 & _).
  pose proof (owner_resolved_by_address_then_comment (H := Examples.memoryDatabase) 1000
                (Examples.depositTx "ab03" "EQsender" 1500000000 "")
                Deposit.emptyDb (Some (Examples.commentBody ""))
                "EQsender" 1500000000 eq_refl eq_refl Hamt eq_refl) as (_ & Hp3 & Hpend3 & _).
  split_and!.
  - exact (f_equal (fmap Deposit.userId) Hget1).
  - exact Hp1.
  - exact (f_equal (fmap Deposit.userId) Hget2).
  - exact Hp3.
  - exact Hpend3.
Defined.

(** The sender's address takes precedence over the comment, and a comment
    [DEPOSIT:] without a user id resolves nobody. *)
Example address_before_comment :
  Deposit.resolveOwner (H := Examples.oneAddressDatabase "EQbob" "bob") "EQbob"
    (Some "DEPOSIT:alice") = Some "bob"
  ∧ Deposit.resolveOwner (H := Examples.memoryDatabase) "EQbob" (Some "alice") = Some "alice"
  ∧ Deposit.resolveOwner (H := Examples.memoryDatabase) "EQbob" (Some "DEPOSIT:") = None
  ∧ Deposit.resolveOwner (H := Examples.memoryDatabase) "EQbob" None = None.
Proof. by vm_compute. Qed.

(** C8. With the minimum of 1,000,000,000 nanotons, an incoming transfer
    that has not been processed is rejected by the amount check exactly when
    its amount is below the minimum: below, its hash is marked processed and
    nothing is stored as pending or credited; from the minimum on, the
    amount check lets it pass, the outcome is left to the aborted check and
    the owner resolution, and a transfer that passes those is stored as
    pending, with its amount, and not marked processed. *)
Theorem minimum_deposit_boundary `{Deposit.Collaborators}
    (now : Z) (tx : Deposit.Transaction) (db : Deposit.DepositDatabase)
    (msgbody : option (list bool)) (src : string) (amt : Z) :
  Deposit.isTransactionProcessed (Deposit.txhash tx) db = false →
  Deposit.inMessage tx
    = Some {| Deposit.info := Deposit.internal src amt; Deposit.body := msgbody |} →
  let result := Deposit.processTransaction now tx db in
  (amt < 1000000000 →
     result = Deposit.markTransactionProcessed (Deposit.txhash tx) db
     ∧ Deposit.isTransactionProcessed (Deposit.txhash tx) result = true
     ∧ Deposit.pendingDeposits result = Deposit.pendingDeposits db
     ∧ Deposit.credited result = Deposit.credited db)
  ∧ (1000000000 <= amt →
     result
     = (if match Deposit.description tx with
           | Deposit.generic aborted => aborted
           | Deposit.other_description => true
           end
        then Deposit.markTransactionProcessed (Deposit.txhash tx) db
        else match Deposit.resolveOwner src (Deposit.extractComment tx) with
             | None => Deposit.markTransactionProcessed (Deposit.txhash tx) db
             | Some user =>
                 Deposit.addPendingDeposit
                   {| Deposit.userId := user; Deposit.transactionHash := Deposit.txhash tx;
                      Deposit.amount := amt; Deposit.sender := src;
                      Deposit.timestamp := now; Deposit.confirmations := 0 |} db
             end)
     ∧ ∀ user,
         Deposit.description tx = Deposit.generic false →
         Deposit.resolveOwner src (Deposit.extractComment tx) = Some user →
         JsMap.get (Deposit.txhash tx) (Deposit.pendingDeposits result)
         = Some {| Deposit.userId := user; Deposit.transactionHash := Deposit.txhash tx;
                   Deposit.amount := amt; Deposit.sender := src;
                   Deposit.timestamp := now; Deposit.confirmations := 0 |}
         ∧ Deposit.isTransactionProcessed (Deposit.txhash tx) result = false
         ∧ Deposit.credited result = Deposit.credited db).
Proof.
  intros Hp Hmsg result. subst result.
  rewrite (processTransaction_internal now tx db msgbody src amt Hp Hmsg).
  change Deposit.MIN_DEPOSIT_AMOUNT with 1000000000.
  split; intros Hamt.
  - rewrite (proj2 (Z.ltb_lt _ _) Hamt). split_and!; [done | | done | done].
    rewrite isTransactionProcessed_mark. by rewrite bool_decide_eq_true_2.
  - rewrite (proj2 (Z.ltb_ge _ _) Hamt). split; [done|].
    intros user Hdesc Hres. rewrite Hdesc, Hres. split_and!; [| done | done].
    unfold Deposit.addPendingDeposit. cbn [Deposit.pendingDeposits Deposit.transactionHash].
    apply JsMap_get_set_eq.
Qed.

Lemma minimum_deposit_boundary_witness :
  let below :=
    Deposit.processTransaction (H := Examples.memoryDatabase) 1000
      (Examples.depositTx "ab01" "EQsender" 999999999 "alice") Deposit.emptyDb in
  let atMinimum :=
    Deposit.processTransaction (H := Examples.memoryDatabase) 1000
      (Examples.depositTx "ab02" "EQsender" 1000000000 "alice") Deposit.emptyDb in
  Deposit.isTransactionProcessed "ab01" below = true
  ∧ Deposit.pendingDeposits below = []
  ∧ Deposit.amount <$> JsMap.get "ab02" (Deposit.pendingDeposits atMinimum)
    = Some 1000000000
  ∧ Deposit.isTransactionProcessed "ab02" atMinimum = false.
Proof.
  intros below atMinimum.
  assert (999999999 < 1000000000) as Hbelow by lia.
  assert (1000000000 <= 1000000000) as Hat by lia.
  destruct (proj1 (minimum_deposit_boundary (H := Examples.memoryDatabase) 1000
                     (Examples.depositTx "ab01" "EQsender" 999999999 "alice")
                     Deposit.emptyDb (Some (Examples.commentBody "alice"))
                     "EQsender" 999999999 eq_refl eq_refl) Hbelow)
    as (_ & Hp1 & Hpend1 & _).
  destruct (proj2 (minimum_deposit_boundary (H := Examples.memoryDatabase) 1000
                     (Examples.depositTx "ab02" "EQsender" 1000000000 "alice")
                     Deposit.emptyDb (Some (Examples.commentBody "alice"))
                     "EQsender" 1000000000 eq_refl eq_refl) Hat)
    as (_ & Hstored).
  destruct (Hstored "alice" eq_refl eq_refl) as (Hget2 & Hp2 & _).
  split_and!.
  - exact Hp1.
  - exact Hpend1.
  - exact (f_equal (fmap Deposit.amount) Hget2).
  - exact Hp2.
Defined.

(** C3. Observing a transaction a second time is not always without effect:
    while the deposit is pending (stored, not yet marked processed) the
    second observation passes the processed check and overwrites the
    pending record with a new time stamp, so the confirmation step that
    would have credited the deposit no longer does. Here the deposit is
    observed at clock 0 and again at clock 20000, and the confirmation step
    runs at clock 20000. *)
Theorem reobserving_pending_deposit_restarts_clock :
  let tx := Examples.depositTx "ab01" "EQsender" 2000000000 "DEPOSIT:alice" in
  let once := Deposit.processTransaction (H := Examples.memoryDatabase) 0 tx Deposit.emptyDb in
  let twice := Deposit.processTransaction (H := Examples.memoryDatabase) 20000 tx once in
  Deposit.timestamp <$> JsMap.get "ab01" (Deposit.pendingDeposits once) = Some 0
  ∧ Deposit.timestamp <$> JsMap.get "ab01" (Deposit.pendingDeposits twice) = Some 20000
  ∧ twice ≠ once
  ∧ Deposit.credited (Deposit.processPendingDeposits 0 (λ _, 20000) once)
    = [Deposit.mkCredit "alice" 2000000000 "ab01"]
  ∧ Deposit.credited (Deposit.processPendingDeposits 0 (λ _, 20000) twice) = [].
Proof.
  split_and!; try (vm_compute; reflexivity).
  intros Heq. apply (f_equal (λ d, Deposit.timestamp <$> JsMap.get "ab01" (Deposit.pendingDeposits d))) in Heq.
  vm_compute in Heq. discriminate.
Qed.

(** ** Query ids *)

Section QueryIdFacts.
Import QueryId.
Variable BITS : Z.
Implicit Types q : HighloadQueryId.

Lemma position_specGetNext q :
  valid BITS q → position BITS (specGetNext BITS q) = position BITS q + 1.
Proof.
  intros (Hs & Hb & _). unfold specGetNext, position.
  destruct (bitnumber q + 1 <? BITS) eqn:Hlt; simpl.
  - lia.
  - apply Z.ltb_ge in Hlt. assert (bitnumber q = BITS - 1) as -> by lia. lia.
Qed.

Lemma valid_specGetNext q :
  valid BITS q → specHasNext BITS q = true → valid BITS (specGetNext BITS q).
Proof.
  intros Hv Hnext. pose proof (position_specGetNext q Hv) as Hpos.
  destruct Hv as (Hs & Hb & Hc). apply Z.ltb_lt in Hnext.
  unfold valid. rewrite Hpos. unfold specGetNext.
  destruct (bitnumber q + 1 <? BITS) eqn:Hlt; simpl.
  - apply Z.ltb_lt in Hlt. lia.
  - lia.
Qed.

Lemma idLt_specGetNext q : valid BITS q → idLt q (specGetNext BITS q).
Proof.
  intros (Hs & Hb & _). unfold specGetNext, idLt.
  destruct (bitnumber q + 1 <? BITS); simpl; lia.
Qed.

Lemma idLt_trans p q r : idLt p q → idLt q r → idLt p r.
Proof. unfold idLt. lia. Qed.

Lemma idLt_irrefl q : ¬ idLt q q.
Proof. unfold idLt. lia. Qed.

Lemma remaining_specHasNext q n :
  (S n ≤ remaining BITS q)%nat → specHasNext BITS q = true.
Proof. unfold remaining, specHasNext. intros Hn. apply Z.ltb_lt. lia. Qed.

Lemma remaining_specGetNext q :
  valid BITS q → specHasNext BITS q = true →
  remaining BITS q = S (remaining BITS (specGetNext BITS q)).
Proof.
  intros Hv Hnext. unfold remaining. rewrite position_specGetNext by done.
  apply Z.ltb_lt in Hnext. lia.
Qed.

Lemma remaining_zero q :
  valid BITS q → remaining BITS q = 0%nat → specHasNext BITS q = false.
Proof.
  intros (_ & _ & Hc). unfold remaining, specHasNext. intros Hn. apply Z.ltb_ge. lia.
Qed.
End QueryIdFacts.

(** Ids sorted in the strict order are pairwise distinct. *)
Lemma idLt_sorted_NoDup (ids : list QueryId.HighloadQueryId) :
  StronglySorted QueryId.idLt ids → NoDup ids.
Proof.
  induction 1 as [|q ids Hsorted IH Hall]; [apply NoDup_nil_2|].
  apply NoDup_cons. split; [|done].
  intros Hin. rewrite Forall_forall in Hall.
  by apply (idLt_irrefl q), Hall.
Qed.

(** ** Batch withdrawal processor: the sequencer *)

Section SequencerFacts.
Import QueryId Withdrawal.
Context {Address : Type}.
Variable BITS : Z.
Implicit Types p : Processor Address HighloadQueryId.

Local Existing Instance specSequencer.

Lemma nextQueryIds_S (n : nat) p :
  specHasNext BITS (lastQueryId p) = true →
  nextQueryIds (H := specSequencer BITS) (S n) p
  = let p1 := {| db := db p; lastQueryId := specGetNext BITS (lastQueryId p);
                 sent := sent p |} in
    (inr (specGetNext BITS (lastQueryId p))
       :: (nextQueryIds (H := specSequencer BITS) n p1).1,
     (nextQueryIds (H := specSequencer BITS) n p1).2).
Proof.
  intros Hnext. simpl. unfold getNextQueryId. simpl. rewrite Hnext.
  by destruct (nextQueryIds n _).
Qed.

Lemma nextQueryIds_spec (n : nat) :
  ∀ p, valid BITS (lastQueryId p) →
    (n ≤ remaining BITS (lastQueryId p))%nat →
    ∃ ids,
      (nextQueryIds (H := specSequencer BITS) n p).1 = inr <$> ids
      ∧ length ids = n
      ∧ StronglySorted idLt (lastQueryId p :: ids)
      ∧ db (nextQueryIds (H := specSequencer BITS) n p).2 = db p
      ∧ sent (nextQueryIds (H := specSequencer BITS) n p).2 = sent p
      ∧ lastQueryId (nextQueryIds (H := specSequencer BITS) n p).2
        = List.last ids (lastQueryId p)
      ∧ valid BITS (lastQueryId (nextQueryIds (H := specSequencer BITS) n p).2)
      ∧ remaining BITS (lastQueryId p)
        = (n + remaining BITS (lastQueryId (nextQueryIds (H := specSequencer BITS) n p).2))%nat.
Proof.
  induction n as [|n IH]; intros p Hv Hn.
  - exists []. simpl. split_and!; try done. by repeat constructor.
  - pose proof (remaining_specHasNext BITS (lastQueryId p) n Hn) as Hnext.
    pose proof (remaining_specGetNext BITS (lastQueryId p) Hv Hnext) as Hrem.
    rewrite nextQueryIds_S by done. cbn zeta.
    set (p1 := {| db := db p; lastQueryId := specGetNext BITS (lastQueryId p);
                  sent := sent p |}).
    destruct (IH p1) as (ids & Hres & Hlen & Hsorted & Hdb & Hsent & Hlast & Hv' & Hrem').
    { by apply valid_specGetNext. }
    { simpl. lia. }
    destruct (nextQueryIds n p1) as [rs p2] eqn:Hrun. simpl in *.
    exists (specGetNext BITS (lastQueryId p) :: ids).
    split_and!; try done.
    + by rewrite Hres.
    + simpl. by rewrite Hlen.
    + constructor; [done|].
      apply StronglySorted_inv in Hsorted as [_ Hall].
      constructor; [by apply idLt_specGetNext|].
      eapply Forall_impl; [exact Hall|].
      intros r Hr. eapply idLt_trans; [|exact Hr]. by apply idLt_specGetNext.
    + by rewrite Hlast, last_cons_default.
    + lia.
Qed.
End SequencerFacts.

(** C2. From any position of the id space, N successive calls of
    [getNextQueryId], N within the remaining capacity, all return an id; the
    ids are strictly increasing from the last id handed out, hence pairwise
    distinct; a further call made when [hasNext] is false returns no id but
    fails with the exhaustion error and leaves the sequencer where it is,
    which is the case once the N calls have used up the capacity. *)
Theorem query_ids_increase_until_exhausted {Address : Type} (BITS : Z)
    (p : Withdrawal.Processor Address QueryId.HighloadQueryId) (N : nat) :
  QueryId.valid BITS (Withdrawal.lastQueryId p) →
  (N ≤ QueryId.remaining BITS (Withdrawal.lastQueryId p))%nat →
  let run := Withdrawal.nextQueryIds (H := QueryId.specSequencer BITS) N p in
  (∃ ids,
      run.1 = inr <$> ids
      ∧ length ids = N
      ∧ StronglySorted QueryId.idLt (Withdrawal.lastQueryId p :: ids)
      ∧ NoDup ids)
  ∧ (QueryId.specHasNext BITS (Withdrawal.lastQueryId run.2) = false →
     Withdrawal.getNextQueryId (H := QueryId.specSequencer BITS) run.2
     = (inl "Query ID exhausted. Wait for timeout period to reset.", run.2))
  ∧ (N = QueryId.remaining BITS (Withdrawal.lastQueryId p) →
     QueryId.specHasNext BITS (Withdrawal.lastQueryId run.2) = false).
Proof.
  intros Hv Hn run.
  destruct (nextQueryIds_spec BITS N p Hv Hn)
    as (ids & Hres & Hlen & Hsorted & _ & _ & _ & Hv' & Hrem).
  fold run in Hres, Hv', Hrem. split_and!.
  - exists ids. split_and!; try done.
    apply idLt_sorted_NoDup. by apply StronglySorted_inv in Hsorted as [? _].
  - intros Hnone. unfold Withdrawal.getNextQueryId. simpl. by rewrite Hnone.
  - intros HN. apply remaining_zero; [done | lia].
Qed.

Lemma query_ids_increase_until_exhausted_witness :
  let p : Withdrawal.Processor string QueryId.HighloadQueryId :=
    {| Withdrawal.db := Examples.emptyWithdrawals;
       Withdrawal.lastQueryId := {| QueryId.shift := 8191; QueryId.bitnumber := 1020 |};
       Withdrawal.sent := [] |} in
  let run := Withdrawal.nextQueryIds (H := QueryId.specSequencer 1023) 2 p in
  (∃ ids,
      run.1 = inr <$> ids
      ∧ length ids = 2%nat
      ∧ StronglySorted QueryId.idLt (Withdrawal.lastQueryId p :: ids)
      ∧ NoDup ids)
  ∧ (QueryId.specHasNext 1023 (Withdrawal.lastQueryId run.2) = false →
     Withdrawal.getNextQueryId (H := QueryId.specSequencer 1023) run.2
     = (inl "Query ID exhausted. Wait for timeout period to reset.", run.2))
  ∧ (2%nat = QueryId.remaining 1023 (Withdrawal.lastQueryId p) →
     QueryId.specHasNext 1023 (Withdrawal.lastQueryId run.2) = false).
Proof.
  apply (query_ids_increase_until_exhausted 1023
           {| Withdrawal.db := Examples.emptyWithdrawals;
              Withdrawal.lastQueryId := {| QueryId.shift := 8191; QueryId.bitnumber := 1020 |};
              Withdrawal.sent := [] |} 2).
  - unfold QueryId.valid, QueryId.position, QueryId.CEILING. simpl. lia.
  - unfold QueryId.remaining, QueryId.position, QueryId.CEILING. simpl. lia.
Defined.

(** The layout of 1023 bit numbers per shift: a fresh sequencer has the
    documented 8,380,415 ids ahead of it; the first three calls return
    positions one to three; at the ceiling no id is returned. *)
Example fresh_sequencer_capacity :
  QueryId.remaining 1023 QueryId.zero = Z.to_nat 8380415
  ∧ (Withdrawal.nextQueryIds (H := QueryId.specSequencer 1023) 3
       {| Withdrawal.db := Examples.emptyWithdrawals;
          Withdrawal.lastQueryId := QueryId.zero;
          Withdrawal.sent := @nil (Withdrawal.Batch string QueryId.HighloadQueryId) |}).1
    = [inr (QueryId.mkQueryId 0 1); inr (QueryId.mkQueryId 0 2); inr (QueryId.mkQueryId 0 3)]
  ∧ (Withdrawal.getNextQueryId (H := QueryId.specSequencer 1023)
       {| Withdrawal.db := Examples.emptyWithdrawals;
          Withdrawal.lastQueryId := QueryId.mkQueryId 8191 1022;
          Withdrawal.sent := @nil (Withdrawal.Batch string QueryId.HighloadQueryId) |}).1
    = inl "Query ID exhausted. Wait for timeout period to reset.".
Proof. split_and!; reflexivity. Qed.

(** ** Batch withdrawal processor: building and sending a batch *)

Section BatchFacts.
Import QueryId Withdrawal.
Context {Address Q : Type} `{Sequencer Q} `{Chain Address Q}.
Implicit Types (d : WithdrawalDatabase) (p : Processor Address Q)
  (ws : list WithdrawalRequest).

Lemma createStep_fold ws :
  ∀ acc d,
    foldl createStep (acc, d) ws
    = (acc ++ omap messageOf ws,
       {| pendingWithdrawals := pendingWithdrawals d;
          processedWithdrawals := processedWithdrawals d;
          processing := processing d;
          failed := failed d ++ omap failureOf ws |}).
Proof.
  induction ws as [|w ws IH]; intros acc d; simpl.
  - rewrite !app_nil_r. by destruct d.
  - unfold messageOf at 1, failureOf at 1.
    replace (createStep (acc, d) w) with
      (match parse (address w) with
       | inr dest => (acc ++ [withdrawalMessage w dest], d)
       | inl e => (acc, markWithdrawalFailed (withdrawalId w) ("Invalid address: " +:+ e) d)
       end) by (unfold createStep; by destruct (parse (address w))).
    destruct (parse (address w)) as [e|dest]; rewrite IH; simpl.
    + by rewrite <- app_assoc.
    + by rewrite <- app_assoc.
Qed.

Lemma createWithdrawalMessages_spec ws d :
  createWithdrawalMessages ws d
  = (omap messageOf ws,
     {| pendingWithdrawals := pendingWithdrawals d;
        processedWithdrawals := processedWithdrawals d;
        processing := processing d;
        failed := failed d ++ omap failureOf ws |}).
Proof. unfold createWithdrawalMessages. by rewrite createStep_fold. Qed.

Lemma markProcessing_fold ws :
  ∀ d,
    foldl (λ d w, markWithdrawalProcessing (withdrawalId w) d) d ws
    = {| pendingWithdrawals := pendingWithdrawals d;
         processedWithdrawals := processedWithdrawals d;
         processing := processing d ++ (withdrawalId <$> ws);
         failed := failed d |}.
Proof.
  induction ws as [|w ws IH]; intros d; simpl.
  - rewrite app_nil_r. by destruct d.
  - rewrite IH. simpl. by rewrite <- app_assoc.
Qed.

Lemma markCompleted_fold ws :
  ∀ d,
    foldl (λ d w, markWithdrawalCompleted (withdrawalId w) d) d ws
    = {| pendingWithdrawals :=
           foldl (λ m w, JsMap.delete (withdrawalId w) m) (pendingWithdrawals d) ws;
         processedWithdrawals := list_to_set (withdrawalId <$> ws) ∪ processedWithdrawals d;
         processing := processing d;
         failed := failed d |}.
Proof.
  induction ws as [|w ws IH]; intros d; simpl.
  - rewrite (left_id_L ∅ (∪)). by destruct d.
  - rewrite IH. simpl. f_equal.
    rewrite (assoc_L (∪)). f_equal. apply (comm_L (∪)).
Qed.

(** Deleting the keys of the first [n] entries leaves the other entries. *)
Lemma delete_fetched (m : list (string * WithdrawalRequest)) :
  JsMap.wf m →
  Forall (λ e, withdrawalId e.2 = e.1) m →
  ∀ n, foldl (λ m w, JsMap.delete (withdrawalId w) m) m (take n (JsMap.values m))
       = drop n m.
Proof.
  unfold JsMap.wf, JsMap.keys, JsMap.values.
  induction m as [|[k v] m IH]; intros Hwf Hkeys n.
  - by destruct n.
  - destruct n as [|n]; [done|].
    apply NoDup_cons in Hwf as [Hk Hwf]. apply Forall_cons in Hkeys as [Hkv Hkeys].
    simpl in *. subst k.
    unfold JsMap.delete at 2. rewrite filter_cons. simpl.
    rewrite decide_False by (intros Hne; by apply Hne).
    fold (JsMap.delete (withdrawalId v) m).
    rewrite JsMap_delete_absent by done. by apply IH.
Qed.
End BatchFacts.

Section ProcessBatchFacts.
Import QueryId Withdrawal.
Context {Address Q : Type} `{Sequencer Q} `{Chain Address Q}.
Implicit Types (d : WithdrawalDatabase) (p : Processor Address Q).

(** The state a call leaves when the batch was accepted. *)
Lemma processBatch_accepted now p :
  let ws := getPendingWithdrawals MAX_BATCH_SIZE (db p) in
  omap messageOf ws ≠ [] →
  hasNext (lastQueryId p) = true →
  sendBatch (plannedBatch now p) = None →
  processBatch now p
  = (Returned,
     {| db :=
          {| pendingWithdrawals :=
               foldl (λ m w, JsMap.delete (withdrawalId w) m) (pendingWithdrawals (db p)) ws;
             processedWithdrawals :=
               list_to_set (withdrawalId <$> ws) ∪ processedWithdrawals (db p);
             processing := processing (db p) ++ (withdrawalId <$> ws);
             failed := failed (db p) ++ omap failureOf ws |};
        lastQueryId := getNext (lastQueryId p);
        sent := sent p ++ [plannedBatch now p] |}).
Proof.
  intros ws Hmsgs Hnext Hsend. unfold processBatch. fold ws.
  destruct (length ws =? 0)%nat eqn:Hlen.
  { apply Nat.eqb_eq, nil_length_inv in Hlen. by rewrite Hlen in Hmsgs. }
  rewrite markProcessing_fold, createWithdrawalMessages_spec. cbn iota beta.
  destruct (length (omap messageOf ws) =? 0)%nat eqn:Hlen'.
  { by apply Nat.eqb_eq, nil_length_inv in Hlen'. }
  unfold getNextQueryId. cbn [lastQueryId db sent]. rewrite Hnext.
  change {| messages := omap messageOf ws; subwalletId := SUBWALLET_ID;
            queryId := getNext (lastQueryId p); timeout := TIMEOUT;
            createdAt := now / 1000 |} with (plannedBatch now p).
  rewrite Hsend, markCompleted_fold. done.
Qed.

(** A call that adds to the accepted batches went all the way. *)
Lemma processBatch_sent_inv now p :
  sent (processBatch now p).2 ≠ sent p →
  omap messageOf (getPendingWithdrawals MAX_BATCH_SIZE (db p)) ≠ []
  ∧ hasNext (lastQueryId p) = true
  ∧ sendBatch (plannedBatch now p) = None.
Proof.
  unfold processBatch.
  set (ws := getPendingWithdrawals MAX_BATCH_SIZE (db p)).
  destruct (length ws =? 0)%nat; [done|].
  rewrite markProcessing_fold, createWithdrawalMessages_spec. cbn iota beta.
  destruct (length (omap messageOf ws) =? 0)%nat eqn:Hlen'; [done|].
  unfold getNextQueryId. cbn [lastQueryId db sent].
  destruct (hasNext (lastQueryId p)); [|done].
  change {| messages := omap messageOf ws; subwalletId := SUBWALLET_ID;
            queryId := getNext (lastQueryId p); timeout := TIMEOUT;
            createdAt := now / 1000 |} with (plannedBatch now p).
  destruct (sendBatch (plannedBatch now p)); [done|].
  intros _. split_and!; try done.
  intros Hnil. by rewrite Hnil in Hlen'.
Qed.

Lemma parses_from_messageOf (m : list (string * WithdrawalRequest)) :
  Forall (λ e, is_Some (messageOf e.2)) m →
  Forall (λ e, ∃ dest, parse (address e.2) = inr dest) m.
Proof.
  intros Hall. eapply Forall_impl; [exact Hall|].
  intros e [msg Hmsg]. unfold messageOf in Hmsg.
  destruct (parse (address e.2)) as [err|dest]; [done | by exists dest].
Qed.

Lemma omap_messageOf_length ws :
  Forall (λ w, ∃ dest, parse (address w) = inr dest) ws →
  length (omap messageOf ws) = length ws.
Proof.
  induction 1 as [|w ws [dest Hw] _ IH]; [done|].
  change (omap messageOf (w :: ws))
    with (match messageOf w with
          | Some m => m :: omap messageOf ws
          | None => omap messageOf ws
          end).
  unfold messageOf at 1. rewrite Hw. cbn [length]. by rewrite IH.
Qed.
End ProcessBatchFacts.

Section FetchedFacts.
Import Withdrawal.

Lemma getPendingWithdrawals_max d :
  getPendingWithdrawals MAX_BATCH_SIZE d = take 254 (JsMap.values (pendingWithdrawals d)).
Proof. reflexivity. Qed.

Lemma get_after_deletes (m : list (string * WithdrawalRequest)) k ws :
  JsMap.get k m = None →
  JsMap.get k (foldl (λ m w, JsMap.delete (withdrawalId w) m) m ws) = None.
Proof.
  revert m. induction ws as [|w ws IH]; intros m Hnone; [done|].
  simpl. apply IH. destruct (decide (withdrawalId w = k)) as [<-|Hne].
  - apply JsMap_get_delete_eq.
  - by rewrite JsMap_get_delete_ne.
Qed.

Lemma get_deleted (m : list (string * WithdrawalRequest)) w ws :
  w ∈ ws →
  JsMap.get (withdrawalId w) (foldl (λ m w, JsMap.delete (withdrawalId w) m) m ws) = None.
Proof.
  revert m. induction ws as [|w0 ws IH]; intros m Hin.
  - by apply elem_of_nil in Hin.
  - simpl. apply elem_of_cons in Hin as [->|Hin].
    + apply get_after_deletes, JsMap_get_delete_eq.
    + by apply IH.
Qed.
End FetchedFacts.

(** C5. With 300 pending requests whose addresses all parse, a sequencer
    that has a next id and a wallet that accepts the submission, one call of
    [processBatch] submits one batch of exactly 254 messages under the one
    query id it takes from the sequencer, and leaves exactly the last 46
    requests pending. *)
Theorem batch_of_300_submits_254 {Address Q : Type}
    `{QueryId.Sequencer Q} `{Withdrawal.Chain Address Q}
    (now : Z) (p : Withdrawal.Processor Address Q) :
  Withdrawal.wfDb (Withdrawal.db p) →
  length (Withdrawal.pendingWithdrawals (Withdrawal.db p)) = 300%nat →
  Forall (λ e, ∃ dest, Withdrawal.parse (Withdrawal.address e.2) = inr dest)
    (Withdrawal.pendingWithdrawals (Withdrawal.db p)) →
  QueryId.hasNext (Withdrawal.lastQueryId p) = true →
  Withdrawal.sendBatch (Withdrawal.plannedBatch now p) = None →
  let result := Withdrawal.processBatch now p in
  result.1 = Withdrawal.Returned
  ∧ Withdrawal.sent result.2 = Withdrawal.sent p ++ [Withdrawal.plannedBatch now p]
  ∧ length (Withdrawal.messages (Withdrawal.plannedBatch now p)) = 254%nat
  ∧ Withdrawal.queryId (Withdrawal.plannedBatch now p)
    = QueryId.getNext (Withdrawal.lastQueryId p)
  ∧ Withdrawal.lastQueryId result.2 = QueryId.getNext (Withdrawal.lastQueryId p)
  ∧ Withdrawal.pendingWithdrawals (Withdrawal.db result.2)
    = drop 254 (Withdrawal.pendingWithdrawals (Withdrawal.db p))
  ∧ length (Withdrawal.pendingWithdrawals (Withdrawal.db result.2)) = 46%nat.
Proof.
  intros [Hwf Hkeys] Hlen Hparse Hnext Hsend result.
  assert (length (omap Withdrawal.messageOf
                    (Withdrawal.getPendingWithdrawals Withdrawal.MAX_BATCH_SIZE
                       (Withdrawal.db p))) = 254%nat) as Hmsgs.
  { rewrite omap_messageOf_length.
    - rewrite getPendingWithdrawals_max, length_take. unfold JsMap.values.
      rewrite length_fmap, Hlen. done.
    - rewrite getPendingWithdrawals_max. apply Forall_take.
      unfold JsMap.values. by apply Forall_fmap. }
  unfold result. rewrite processBatch_accepted; try done.
  2:{ intros Hnil. by rewrite Hnil in Hmsgs. }
  simpl. rewrite getPendingWithdrawals_max, delete_fetched by done.
  split_and!; try done.
  rewrite length_drop, Hlen. done.
Qed.

Lemma batch_of_300_submits_254_witness :
  let p : Withdrawal.Processor string QueryId.HighloadQueryId :=
    {| Withdrawal.db := Examples.queue (Examples.requests 0 300 (-1));
       Withdrawal.lastQueryId := QueryId.zero;
       Withdrawal.sent := [] |} in
  let result :=
    Withdrawal.processBatch (H := QueryId.specSequencer 1023)
      (H0 := Examples.acceptingChain _) 1700000000000 p in
  result.1 = Withdrawal.Returned
  ∧ length (Withdrawal.messages
              (Withdrawal.plannedBatch (H := QueryId.specSequencer 1023)
                 (H0 := Examples.acceptingChain _) 1700000000000 p)) = 254%nat
  ∧ Withdrawal.lastQueryId result.2 = QueryId.mkQueryId 0 1
  ∧ length (Withdrawal.pendingWithdrawals (Withdrawal.db result.2)) = 46%nat.
Proof.
  intros p result.
  destruct (batch_of_300_submits_254 (H := QueryId.specSequencer 1023)
              (H0 := Examples.acceptingChain _) 1700000000000 p)
    as (Hres & _ & Hmsgs & _ & Hlast & _ & Hleft).
  - unfold Withdrawal.wfDb, JsMap.wf.
    split; [apply (bool_decide_unpack (NoDup _)) | apply (bool_decide_unpack (Forall _ _))];
      vm_compute; exact I.
  - vm_compute. reflexivity.
  - apply parses_from_messageOf, (bool_decide_unpack (Forall _ _)). vm_compute. exact I.
  - reflexivity.
  - reflexivity.
  - by split_and!.
Defined.

(** C6. A withdrawal whose destination address fails to parse is the only
    one to be marked failed, with the parser's error as reason, and it
    contributes no message; building the batch goes on: the messages are
    those of the requests whose address parses, one each and in order, and
    the other stores are untouched. When the batch is then submitted and
    accepted, it is this list of messages that is sent. *)
Theorem malformed_address_isolated {Address Q : Type}
    `{QueryId.Sequencer Q} `{Withdrawal.Chain Address Q}
    (ws : list Withdrawal.WithdrawalRequest) (d : Withdrawal.WithdrawalDatabase) :
  let built := Withdrawal.createWithdrawalMessages ws d in
  built.1 = omap Withdrawal.messageOf ws
  ∧ Withdrawal.failed built.2 = Withdrawal.failed d ++ omap Withdrawal.failureOf ws
  ∧ Withdrawal.pendingWithdrawals built.2 = Withdrawal.pendingWithdrawals d
  ∧ Withdrawal.processedWithdrawals built.2 = Withdrawal.processedWithdrawals d
  ∧ (∀ w, w ∈ ws →
       match Withdrawal.parse (Withdrawal.address w) with
       | inr dest =>
           Withdrawal.withdrawalMessage w dest ∈ built.1
           ∧ Withdrawal.failureOf w = None
       | inl e =>
           (Withdrawal.withdrawalId w, "Invalid address: " +:+ e) ∈ Withdrawal.failed built.2
           ∧ Withdrawal.messageOf w = None
       end)
  ∧ (∀ now (p : Withdrawal.Processor Address Q),
       ws = Withdrawal.getPendingWithdrawals Withdrawal.MAX_BATCH_SIZE (Withdrawal.db p) →
       built.1 ≠ [] →
       QueryId.hasNext (Withdrawal.lastQueryId p) = true →
       Withdrawal.sendBatch (Withdrawal.plannedBatch now p) = None →
       Withdrawal.messages (Withdrawal.plannedBatch now p) = built.1
       ∧ Withdrawal.sent (Withdrawal.processBatch now p).2
         = Withdrawal.sent p ++ [Withdrawal.plannedBatch now p]).
Proof.
  intros built. unfold built. rewrite createWithdrawalMessages_spec. simpl.
  split_and!; try done.
  - intros w Hin.
    destruct (Withdrawal.parse (Withdrawal.address w)) as [e|dest] eqn:Hparse.
    + split.
      * apply elem_of_app. right. apply list_elem_of_omap. exists w. split; [done|].
        unfold Withdrawal.failureOf. by rewrite Hparse.
      * unfold Withdrawal.messageOf. by rewrite Hparse.
    + split.
      * apply list_elem_of_omap. exists w. split; [done|].
        unfold Withdrawal.messageOf. by rewrite Hparse.
      * unfold Withdrawal.failureOf. by rewrite Hparse.
  - intros now p -> Hmsgs Hnext Hsend. split; [done|].
    by rewrite processBatch_accepted.
Qed.

Lemma malformed_address_isolated_witness :
  let p : Withdrawal.Processor string QueryId.HighloadQueryId :=
    {| Withdrawal.db := Examples.queue (Examples.requests 0 3 1);
       Withdrawal.lastQueryId := QueryId.zero;
       Withdrawal.sent := [] |} in
  let ws := Withdrawal.getPendingWithdrawals Withdrawal.MAX_BATCH_SIZE (Withdrawal.db p) in
  let built :=
    Withdrawal.createWithdrawalMessages (H0 := Examples.acceptingChain QueryId.HighloadQueryId)
      ws (Withdrawal.db p) in
  Withdrawal.bodyText <$> built.1 = ["Withdrawal: wd_0"; "Withdrawal: wd_2"]
  ∧ Withdrawal.failed built.2 = [("wd_1", "Invalid address: Unknown address type")]
  ∧ Withdrawal.messages <$>
      Withdrawal.sent
        (Withdrawal.processBatch (H := QueryId.specSequencer 1023)
           (H0 := Examples.acceptingChain _) 1700000000000 p).2
    = [built.1].
Proof.
  intros p ws built.
  destruct (malformed_address_isolated (H := QueryId.specSequencer 1023)
              (H0 := Examples.acceptingChain _) ws (Withdrawal.db p))
    as (Hmsgs & Hfailed & _ & _ & _ & Hsent).
  destruct (Hsent 1700000000000 p eq_refl) as [Hplanned Hbatch].
  - vm_compute. discriminate.
  - reflexivity.
  - reflexivity.
  - split_and!.
    + fold built in Hmsgs. rewrite Hmsgs. vm_compute. reflexivity.
    + fold built in Hfailed. rewrite Hfailed. vm_compute. reflexivity.
    + rewrite Hbatch. unfold built. rewrite <- Hplanned. reflexivity.
Defined.

(** C10. Whenever a call of [processBatch] sends a batch, every withdrawal
    it fetched from the pending queue is marked completed and is gone from
    the pending map afterwards; this includes each fetched withdrawal whose
    address did not parse, which had no message in the batch and was
    recorded as failed. *)
Theorem sent_batch_completes_all_fetched {Address Q : Type}
    `{QueryId.Sequencer Q} `{Withdrawal.Chain Address Q}
    (now : Z) (p : Withdrawal.Processor Address Q) :
  Withdrawal.wfDb (Withdrawal.db p) →
  Withdrawal.sent (Withdrawal.processBatch now p).2 ≠ Withdrawal.sent p →
  let ws := Withdrawal.getPendingWithdrawals Withdrawal.MAX_BATCH_SIZE (Withdrawal.db p) in
  let after := Withdrawal.db (Withdrawal.processBatch now p).2 in
  Withdrawal.sent (Withdrawal.processBatch now p).2
  = Withdrawal.sent p ++ [Withdrawal.plannedBatch now p]
  ∧ Withdrawal.pendingWithdrawals after
    = drop 254 (Withdrawal.pendingWithdrawals (Withdrawal.db p))
  ∧ ∀ w, w ∈ ws →
      w.(Withdrawal.withdrawalId) ∈ Withdrawal.processedWithdrawals after
      ∧ JsMap.get w.(Withdrawal.withdrawalId) (Withdrawal.pendingWithdrawals after) = None
      ∧ ∀ e, Withdrawal.parse (Withdrawal.address w) = inl e →
          Withdrawal.messageOf w = None
          ∧ (w.(Withdrawal.withdrawalId), "Invalid address: " +:+ e) ∈ Withdrawal.failed after.
Proof.
  intros [Hwf Hkeys] Hsent ws after.
  destruct (processBatch_sent_inv now p Hsent) as (Hmsgs & Hnext & Hsend).
  unfold after. rewrite (processBatch_accepted now p Hmsgs Hnext Hsend). simpl.
  fold ws. split_and!; [done | |].
  - unfold ws. rewrite getPendingWithdrawals_max. by apply delete_fetched.
  - intros w Hin. split_and!.
    + apply elem_of_union_l, elem_of_list_to_set, list_elem_of_fmap. by exists w.
    + by apply get_deleted.
    + intros e Hparse. split.
      * unfold Withdrawal.messageOf. by rewrite Hparse.
      * apply elem_of_app. right. apply list_elem_of_omap. exists w. split; [done|].
        unfold Withdrawal.failureOf. by rewrite Hparse.
Qed.

Lemma sent_batch_completes_all_fetched_witness :
  let p : Withdrawal.Processor string QueryId.HighloadQueryId :=
    {| Withdrawal.db := Examples.queue (Examples.requests 0 3 1);
       Withdrawal.lastQueryId := QueryId.zero;
       Withdrawal.sent := [] |} in
  let after :=
    Withdrawal.db (Withdrawal.processBatch (H := QueryId.specSequencer 1023)
                     (H0 := Examples.acceptingChain _) 1700000000000 p).2 in
  Withdrawal.pendingWithdrawals after = []
  ∧ "wd_1" ∈ Withdrawal.processedWithdrawals after
  ∧ ("wd_1", "Invalid address: Unknown address type") ∈ Withdrawal.failed after.
Proof.
  intros p after.
  destruct (sent_batch_completes_all_fetched (H := QueryId.specSequencer 1023)
              (H0 := Examples.acceptingChain _) 1700000000000 p)
    as (_ & Hpending & Hall).
  - unfold Withdrawal.wfDb, JsMap.wf.
    split; [apply (bool_decide_unpack (NoDup _)) | apply (bool_decide_unpack (Forall _ _))];
      vm_compute; exact I.
  - vm_compute. discriminate.
  - destruct (Hall {| Withdrawal.userId := "user1"; Withdrawal.address := "not-an-address";
                      Withdrawal.amount := 1000000000; Withdrawal.withdrawalId := "wd_1" |})
      as (Hdone & _ & Hfail).
    { apply list_elem_of_lookup. exists 1%nat. reflexivity. }
    destruct (Hfail "Unknown address type" eq_refl) as [_ Hfailed].
    split_and!; [exact Hpending | exact Hdone | exact Hfailed].
Defined.

(** ** Deposit address generator *)

(** The derived constants: the 64 primes end at 311, and the tables start
    and end with the published words. *)
Example sha256_constants :
  length Sha256.primes = 64%nat
  ∧ last Sha256.primes = Some 311
  ∧ take 2 Sha256.K = [0x428a2f98; 0x71374491]
  ∧ last Sha256.K = Some 0xc67178f2
  ∧ take 2 Sha256.H0 = [0x6a09e667; 0xbb67ae85]
  ∧ last Sha256.H0 = Some 0x5be0cd19.
Proof. split_and!; vm_compute; reflexivity. Qed.

(** The digest agrees with the published test vectors of SHA-256 (one-block
    and two-block messages). *)
Example sha256_test_vectors :
  Sha256.digest (Sha256.bytesOf "abc")
  = [0xba7816bf; 0x8f01cfea; 0x414140de; 0x5dae2223;
     0xb00361a3; 0x96177a9c; 0xb410ff61; 0xf20015ad]
  ∧ Sha256.digest
      (Sha256.bytesOf "abcdbcdecdefdefgefghfghighijhijkijkljklmklmnlmnomnopnopq")
    = [0x248d6a61; 0xd20638b8; 0xe5c02693; 0x0c3e6039;
       0xa33ce459; 0x64ff2167; 0xf6ecedd4; 0x19db06c1].
Proof. split; vm_compute; reflexivity. Qed.

Section SearchFacts.
Import AddressGenerator.
Implicit Types (d : AddressMappingDatabase) (g : Generator).

(** The loop stops by itself: within [maxAttempts] iterations it has
    either found an id or given up. *)
Lemma search_terminates fuel :
  ∀ nonce user base d,
    (1 ≤ fuel)%nat →
    maxAttempts - nonce <= Z.of_nat fuel →
    search fuel user base nonce d ≠ OutOfFuel.
Proof.
  induction fuel as [|fuel IH]; intros nonce user base d Hpos Hfuel; [lia|].
  simpl. destruct (maxAttempts <=? nonce + 1) eqn:Hmax; [done|].
  destruct (collides _ d); [|done].
  apply Z.leb_gt in Hmax. apply IH; lia.
Qed.

(** With the fuel [generateDepositAddress] gives it, the loop never runs
    out of fuel: the only failure is the exceeded attempt count. *)
Lemma search_never_out_of_fuel user base d :
  search (Z.to_nat maxAttempts) user base 0 d ≠ OutOfFuel.
Proof. apply search_terminates; unfold maxAttempts; lia. Qed.


Context `{Wallet}.

Lemma generateDepositAddress_existing user g addr :
  getAddressForUser user (db g) = Some addr →
  generateDepositAddress user g = (inr addr, g).
Proof. intros Hget. unfold generateDepositAddress. by rewrite Hget. Qed.

(** A new allocation stores the id the loop settled on. *)
Lemma generateDepositAddress_new user g id :
  getAddressForUser user (db g) = None →
  search (Z.to_nat maxAttempts) user (baseSubwalletId g) 0 (db g) = Found id →
  generateDepositAddress user g
  = (inr (walletAddress id (timeout g)),
     {| db := createUserAddress user (walletAddress id (timeout g)) id (db g);
        baseSubwalletId := baseSubwalletId g;
        timeout := timeout g |}).
Proof. intros Hget Hsearch. unfold generateDepositAddress. by rewrite Hget, Hsearch. Qed.

Lemma getAddressForUser_created user addr id d :
  addr ≠ "" →
  getAddressForUser user (createUserAddress user addr id d) = Some addr.
Proof.
  intros Hne. unfold getAddressForUser, createUserAddress, orNull. simpl.
  rewrite JsMap_get_set_eq. simpl.
  destruct addr; [done | reflexivity].
Qed.
End SearchFacts.

(** C9. When a call of [generateDepositAddress] has returned an address for
    a user, a second call for the same user returns that address again and
    changes nothing: the answer is the entry of the mapping store, and
    neither the stored subwallet id nor anything else is derived or written
    anew. (The wallet wrapper never yields an empty address text.) *)
Theorem repeated_allocation_returns_stored `{AddressGenerator.Wallet}
    (user : string) (g : AddressGenerator.Generator) (addr : string) :
  (∀ id t, AddressGenerator.walletAddress id t ≠ "") →
  let first := AddressGenerator.generateDepositAddress user g in
  first.1 = inr addr →
  AddressGenerator.generateDepositAddress user first.2 = (inr addr, first.2)
  ∧ AddressGenerator.getAddressForUser user (AddressGenerator.db first.2) = Some addr
  ∧ AddressGenerator.allocation user
      (AddressGenerator.generateDepositAddress user first.2).2
    = AddressGenerator.allocation user first.2.
Proof.
  intros Hwallet first Hfirst.
  assert (AddressGenerator.getAddressForUser user (AddressGenerator.db first.2) = Some addr)
    as Hstored.
  { unfold first in *. unfold AddressGenerator.generateDepositAddress in *.
    destruct (AddressGenerator.getAddressForUser user (AddressGenerator.db g))
      as [existing|] eqn:Hget.
    - simpl in *. congruence.
    - destruct (AddressGenerator.search _ user _ 0 _); simpl in *; try done.
      injection Hfirst as <-. by apply getAddressForUser_created. }
  rewrite (generateDepositAddress_existing user first.2 addr Hstored).
  by split_and!.
Qed.

Lemma repeated_allocation_returns_stored_witness :
  let first :=
    AddressGenerator.generateDepositAddress (H := Examples.textWallet)
      "user_alice" Examples.freshGenerator in
  AddressGenerator.generateDepositAddress (H := Examples.textWallet) "user_alice" first.2
  = (inr "wallet:1671500702:3600", first.2)
  ∧ AddressGenerator.allocation "user_alice" first.2
    = Some (1671500702, "wallet:1671500702:3600").
Proof.
  intros first.
  destruct (repeated_allocation_returns_stored (H := Examples.textWallet)
              "user_alice" Examples.freshGenerator "wallet:1671500702:3600")
    as (Hsecond & _ & _).
  - intros id t. simpl. discriminate.
  - vm_compute. reflexivity.
  - split; [exact Hsecond | vm_compute; reflexivity].
Defined.

(** * Further properties *)

(** ** Deposit monitor: what every sequence of steps preserves *)

Section OutcomeFacts.
Import Deposit.
Context `{Collaborators}.
Implicit Types (db : DepositDatabase) (tx : Transaction) (h : string).

(** What [processTransaction] does, with what each outcome tells about the
    transaction. *)
Lemma processTransaction_outcome now tx db :
  processTransaction now tx db = db
  ∨ (isTransactionProcessed (txhash tx) db = false
     ∧ processTransaction now tx db = markTransactionProcessed (txhash tx) db)
  ∨ (isTransactionProcessed (txhash tx) db = false
     ∧ ∃ user src amt,
         Polling.accepts (Observe now tx) now (txhash tx) user src amt
         ∧ user ≠ ""
         ∧ processTransaction now tx db
           = addPendingDeposit
               {| userId := user; transactionHash := txhash tx; amount := amt;
                  sender := src; timestamp := now; confirmations := 0 |} db).
Proof.
  destruct (isTransactionProcessed (txhash tx) db) eqn:Hp.
  { left. by apply processTransaction_processed. }
  destruct (inMessage tx) as [[[src amt| |] msgbody]|] eqn:Hmsg;
    try (left; unfold processTransaction; by rewrite Hp, Hmsg).
  rewrite (processTransaction_internal now tx db msgbody src amt Hp Hmsg).
  destruct (amt <? MIN_DEPOSIT_AMOUNT) eqn:Hamt; [by right; left|].
  destruct (description tx) as [[|]|] eqn:Hdesc; try (by right; left).
  destruct (resolveOwner src (extractComment tx)) as [user|] eqn:Hres; [|by right; left].
  right; right. split; [done|]. exists user, src, amt. split_and!; [|..|done].
  - exists tx, msgbody. split_and!; try done. by apply Z.ltb_ge.
  - intros ->. unfold resolveOwner in Hres. by repeat case_match.
Qed.
End OutcomeFacts.

Section ConsistencyFacts.
Import Deposit.
Implicit Types (db : DepositDatabase) (h : string).

Lemma JsMap_get_delete_None {V : Type} (k h : string) (m : list (string * V)) :
  JsMap.get h m = None → JsMap.get h (JsMap.delete k m) = None.
Proof.
  intros Hnone. destruct (decide (k = h)) as [->|Hne].
  - apply JsMap_get_delete_eq.
  - by rewrite JsMap_get_delete_ne.
Qed.

(** Under the store invariant the hashes of the snapshot are the keys. *)
Lemma snapshot_hashes db :
  wfDb db → transactionHash <$> getPendingDeposits db = JsMap.keys (pendingDeposits db).
Proof.
  intros [_ Hkeys]. unfold getPendingDeposits, JsMap.values, JsMap.keys.
  induction (pendingDeposits db) as [|[k v] m IH]; [done|].
  apply Forall_cons in Hkeys as [Hk Hm]. rewrite !fmap_cons. simpl in Hk.
  f_equal; [done | by apply IH].
Qed.

Lemma consistent_empty : Polling.consistent emptyDb.
Proof.
  split_and!.
  - split; simpl; [apply NoDup_nil_2 | constructor].
  - apply NoDup_nil_2.
  - intros h Hin. by apply elem_of_nil in Hin.
Qed.

Lemma consistent_mark h db :
  Polling.consistent db → Polling.consistent (markTransactionProcessed h db).
Proof.
  intros (Hwf & Hnd & Hset). split_and!; [done | done |].
  intros h' Hin. destruct (Hset h' Hin) as [Hp Hnone]. split; [|done].
  rewrite isTransactionProcessed_mark, Hp. by destruct (bool_decide _).
Qed.

Lemma consistent_addPending d db :
  isTransactionProcessed (transactionHash d) db = false →
  Polling.consistent db → Polling.consistent (addPendingDeposit d db).
Proof.
  intros Hp (Hwf & Hnd & Hset). split_and!; [by apply wfDb_addPendingDeposit | done |].
  intros h Hin. destruct (Hset h Hin) as [Hph Hnone]. split; [done|].
  simpl. rewrite JsMap_get_set_ne; [done|]. intros <-. congruence.
Qed.

(** The confirmation loop over deposits with distinct hashes, none of them
    credited yet. *)
Lemma consistent_confirmAll clock l :
  ∀ i db,
    Polling.consistent db →
    NoDup (transactionHash <$> l) →
    (∀ d, d ∈ l → transactionHash d ∉ Polling.creditedHashes db) →
    Polling.consistent (confirmAll clock i l db).
Proof.
  induction l as [|d l IH]; intros i db Hcons Hnd Hfresh; [done|].
  rewrite fmap_cons in Hnd. apply NoDup_cons in Hnd as [Hd Hnd].
  simpl. unfold confirmDeposit at 1.
  destruct (MIN_CONFIRMATIONS <=? _).
  2:{ apply IH; [done | done |]. intros d' Hin. apply Hfresh. by right. }
  destruct Hcons as (Hwf & Hcred & Hset).
  apply IH; [|done|].
  - split_and!.
    + split; simpl; [apply JsMap_wf_delete | apply Forall_filter_keep]; apply Hwf.
    + unfold Polling.creditedHashes. simpl. rewrite fmap_app. simpl.
      apply NoDup_app. split_and!; [done | | apply NoDup_singleton].
      intros h Hin. rewrite list_elem_of_singleton. intros ->.
      by apply (Hfresh d); [left|].
    + intros h. unfold Polling.creditedHashes. simpl. rewrite fmap_app. simpl.
      rewrite elem_of_app, list_elem_of_singleton. intros [Hin | ->].
      * destruct (Hset h Hin) as [Hp Hnone]. split.
        -- change (isTransactionProcessed h
                     (markTransactionProcessed (transactionHash d) db) = true).
           rewrite isTransactionProcessed_mark, Hp. by destruct (bool_decide _).
        -- by apply JsMap_get_delete_None.
      * split.
        -- change (isTransactionProcessed (transactionHash d)
                     (markTransactionProcessed (transactionHash d) db) = true).
           by rewrite isTransactionProcessed_mark, bool_decide_eq_true_2.
        -- apply JsMap_get_delete_eq.
  - intros d' Hin. unfold Polling.creditedHashes. simpl. rewrite fmap_app. simpl.
    rewrite elem_of_app, list_elem_of_singleton. intros [Hold | Heq].
    + by apply (Hfresh d'); [right|].
    + apply Hd. rewrite <- Heq. apply list_elem_of_fmap. by exists d'.
Qed.

Lemma consistent_processPendingDeposits seqno clock db :
  Polling.consistent db → Polling.consistent (processPendingDeposits seqno clock db).
Proof.
  intros Hcons. pose proof Hcons as (Hwf & Hnd & Hset).
  apply consistent_confirmAll; [done | |].
  - rewrite snapshot_hashes by done. apply Hwf.
  - intros d Hin Hcred. destruct (Hset _ Hcred) as [_ Hnone].
    apply JsMap_get_None in Hnone. apply Hnone.
    rewrite <- snapshot_hashes by done. apply list_elem_of_fmap. by exists d.
Qed.

Context `{Collaborators}.

Lemma consistent_step db s : Polling.consistent db → Polling.consistent (step db s).
Proof.
  intros Hcons. destruct s as [now tx|seqno clock]; simpl.
  - destruct (processTransaction_outcome now tx db)
      as [-> | [[Hp ->] | (Hp & user & src & amt & _ & _ & ->)]];
      [done | by apply consistent_mark | by apply consistent_addPending].
  - by apply consistent_processPendingDeposits.
Qed.

Lemma consistent_steps ss : ∀ db, Polling.consistent db → Polling.consistent (steps ss db).
Proof.
  induction ss as [|s ss IH]; intros db Hcons; [done|].
  unfold steps in *. simpl. by apply IH, consistent_step.
Qed.
End ConsistencyFacts.

(** Whatever transactions are observed, in whatever order and however
    often, and whenever the confirmation step runs: starting from the empty
    database no transaction hash is ever credited twice. *)
Lemma steps_never_credit_twice `{Deposit.Collaborators} (ss : list Deposit.Step) :
  NoDup (Deposit.creditTx <$> Deposit.credited (Deposit.steps ss Deposit.emptyDb)).
Proof.
  by destruct (consistent_steps ss Deposit.emptyDb consistent_empty) as (_ & Hnd & _).
Qed.

(** X2. In every state reached from the empty database a credited
    transaction is marked processed and has no pending record, so observing
    it again changes nothing. *)
Theorem credited_transaction_is_settled `{Deposit.Collaborators}
    (ss : list Deposit.Step) (c : Deposit.Credit) (now : Z) (tx : Deposit.Transaction) :
  c ∈ Deposit.credited (Deposit.steps ss Deposit.emptyDb) →
  Deposit.txhash tx = Deposit.creditTx c →
  let db := Deposit.steps ss Deposit.emptyDb in
  Deposit.isTransactionProcessed (Deposit.creditTx c) db = true
  ∧ JsMap.get (Deposit.creditTx c) (Deposit.pendingDeposits db) = None
  ∧ Deposit.processTransaction now tx db = db.
Proof.
  intros Hin Htx db.
  destruct (consistent_steps ss Deposit.emptyDb consistent_empty) as (_ & _ & Hset).
  destruct (Hset (Deposit.creditTx c)) as [Hp Hnone].
  { apply list_elem_of_fmap. by exists c. }
  split_and!; [done | done |].
  apply processTransaction_processed. by rewrite Htx.
Qed.

Lemma credited_transaction_is_settled_witness :
  let tx := Examples.depositTx "ab01" "EQsender" 2000000000 "DEPOSIT:alice" in
  let db :=
    Deposit.steps (H := Examples.memoryDatabase)
      [Deposit.Observe 0 tx; Deposit.Advance 0 (λ _, 20000)] Deposit.emptyDb in
  Deposit.isTransactionProcessed "ab01" db = true
  ∧ JsMap.get "ab01" (Deposit.pendingDeposits db) = None
  ∧ Deposit.processTransaction (H := Examples.memoryDatabase) 30000 tx db = db.
Proof.
  apply (credited_transaction_is_settled (H := Examples.memoryDatabase)
           [Deposit.Observe 0 (Examples.depositTx "ab01" "EQsender" 2000000000 "DEPOSIT:alice");
            Deposit.Advance 0 (λ _, 20000)]
           (Deposit.mkCredit "alice" 2000000000 "ab01") 30000
           (Examples.depositTx "ab01" "EQsender" 2000000000 "DEPOSIT:alice")).
  - apply list_elem_of_lookup. exists 0%nat. vm_compute. reflexivity.
  - reflexivity.
Defined.

Section BackingFacts.
Import Deposit.
Context `{Collaborators}.
Implicit Types (db : DepositDatabase) (ss : list Step).

Lemma steps_snoc ss s db : steps (ss ++ [s]) db = step (steps ss db) s.
Proof. unfold steps. by rewrite foldl_app. Qed.

Lemma backedDeposit_more ss s d :
  Polling.backedDeposit ss d → Polling.backedDeposit (ss ++ [s]) d.
Proof.
  intros (s0 & Hin & Hacc). exists s0. split; [|done]. apply elem_of_app. by left.
Qed.

Lemma backedCredit_more ss s c :
  Polling.backedCredit ss c → Polling.backedCredit (ss ++ [s]) c.
Proof.
  intros (s0 & now & src & Hin & Hacc). exists s0, now, src.
  split; [|done]. apply elem_of_app. by left.
Qed.

Lemma backedCredit_of_deposit ss d :
  Polling.backedDeposit ss d →
  Polling.backedCredit ss (mkCredit (userId d) (amount d) (transactionHash d)).
Proof.
  intros (s & Hin & Hacc & _). by exists s, (timestamp d), (sender d).
Qed.

(** The entries of a map after [set] are the new one or old ones. *)
Lemma Forall_set {V : Type} (P : string * V → Prop) k v (m : list (string * V)) :
  P (k, v) → Forall P m → Forall P (JsMap.set k v m).
Proof.
  intros Hnew. induction 1 as [|[k' v'] m Hx Hm IH]; simpl.
  - by repeat constructor.
  - destruct (decide (k' = k)); constructor; done.
Qed.

(** The confirmation loop keeps a property of the pending entries and
    extends a property of the credits to the credits it adds. *)
Lemma confirmAll_Forall (P : UserDeposit → Prop) (Q : Credit → Prop) clock l :
  (∀ d, P d → Q (mkCredit (userId d) (amount d) (transactionHash d))) →
  ∀ i db,
    Forall P l →
    Forall (λ e, P e.2) (pendingDeposits db) →
    Forall Q (credited db) →
    Forall (λ e, P e.2) (pendingDeposits (confirmAll clock i l db))
    ∧ Forall Q (credited (confirmAll clock i l db)).
Proof.
  intros HPQ. induction l as [|d l IH]; intros i db Hl Hpend Hcred; [done|].
  apply Forall_cons in Hl as [Hd Hl]. simpl. apply IH; [done | |];
    unfold confirmDeposit; destruct (MIN_CONFIRMATIONS <=? _); try done; simpl.
  - by apply Forall_filter_keep.
  - apply Forall_app. split; [done|]. repeat constructor. by apply HPQ.
Qed.

Lemma backed_steps ss :
  Forall (λ e, Polling.backedDeposit ss e.2) (pendingDeposits (steps ss emptyDb))
  ∧ Forall (Polling.backedCredit ss) (credited (steps ss emptyDb)).
Proof.
  induction ss as [|s ss [IHp IHc]] using rev_ind; [by split; constructor|].
  rewrite steps_snoc.
  assert (Forall (λ e, Polling.backedDeposit (ss ++ [s]) e.2)
            (pendingDeposits (steps ss emptyDb))) as Hp.
  { eapply Forall_impl; [exact IHp|]. intros e. apply backedDeposit_more. }
  assert (Forall (Polling.backedCredit (ss ++ [s])) (credited (steps ss emptyDb))) as Hc.
  { eapply Forall_impl; [exact IHc|]. intros c. apply backedCredit_more. }
  destruct s as [now tx|seqno clock]; simpl.
  - destruct (processTransaction_outcome now tx (steps ss emptyDb))
      as [-> | [[_ ->] | (_ & user & src & amt & Hacc & _ & ->)]]; [done | done |].
    split; [|done]. simpl. apply Forall_set; [|done].
    exists (Observe now tx). split; [|done].
    apply elem_of_app. right. by apply list_elem_of_singleton.
  - apply (confirmAll_Forall (Polling.backedDeposit (ss ++ [Advance seqno clock]))
             (Polling.backedCredit (ss ++ [Advance seqno clock]))); try done.
    + apply backedCredit_of_deposit.
    + unfold getPendingDeposits, JsMap.values. by apply Forall_fmap.
Qed.
End BackingFacts.

(** X3. Every credit applied goes back to an observed transaction that
    passed validation: an internal message of exactly the credited amount,
    at least the minimum deposit, not aborted, whose owner resolves to the
    credited user, observed under the credited hash. *)
Theorem credit_backed_by_accepted_deposit `{Deposit.Collaborators}
    (ss : list Deposit.Step) (c : Deposit.Credit) :
  c ∈ Deposit.credited (Deposit.steps ss Deposit.emptyDb) →
  ∃ now tx msgbody src,
    Deposit.Observe now tx ∈ ss
    ∧ Deposit.txhash tx = Deposit.creditTx c
    ∧ Deposit.inMessage tx
      = Some {| Deposit.info := Deposit.internal src (Deposit.creditAmount c);
                Deposit.body := msgbody |}
    ∧ Deposit.MIN_DEPOSIT_AMOUNT <= Deposit.creditAmount c
    ∧ Deposit.description tx = Deposit.generic false
    ∧ Deposit.resolveOwner src (Deposit.extractComment tx) = Some (Deposit.creditUser c).
Proof.
  intros Hin. destruct (backed_steps ss) as [_ Hcred].
  rewrite Forall_forall in Hcred.
  destruct (Hcred c Hin) as (s & now & src & Hs & tx & msgbody & -> & Hacc).
  exists now, tx, msgbody, src. split; [done | exact Hacc].
Qed.

Lemma credit_backed_by_accepted_deposit_witness :
  ∃ now tx msgbody src,
    Deposit.Observe now tx
      ∈ [Deposit.Observe 0 (Examples.depositTx "ab01" "EQsender" 2000000000 "DEPOSIT:alice");
         Deposit.Advance 0 (λ _, 20000)]
    ∧ Deposit.txhash tx = "ab01"
    ∧ Deposit.inMessage tx
      = Some {| Deposit.info := Deposit.internal src 2000000000; Deposit.body := msgbody |}
    ∧ Deposit.MIN_DEPOSIT_AMOUNT <= 2000000000
    ∧ Deposit.description tx = Deposit.generic false
    ∧ Deposit.resolveOwner (H := Examples.memoryDatabase) src
        (Deposit.extractComment (H := Examples.memoryDatabase) tx) = Some "alice".
Proof.
  apply (credit_backed_by_accepted_deposit (H := Examples.memoryDatabase)
           [Deposit.Observe 0 (Examples.depositTx "ab01" "EQsender" 2000000000 "DEPOSIT:alice");
            Deposit.Advance 0 (λ _, 20000)]
           (Deposit.mkCredit "alice" 2000000000 "ab01")).
  apply list_elem_of_lookup. exists 0%nat. vm_compute. reflexivity.
Defined.

(** ** Deposit monitor: the confirmation threshold *)

Section ThresholdFacts.
Import Deposit.
Implicit Types (db : DepositDatabase) (d : UserDeposit).

Lemma confirmDeposit_early now d db :
  now - timestamp d < 15000 → confirmDeposit now d db = db.
Proof.
  intros Hearly. unfold confirmDeposit.
  assert ((now - timestamp d) / 5000 < MIN_CONFIRMATIONS) as Hlt.
  { apply Z.div_lt_upper_bound; unfold MIN_CONFIRMATIONS; lia. }
  by rewrite (proj2 (Z.leb_gt _ _) Hlt).
Qed.

(** A run in which an outstanding record is still short of the threshold. *)
Lemma recordView_processPending_early seqno clock d db :
  wfDb db →
  JsMap.get (transactionHash d) (pendingDeposits db) = Some d →
  (∀ i, clock i - timestamp d < 15000) →
  recordView (transactionHash d) (processPendingDeposits seqno clock db)
  = recordView (transactionHash d) db.
Proof.
  intros [Hwf Hkeys] Hget Hearly.
  destruct (JsMap_get_Some_split _ _ _ Hget) as (m1 & m2 & Hm & Hn1).
  unfold processPendingDeposits, getPendingDeposits, JsMap.values.
  rewrite Hm in Hwf, Hkeys |- *.
  assert (transactionHash d ∉ JsMap.keys m2) as Hn2.
  { unfold JsMap.wf, JsMap.keys in Hwf. rewrite fmap_app, fmap_cons in Hwf.
    apply NoDup_app in Hwf as (_ & _ & Hnd). by apply NoDup_cons in Hnd as [? _]. }
  apply Forall_app in Hkeys as [Hk1 Hk2]. apply Forall_cons in Hk2 as [_ Hk2].
  rewrite fmap_app, fmap_cons, confirmAll_app. simpl.
  rewrite recordView_confirmAll_other by (by apply entries_other_hash).
  rewrite confirmDeposit_early by done.
  by apply recordView_confirmAll_other, entries_other_hash.
Qed.
End ThresholdFacts.

(** X4. A pending deposit is not touched by a confirmation run that reads
    the clock less than 15000 ms after the deposit's time stamp: no credit
    is applied for it, it is not marked processed and it stays pending with
    the same record. *)
Theorem deposit_waits_for_threshold
    (db : Deposit.DepositDatabase) (d : Deposit.UserDeposit)
    (seqno : Z) (clock : nat → Z) :
  Deposit.wfDb db →
  JsMap.get (Deposit.transactionHash d) (Deposit.pendingDeposits db) = Some d →
  (∀ i, clock i - Deposit.timestamp d < 15000) →
  let after := Deposit.processPendingDeposits seqno clock db in
  Deposit.creditsFor (Deposit.transactionHash d) after
  = Deposit.creditsFor (Deposit.transactionHash d) db
  ∧ Deposit.isTransactionProcessed (Deposit.transactionHash d) after
    = Deposit.isTransactionProcessed (Deposit.transactionHash d) db
  ∧ JsMap.get (Deposit.transactionHash d) (Deposit.pendingDeposits after) = Some d.
Proof.
  intros Hwf Hget Hearly after.
  pose proof (recordView_processPending_early seqno clock d db Hwf Hget Hearly) as Hview.
  unfold Deposit.recordView in Hview. fold after in Hview.
  injection Hview as Hc Hp Hg. by rewrite Hc, Hp, Hg.
Qed.

Lemma deposit_waits_for_threshold_witness :
  let d := Deposit.mkUserDeposit "alice" "ab01" 2000000000 "EQsender" 1000 0 in
  let db := Deposit.addPendingDeposit d Deposit.emptyDb in
  let after := Deposit.processPendingDeposits 7 (λ _, 15999) db in
  Deposit.creditsFor "ab01" after = []
  ∧ Deposit.isTransactionProcessed "ab01" after = false
  ∧ JsMap.get "ab01" (Deposit.pendingDeposits after) = Some d.
Proof.
  apply (deposit_waits_for_threshold
           (Deposit.addPendingDeposit
              (Deposit.mkUserDeposit "alice" "ab01" 2000000000 "EQsender" 1000 0)
              Deposit.emptyDb)
           (Deposit.mkUserDeposit "alice" "ab01" 2000000000 "EQsender" 1000 0)
           7 (λ _, 15999)).
  - split; simpl; [apply NoDup_singleton | by repeat constructor].
  - reflexivity.
  - intros i. simpl. lia.
Defined.

(** ** Deposit monitor: reading the comment *)

Section CommentFacts.
Import Deposit.

Lemma loadUintFrom_spec n :
  ∀ acc bits,
    0 <= acc → (n ≤ length bits)%nat →
    (loadUintFrom acc n bits).2 = drop n bits
    ∧ ((loadUintFrom acc n bits).1 = 0 ↔ acc = 0 ∧ take n bits = replicate n false).
Proof.
  induction n as [|n IH]; intros acc bits Hacc Hlen.
  - destruct bits; simpl; (split; [done|]);
      (split; [intros ->; done | intros [-> _]; done]).
  - destruct bits as [|b rest]; simpl in Hlen; [lia|].
    simpl. destruct (IH (2 * acc + (if b then 1 else 0)) rest) as [Hrest Hzero];
      [destruct b; lia | lia |].
    split; [done|]. rewrite Hzero. destruct b; split.
    + intros [Hb _]. lia.
    + intros [_ [=]].
    + intros [Hb ->]. split; [lia | done].
    + intros [-> [= ->]]. done.
Qed.

Context `{Collaborators}.

Lemma extractComment_spec tx c :
  extractComment tx = Some c
  ↔ ∃ msg bits,
      inMessage tx = Some msg
      ∧ body msg = Some bits
      ∧ (40 ≤ length bits)%nat
      ∧ take 32 bits = replicate 32 false
      ∧ loadStringTail (drop 32 bits) = Some c.
Proof.
  unfold extractComment.
  destruct (inMessage tx) as [msg|]; [|split; [done | by intros (? & ? & [=] & _)]].
  destruct (body msg) as [bits|] eqn:Hbody;
    [|split; [done | intros (? & ? & [= <-] & Hb & _); congruence]].
  destruct (32 <=? Z.of_nat (length bits)) eqn:Hlen.
  2:{ apply Z.leb_gt in Hlen. split; [done|].
      intros (? & bits' & [= <-] & Hb & Hlen' & _).
      assert (bits' = bits) as -> by congruence. lia. }
  apply Z.leb_le in Hlen.
  destruct (loadUintFrom_spec 32 0 bits) as [Hrest Hzero]; [done | lia |].
  unfold loadUint. destruct (loadUintFrom 0 32 bits) as [op rest] eqn:Hload.
  simpl in Hrest, Hzero. subst rest.
  assert (Z.of_nat (length (drop 32 bits)) = Z.of_nat (length bits) - 32) as Hdrop.
  { rewrite length_drop. lia. }
  destruct (op =? 0) eqn:Hop; simpl.
  - apply Z.eqb_eq in Hop. destruct (proj1 Hzero Hop) as [_ Hbits].
    destruct (8 <=? Z.of_nat (length (drop 32 bits))) eqn:Htail.
    + apply Z.leb_le in Htail. split.
      * intros Hc. exists msg, bits. split_and!; try done. lia.
      * intros (? & bits' & [= <-] & Hb & _ & _ & Hc).
        assert (bits' = bits) as -> by congruence. done.
    + apply Z.leb_gt in Htail. split; [done|].
      intros (? & bits' & [= <-] & Hb & Hlen' & _).
      assert (bits' = bits) as -> by congruence. lia.
  - apply Z.eqb_neq in Hop. split; [done|].
    intros (? & bits' & [= <-] & Hb & _ & Hbits & _).
    assert (bits' = bits) as -> by congruence.
    exfalso. apply Hop, Hzero. done.
Qed.
End CommentFacts.

(** X5. [extractComment] yields a comment exactly for a message body of at
    least 40 bits whose first 32 bits (the operation code) are all zero, and
    then it is what the string decoder reads from bit 32 on; a body that is
    shorter, or that carries another operation code, yields no comment. *)
Theorem comment_needs_zero_opcode `{Deposit.Collaborators}
    (tx : Deposit.Transaction) (c : string) :
  Deposit.extractComment tx = Some c
  ↔ ∃ msg bits,
      Deposit.inMessage tx = Some msg
      ∧ Deposit.body msg = Some bits
      ∧ (40 ≤ length bits)%nat
      ∧ take 32 bits = replicate 32 false
      ∧ Deposit.loadStringTail (drop 32 bits) = Some c.
Proof. apply extractComment_spec. Qed.

Section MemoFacts.
Import Deposit.

Lemma substring_whole (s : string) : String.substring 0 (String.length s) s = s.
Proof. induction s as [|a s IH]; [done|]. simpl. by rewrite IH. Qed.

Lemma getUserByMemo_prefixed (user : string) :
  getUserByMemo ("DEPOSIT:" +:+ user) = Some user.
Proof.
  unfold getUserByMemo.
  simpl. change ("" +:+ user) with user.
  rewrite Nat.sub_0_r, substring_whole. by destruct user.
Qed.
End MemoFacts.

(** X6. A memo of the form DEPOSIT:<user> is read back as <user>, whatever
    the user id is; with an unknown sender and a non-empty user id, this is
    the user the deposit is attributed to. *)
Theorem memo_round_trip `{Deposit.Collaborators} (sender user : string) :
  Deposit.getUserByMemo ("DEPOSIT:" +:+ user) = Some user
  ∧ (Deposit.getUserByAddress sender = None →
     user ≠ "" →
     Deposit.resolveOwner sender (Some ("DEPOSIT:" +:+ user)) = Some user).
Proof.
  split; [apply getUserByMemo_prefixed|].
  intros Hnone Hne.
  rewrite <- identifyUser_resolveOwner. unfold Deposit.identifyUser, orNull.
  rewrite Hnone. simpl. rewrite getUserByMemo_prefixed. simpl.
  by destruct user.
Qed.

(** ** Deposit monitor: polling *)

Section MonotoneFacts.
Import Deposit.
Implicit Types (db : DepositDatabase).

Lemma confirmAll_grows clock l :
  ∀ i db,
    processedTxs db ⊆ processedTxs (confirmAll clock i l db)
    ∧ credited db `prefix_of` credited (confirmAll clock i l db).
Proof.
  induction l as [|d l IH]; intros i db; [done|].
  simpl. destruct (IH (S i) (confirmDeposit (clock i) d db)) as [Hp Hc].
  unfold confirmDeposit in *. destruct (MIN_CONFIRMATIONS <=? _); [|done].
  simpl in *. split.
  - etransitivity; [|exact Hp]. apply union_subseteq_r.
  - etransitivity; [|exact Hc]. by apply prefix_app_r.
Qed.

Context `{Collaborators}.

Lemma step_grows db s :
  processedTxs db ⊆ processedTxs (step db s)
  ∧ credited db `prefix_of` credited (step db s).
Proof.
  destruct s as [now tx|seqno clock]; simpl.
  - destruct (processTransaction_cases now tx db) as [-> | [-> | (u & s & a & ->)]];
      simpl; split; try done. apply union_subseteq_r.
  - apply confirmAll_grows.
Qed.

Lemma steps_grow ss :
  ∀ db,
    processedTxs db ⊆ processedTxs (steps ss db)
    ∧ credited db `prefix_of` credited (steps ss db).
Proof.
  induction ss as [|s ss IH]; intros db; [done|].
  unfold steps in *. simpl.
  destruct (step_grows db s) as [Hp Hc]. destruct (IH (step db s)) as [Hp' Hc'].
  split; by etransitivity.
Qed.

(** The loop of a poll over its transactions, as steps. *)
Lemma observeAll_steps clock txs :
  ∀ i db,
    Polling.observeAll clock i txs db
    = steps (imap (λ j tx, Observe (clock (i + j)%nat) tx) txs) db.
Proof.
  induction txs as [|tx txs IH]; intros i db; [done|].
  simpl. rewrite IH. unfold steps. simpl. rewrite Nat.add_0_r.
  erewrite imap_ext; [reflexivity|].
  intros j tx' _. simpl. by rewrite Nat.add_succ_r.
Qed.

Lemma pollTransactions_steps input m :
  Polling.db (Polling.pollTransactions input m)
  = steps (Polling.pollSteps input) (Polling.db m).
Proof.
  unfold Polling.pollTransactions, Polling.pollSteps.
  destruct (Polling.fetched input) as [transactions|]; [|done].
  destruct (length transactions =? 0)%nat; [done|].
  unfold steps. rewrite foldl_app. fold (steps).
  rewrite observeAll_steps.
  by destruct (Polling.masterchainSeqno input).
Qed.

Lemma polls_steps inputs :
  ∀ m, ∃ ss, Polling.db (Polling.polls inputs m) = steps ss (Polling.db m).
Proof.
  induction inputs as [|input inputs IH]; intros m; [by exists []|].
  unfold Polling.polls in *. simpl.
  destruct (IH (Polling.pollTransactions input m)) as [ss Hss].
  exists (Polling.pollSteps input ++ ss).
  rewrite Hss, pollTransactions_steps. unfold steps. by rewrite foldl_app.
Qed.
End MonotoneFacts.

(** X1. Whatever the chain client returns to successive polls of a new
    monitor (the same transactions again, in any order, failures of the
    fetch or of the masterchain query), no transaction hash is credited
    twice. *)
Theorem polling_never_credits_twice `{Deposit.Collaborators}
    (inputs : list Polling.PollInput) :
  NoDup (Deposit.creditTx <$>
           Deposit.credited (Polling.db (Polling.polls inputs Polling.newMonitor))).
Proof.
  destruct (polls_steps inputs Polling.newMonitor) as [ss ->].
  by destruct (consistent_steps ss Deposit.emptyDb consistent_empty) as (_ & Hnd & _).
Qed.

(** X7. No sequence of observations and confirmation runs ever removes a
    hash from the processed set or a credit from the credit log: the
    processed set only grows and the log is only appended to. *)
Theorem processed_and_credits_only_grow `{Deposit.Collaborators}
    (ss : list Deposit.Step) (db : Deposit.DepositDatabase) :
  Deposit.processedTxs db ⊆ Deposit.processedTxs (Deposit.steps ss db)
  ∧ Deposit.credited db `prefix_of` Deposit.credited (Deposit.steps ss db).
Proof. apply steps_grow. Qed.

Section RedeliveryFacts.
Import Deposit.
Context `{Collaborators}.
Variables (tx : Transaction) (msgbody : option (list bool)) (src user : string) (amt : Z).
Hypothesis Hmsg : inMessage tx = Some {| info := internal src amt; body := msgbody |}.
Hypothesis Hamt : MIN_DEPOSIT_AMOUNT <= amt.
Hypothesis Hdesc : description tx = generic false.
Hypothesis Hres : resolveOwner src (extractComment tx) = Some user.

(** The pending record an observation of [tx] at clock reading [now] writes. *)
Local Abbreviation pendingRecord now :=
  {| userId := user; transactionHash := txhash tx; amount := amt;
     sender := src; timestamp := now; confirmations := 0 |}.

Lemma processTransaction_valid now db :
  isTransactionProcessed (txhash tx) db = false →
  processTransaction now tx db = addPendingDeposit (pendingRecord now) db.
Proof.
  intros Hp. rewrite (processTransaction_internal now tx db msgbody src amt Hp Hmsg).
  by rewrite (proj2 (Z.ltb_ge _ _) Hamt), Hdesc, Hres.
Qed.

Lemma observeAll_rewrites clock l :
  ∀ i db,
    Forall (λ t, txhash t = txhash tx → t = tx) l →
    wfDb db →
    isTransactionProcessed (txhash tx) db = false →
    wfDb (Polling.observeAll clock i l db)
    ∧ isTransactionProcessed (txhash tx) (Polling.observeAll clock i l db) = false
    ∧ creditsFor (txhash tx) (Polling.observeAll clock i l db) = creditsFor (txhash tx) db
    ∧ (tx ∈ l ∨ (∃ j, JsMap.get (txhash tx) (pendingDeposits db) = Some (pendingRecord (clock j)))
       → ∃ j, JsMap.get (txhash tx) (pendingDeposits (Polling.observeAll clock i l db))
              = Some (pendingRecord (clock j))).
Proof.
  induction l as [|t l IH]; intros i db Hall Hwf Hp.
  - simpl. split_and!; try done. intros [Hin|Hex]; [by apply elem_of_nil in Hin | done].
  - apply Forall_cons in Hall as [Ht Hall]. simpl.
    destruct (decide (txhash t = txhash tx)) as [Heq|Hne].
    + rewrite (Ht Heq), (processTransaction_valid (clock i) db Hp).
      destruct (IH (S i) (addPendingDeposit (pendingRecord (clock i)) db) Hall)
        as (Hwf' & Hp' & Hc' & Hget'); [by apply wfDb_addPendingDeposit | done |].
      split_and!; try done. intros _. apply Hget'. right. exists i.
      simpl. apply JsMap_get_set_eq.
    + pose proof (recordView_processTransaction_other (txhash tx) (clock i) t db Hne) as Hview.
      unfold recordView in Hview. injection Hview as Hc1 Hp1 Hg1.
      destruct (IH (S i) (processTransaction (clock i) t db) Hall)
        as (Hwf' & Hp' & Hc' & Hget'); [by apply wfDb_processTransaction | congruence |].
      split_and!; [done | done | congruence |].
      intros [Hin|Hex]; apply Hget'.
      * apply elem_of_cons in Hin as [->|Hin]; [done | by left].
      * right. by rewrite Hg1.
Qed.

Lemma pollTransactions_redelivered input m :
  Polling.redelivers tx input →
  wfDb (Polling.db m) →
  isTransactionProcessed (txhash tx) (Polling.db m) = false →
  wfDb (Polling.db (Polling.pollTransactions input m))
  ∧ isTransactionProcessed (txhash tx) (Polling.db (Polling.pollTransactions input m)) = false
  ∧ creditsFor (txhash tx) (Polling.db (Polling.pollTransactions input m))
    = creditsFor (txhash tx) (Polling.db m).
Proof.
  intros (transactions & Hfetch & Hin & Hall & Hclock) Hwf Hp.
  unfold Polling.pollTransactions. rewrite Hfetch.
  destruct (length transactions =? 0)%nat eqn:Hlen.
  { apply Nat.eqb_eq, nil_length_inv in Hlen. subst. by apply elem_of_nil in Hin. }
  destruct (observeAll_rewrites (Polling.observedAt input) ((reverse transactions).*2)
              0%nat (Polling.db m)) as (Hwf' & Hp' & Hc' & Hget'); [|done|done|].
  { rewrite fmap_reverse. by apply Forall_reverse. }
  destruct Hget' as [j Hget'].
  { left. rewrite fmap_reverse. by apply elem_of_reverse. }
  destruct (Polling.masterchainSeqno input) as [seqno|]; simpl; [|done].
  assert (∀ i, Polling.confirmClock input i
               - timestamp (pendingRecord (Polling.observedAt input j)) < 15000) as Hearly.
  { intros i. apply Hclock. }
  pose proof (recordView_processPending_early seqno (Polling.confirmClock input)
                (pendingRecord (Polling.observedAt input j)) _ Hwf' Hget' Hearly) as Hview.
  unfold recordView in Hview. simpl in Hview. injection Hview as Hc Hpp _.
  split_and!; [by apply wfDb_processPendingDeposits | congruence | congruence].
Qed.

Lemma polls_redelivered inputs :
  ∀ m,
    Forall (Polling.redelivers tx) inputs →
    wfDb (Polling.db m) →
    isTransactionProcessed (txhash tx) (Polling.db m) = false →
    creditsFor (txhash tx) (Polling.db (Polling.polls inputs m))
    = creditsFor (txhash tx) (Polling.db m)
    ∧ isTransactionProcessed (txhash tx) (Polling.db (Polling.polls inputs m)) = false.
Proof.
  induction inputs as [|input inputs IH]; intros m Hall Hwf Hp; [done|].
  apply Forall_cons in Hall as [Hin Hall]. unfold Polling.polls in *. simpl.
  destruct (pollTransactions_redelivered input m Hin Hwf Hp) as (Hwf' & Hp' & Hc').
  destruct (IH _ Hall Hwf' Hp') as [Hc'' Hp'']. split; congruence.
Qed.
End RedeliveryFacts.

(** X8. A valid deposit that the chain client delivers again in every poll
    is never credited as long as every poll runs its confirmation loop less
    than 15000 ms after its observations: each poll writes the pending
    record anew with the current time stamp before the confirmation loop
    looks at it. *)
Theorem redelivered_deposit_never_confirms `{Deposit.Collaborators}
    (tx : Deposit.Transaction) (msgbody : option (list bool)) (src user : string) (amt : Z)
    (inputs : list Polling.PollInput) (m : Polling.DepositMonitor) :
  Deposit.inMessage tx
    = Some {| Deposit.info := Deposit.internal src amt; Deposit.body := msgbody |} →
  Deposit.MIN_DEPOSIT_AMOUNT <= amt →
  Deposit.description tx = Deposit.generic false →
  Deposit.resolveOwner src (Deposit.extractComment tx) = Some user →
  Deposit.wfDb (Polling.db m) →
  Deposit.isTransactionProcessed (Deposit.txhash tx) (Polling.db m) = false →
  Forall (Polling.redelivers tx) inputs →
  let final := Polling.polls inputs m in
  Deposit.creditsFor (Deposit.txhash tx) (Polling.db final)
  = Deposit.creditsFor (Deposit.txhash tx) (Polling.db m)
  ∧ Deposit.isTransactionProcessed (Deposit.txhash tx) (Polling.db final) = false.
Proof.
  intros Hmsg Hamt Hdesc Hres Hwf Hp Hall final.
  by apply (polls_redelivered tx msgbody src user amt Hmsg Hamt Hdesc Hres).
Qed.

Lemma redelivered_deposit_never_confirms_witness :
  let tx := Examples.depositTx "ab01" "EQsender" 2000000000 "DEPOSIT:alice" in
  let poll (t : Z) :=
    {| Polling.fetched := Some [(47 : Z, tx)];
       Polling.observedAt := λ _, t;
       Polling.masterchainSeqno := Some 1;
       Polling.confirmClock := λ _, t + 100 |} in
  let final :=
    Polling.polls (H := Examples.memoryDatabase)
      [poll 0; poll 10000; poll 20000; poll 30000] Polling.newMonitor in
  Deposit.creditsFor "ab01" (Polling.db final) = []
  ∧ Deposit.isTransactionProcessed "ab01" (Polling.db final) = false.
Proof.
  intros tx poll.
  apply (redelivered_deposit_never_confirms (H := Examples.memoryDatabase)
           tx (Some (Examples.commentBody "DEPOSIT:alice")) "EQsender" "alice" 2000000000
           [poll 0; poll 10000; poll 20000; poll 30000] Polling.newMonitor).
  - reflexivity.
  - vm_compute. discriminate.
  - reflexivity.
  - vm_compute. reflexivity.
  - split; simpl; [apply NoDup_nil_2 | constructor].
  - reflexivity.
  - repeat (apply Forall_cons; split;
            [exists [(47 : Z, tx)]; split_and!;
               [reflexivity
               | by apply list_elem_of_singleton
               | by repeat constructor
               | intros i j; simpl; lia]|]).
    constructor.
Defined.

(** ** Batch withdrawal processor: every way a call can end *)

Section OutcomeFacts.
Import QueryId Withdrawal.
Context {Address Q : Type} `{Sequencer Q} `{Chain Address Q}.
Implicit Types (d : WithdrawalDatabase) (p : Processor Address Q).

(** The stores once the fetched requests are marked as processing and
    their messages are built. *)
Local Abbreviation attempted p :=
  {| pendingWithdrawals := pendingWithdrawals (db p);
     processedWithdrawals := processedWithdrawals (db p);
     processing :=
       processing (db p) ++ (withdrawalId <$> getPendingWithdrawals MAX_BATCH_SIZE (db p));
     failed :=
       failed (db p) ++ omap failureOf (getPendingWithdrawals MAX_BATCH_SIZE (db p)) |}.

(** The five ways through [processBatch]. *)
Lemma processBatch_outcome now p :
  let ws := getPendingWithdrawals MAX_BATCH_SIZE (db p) in
  (ws = [] ∧ processBatch now p = (Returned, p))
  ∨ (ws ≠ [] ∧ omap messageOf ws = []
     ∧ processBatch now p
       = (Returned, {| db := attempted p; lastQueryId := lastQueryId p; sent := sent p |}))
  ∨ (omap messageOf ws ≠ [] ∧ hasNext (lastQueryId p) = false
     ∧ processBatch now p
       = (Threw "Query ID exhausted. Wait for timeout period to reset.",
          {| db := attempted p; lastQueryId := lastQueryId p; sent := sent p |}))
  ∨ (omap messageOf ws ≠ [] ∧ hasNext (lastQueryId p) = true
     ∧ ∃ e, sendBatch (plannedBatch now p) = Some e
       ∧ processBatch now p
         = (Threw e,
            {| db := attempted p; lastQueryId := getNext (lastQueryId p); sent := sent p |}))
  ∨ (omap messageOf ws ≠ [] ∧ hasNext (lastQueryId p) = true
     ∧ sendBatch (plannedBatch now p) = None
     ∧ processBatch now p
       = (Returned,
          {| db :=
               {| pendingWithdrawals :=
                    foldl (λ m w, JsMap.delete (withdrawalId w) m)
                      (pendingWithdrawals (db p)) ws;
                  processedWithdrawals :=
                    list_to_set (withdrawalId <$> ws) ∪ processedWithdrawals (db p);
                  processing := processing (db p) ++ (withdrawalId <$> ws);
                  failed := failed (db p) ++ omap failureOf ws |};
             lastQueryId := getNext (lastQueryId p);
             sent := sent p ++ [plannedBatch now p] |})).
Proof.
  intros ws.
  destruct (decide (omap messageOf ws = [])) as [Hnone|Hsome].
  - destruct (decide (ws = [])) as [Hempty|Hfetched].
    + left. split; [done|]. unfold processBatch. fold ws. by rewrite Hempty.
    + right; left. split_and!; [done..|].
      unfold processBatch. fold ws.
      destruct (length ws =? 0)%nat eqn:Hlen.
      { by apply Nat.eqb_eq, nil_length_inv in Hlen. }
      rewrite markProcessing_fold, createWithdrawalMessages_spec. cbn iota beta.
      by rewrite Hnone.
  - right; right.
    destruct (hasNext (lastQueryId p)) eqn:Hnext.
    + right.
      destruct (sendBatch (plannedBatch now p)) as [e|] eqn:Hsend.
      * left. split_and!; [done..|]. exists e. split; [done|].
        unfold processBatch. fold ws.
        destruct (length ws =? 0)%nat eqn:Hlen.
        { apply Nat.eqb_eq, nil_length_inv in Hlen. by rewrite Hlen in Hsome. }
        rewrite markProcessing_fold, createWithdrawalMessages_spec. cbn iota beta.
        destruct (length (omap messageOf ws) =? 0)%nat eqn:Hlen'.
        { by apply Nat.eqb_eq, nil_length_inv in Hlen'. }
        unfold getNextQueryId. cbn [lastQueryId db sent]. rewrite Hnext.
        change {| messages := omap messageOf ws; subwalletId := SUBWALLET_ID;
                  queryId := getNext (lastQueryId p); timeout := TIMEOUT;
                  createdAt := now / 1000 |} with (plannedBatch now p).
        by rewrite Hsend.
      * right. split_and!; [done..|]. by apply processBatch_accepted.
    + left. split_and!; [done..|].
      unfold processBatch. fold ws.
      destruct (length ws =? 0)%nat eqn:Hlen.
      { apply Nat.eqb_eq, nil_length_inv in Hlen. by rewrite Hlen in Hsome. }
      rewrite markProcessing_fold, createWithdrawalMessages_spec. cbn iota beta.
      destruct (length (omap messageOf ws) =? 0)%nat eqn:Hlen'.
      { by apply Nat.eqb_eq, nil_length_inv in Hlen'. }
      unfold getNextQueryId. cbn [lastQueryId db sent]. by rewrite Hnext.
Qed.

(** Whatever a call does, the pending map either stays as it is or loses
    the fetched requests, and the completed set either stays or gains them. *)
Lemma processBatch_stores now p :
  let ws := getPendingWithdrawals MAX_BATCH_SIZE (db p) in
  let result := (processBatch now p).2 in
  (pendingWithdrawals (db result) = pendingWithdrawals (db p)
   ∧ processedWithdrawals (db result) = processedWithdrawals (db p)
   ∧ sent result = sent p)
  ∨ (omap messageOf ws ≠ []
     ∧ pendingWithdrawals (db result)
       = foldl (λ m w, JsMap.delete (withdrawalId w) m) (pendingWithdrawals (db p)) ws
     ∧ processedWithdrawals (db result)
       = list_to_set (withdrawalId <$> ws) ∪ processedWithdrawals (db p)
     ∧ lastQueryId result = getNext (lastQueryId p)
     ∧ hasNext (lastQueryId p) = true
     ∧ sent result = sent p ++ [plannedBatch now p]).
Proof.
  intros ws result. subst result.
  destruct (processBatch_outcome now p)
    as [[_ ->]|[(_ & _ & ->)|[(_ & _ & ->)|[(_ & _ & e & _ & ->)|(Hsome & Hnext & _ & ->)]]]];
    [by left..|].
  right. by split_and!.
Qed.

(** The last query id either stays or moves to its successor, which was
    available. *)
Lemma processBatch_lastQueryId now p :
  lastQueryId (processBatch now p).2 = lastQueryId p
  ∨ (hasNext (lastQueryId p) = true
     ∧ lastQueryId (processBatch now p).2 = getNext (lastQueryId p)).
Proof.
  destruct (processBatch_outcome now p)
    as [[_ ->]|[(_ & _ & ->)|[(_ & _ & ->)|[(_ & Hn & e & _ & ->)|(_ & Hn & _ & ->)]]]];
    [by left..| by right | by right].
Qed.
End OutcomeFacts.

(** X9. When none of the fetched withdrawals yields a message (nothing is
    pending, or every fetched address fails to parse), [processBatch]
    returns normally without taking a query id and without calling the
    wallet: the last query id, the accepted batches, the pending map and the
    completed set are unchanged, and one failure is recorded per fetched
    request. With nothing pending the processor is unchanged altogether. *)
Theorem nothing_to_send_takes_no_query_id {Address Q : Type}
    `{QueryId.Sequencer Q} `{Withdrawal.Chain Address Q}
    (now : Z) (p : Withdrawal.Processor Address Q) :
  omap Withdrawal.messageOf
    (Withdrawal.getPendingWithdrawals Withdrawal.MAX_BATCH_SIZE (Withdrawal.db p)) = [] →
  let ws := Withdrawal.getPendingWithdrawals Withdrawal.MAX_BATCH_SIZE (Withdrawal.db p) in
  let result := Withdrawal.processBatch now p in
  result.1 = Withdrawal.Returned
  ∧ Withdrawal.lastQueryId result.2 = Withdrawal.lastQueryId p
  ∧ Withdrawal.sent result.2 = Withdrawal.sent p
  ∧ Withdrawal.pendingWithdrawals (Withdrawal.db result.2)
    = Withdrawal.pendingWithdrawals (Withdrawal.db p)
  ∧ Withdrawal.processedWithdrawals (Withdrawal.db result.2)
    = Withdrawal.processedWithdrawals (Withdrawal.db p)
  ∧ Withdrawal.failed (Withdrawal.db result.2)
    = Withdrawal.failed (Withdrawal.db p) ++ omap Withdrawal.failureOf ws
  ∧ length (omap Withdrawal.failureOf ws) = length ws
  ∧ (Withdrawal.pendingWithdrawals (Withdrawal.db p) = [] → result.2 = p).
Proof.
  intros Hnone ws result.
  assert (Hfail : length (omap Withdrawal.failureOf ws) = length ws).
  { fold ws in Hnone. clearbody ws. clear result.
    induction ws as [|w ws IH]; [done|].
    change (omap Withdrawal.messageOf (w :: ws))
      with (match Withdrawal.messageOf w with
            | Some m => m :: omap Withdrawal.messageOf ws
            | None => omap Withdrawal.messageOf ws
            end) in Hnone.
    change (omap Withdrawal.failureOf (w :: ws))
      with (match Withdrawal.failureOf w with
            | Some m => m :: omap Withdrawal.failureOf ws
            | None => omap Withdrawal.failureOf ws
            end).
    unfold Withdrawal.messageOf in Hnone at 1. unfold Withdrawal.failureOf at 1.
    destruct (Withdrawal.parse (Withdrawal.address w)); [|done].
    cbn [length]. f_equal. by apply IH. }
  subst result.
  destruct (processBatch_outcome now p)
    as [[Hws ->]|[(Hne & _ & ->)|[(Hsome & _)|[(Hsome & _)|(Hsome & _)]]]];
    try (exfalso; by apply Hsome).
  - cbn [fst snd]. fold ws in Hws. rewrite Hws in *. simpl.
    rewrite app_nil_r. by split_and!.
  - cbn [fst snd Withdrawal.db Withdrawal.lastQueryId Withdrawal.sent
         Withdrawal.pendingWithdrawals Withdrawal.processedWithdrawals Withdrawal.failed].
    split_and!; try done.
    intros Hempty. exfalso. apply Hne.
    unfold Withdrawal.getPendingWithdrawals. by rewrite Hempty.
Qed.

Lemma nothing_to_send_takes_no_query_id_witness :
  let p : Withdrawal.Processor string Z :=
    {| Withdrawal.db := Examples.queue (Examples.requests 5 1 5);
       Withdrawal.lastQueryId := 7;
       Withdrawal.sent := [] |} in
  let result :=
    Withdrawal.processBatch (H := MoreExamples.counterSequencer)
      (H0 := Examples.acceptingChain _) 1700000000000 p in
  result.1 = Withdrawal.Returned
  ∧ Withdrawal.lastQueryId result.2 = 7
  ∧ Withdrawal.sent result.2 = []
  ∧ JsMap.keys (Withdrawal.pendingWithdrawals (Withdrawal.db result.2)) = ["wd_5"]
  ∧ Withdrawal.failed (Withdrawal.db result.2)
    = [("wd_5", "Invalid address: Unknown address type")].
Proof.
  intros p result.
  destruct (nothing_to_send_takes_no_query_id (H := MoreExamples.counterSequencer)
              (H0 := Examples.acceptingChain _) 1700000000000 p)
    as (Hres & Hlast & Hsent & Hpending & _ & Hfailed & _).
  - vm_compute. reflexivity.
  - fold result in Hres, Hlast, Hsent, Hpending, Hfailed.
    split_and!; [done | by rewrite Hlast | by rewrite Hsent
                 | rewrite Hpending; vm_compute; reflexivity
                 | rewrite Hfailed; vm_compute; reflexivity].
Defined.

(** X10. When the fetched withdrawals yield at least one message but the
    sequencer has no next id, [processBatch] throws the exhaustion error
    before anything is sent: the wallet is not called, the last query id,
    the pending map and the completed set are unchanged (the fetched
    requests have only been marked as processing), and every later call
    fails in the same way for as long as the processor is not replaced. *)
Theorem exhausted_sequencer_blocks_batches {Address Q : Type}
    `{QueryId.Sequencer Q} `{Withdrawal.Chain Address Q}
    (now : Z) (p : Withdrawal.Processor Address Q) :
  omap Withdrawal.messageOf
    (Withdrawal.getPendingWithdrawals Withdrawal.MAX_BATCH_SIZE (Withdrawal.db p)) ≠ [] →
  QueryId.hasNext (Withdrawal.lastQueryId p) = false →
  let ws := Withdrawal.getPendingWithdrawals Withdrawal.MAX_BATCH_SIZE (Withdrawal.db p) in
  let result := Withdrawal.processBatch now p in
  result.1 = Withdrawal.Threw "Query ID exhausted. Wait for timeout period to reset."
  ∧ Withdrawal.lastQueryId result.2 = Withdrawal.lastQueryId p
  ∧ Withdrawal.sent result.2 = Withdrawal.sent p
  ∧ Withdrawal.pendingWithdrawals (Withdrawal.db result.2)
    = Withdrawal.pendingWithdrawals (Withdrawal.db p)
  ∧ Withdrawal.processedWithdrawals (Withdrawal.db result.2)
    = Withdrawal.processedWithdrawals (Withdrawal.db p)
  ∧ Withdrawal.processing (Withdrawal.db result.2)
    = Withdrawal.processing (Withdrawal.db p) ++ (Withdrawal.withdrawalId <$> ws)
  ∧ ∀ later,
      (Withdrawal.processBatch later result.2).1
      = Withdrawal.Threw "Query ID exhausted. Wait for timeout period to reset.".
Proof.
  intros Hsome Hnext ws result. subst result.
  destruct (processBatch_outcome now p)
    as [[Hws _]|[(_ & Hnone & _)|[(_ & _ & Heq)|[(_ & Hn & _)|(_ & Hn & _)]]]].
  - exfalso. apply Hsome. by rewrite Hws.
  - by exfalso.
  - rewrite Heq. cbn [fst snd Withdrawal.db Withdrawal.lastQueryId Withdrawal.sent
      Withdrawal.pendingWithdrawals Withdrawal.processedWithdrawals Withdrawal.processing].
    split_and!; try done.
    intros later.
    match goal with |- (Withdrawal.processBatch later ?q).1 = _ => set (p1 := q) end.
    assert (Hsame : Withdrawal.getPendingWithdrawals Withdrawal.MAX_BATCH_SIZE
                      (Withdrawal.db p1) = ws) by reflexivity.
    destruct (processBatch_outcome later p1)
      as [[Hws _]|[(_ & Hnone & _)|[(_ & _ & ->)|[(_ & Hn & _)|(_ & Hn & _)]]]].
    + exfalso. apply Hsome. rewrite Hsame in Hws. fold ws. by rewrite Hws.
    + exfalso. apply Hsome. rewrite Hsame in Hnone. done.
    + done.
    + exfalso. simpl in Hn. congruence.
    + exfalso. simpl in Hn. congruence.
  - congruence.
  - congruence.
Qed.

Lemma exhausted_sequencer_blocks_batches_witness :
  let p : Withdrawal.Processor string Z :=
    {| Withdrawal.db := Examples.queue (Examples.requests 0 2 (-1));
       Withdrawal.lastQueryId := QueryId.CEILING;
       Withdrawal.sent := [] |} in
  let result :=
    Withdrawal.processBatch (H := MoreExamples.counterSequencer)
      (H0 := Examples.acceptingChain _) 1700000000000 p in
  result.1 = Withdrawal.Threw "Query ID exhausted. Wait for timeout period to reset."
  ∧ Withdrawal.sent result.2 = []
  ∧ JsMap.keys (Withdrawal.pendingWithdrawals (Withdrawal.db result.2)) = ["wd_0"; "wd_1"]
  ∧ Withdrawal.processing (Withdrawal.db result.2) = ["wd_0"; "wd_1"].
Proof.
  intros p result.
  destruct (exhausted_sequencer_blocks_batches (H := MoreExamples.counterSequencer)
              (H0 := Examples.acceptingChain _) 1700000000000 p)
    as (Hres & _ & Hsent & Hpending & _ & Hprocessing & _).
  - vm_compute. discriminate.
  - vm_compute. reflexivity.
  - fold result in Hres, Hsent, Hpending, Hprocessing.
    split_and!; [done | by rewrite Hsent
                 | rewrite Hpending; vm_compute; reflexivity
                 | rewrite Hprocessing; vm_compute; reflexivity].
Defined.

(** X11. When the wallet throws while a batch is being sent, [processBatch]
    passes the error on; no withdrawal is completed or removed and no batch
    is recorded as sent, but the query id taken for the batch stays
    consumed. The next call therefore builds the same messages again and
    submits them under the following query id. *)
Theorem refused_batch_is_retried_under_next_id {Address Q : Type}
    `{QueryId.Sequencer Q} `{Withdrawal.Chain Address Q}
    (now later : Z) (p : Withdrawal.Processor Address Q) (e : string) :
  omap Withdrawal.messageOf
    (Withdrawal.getPendingWithdrawals Withdrawal.MAX_BATCH_SIZE (Withdrawal.db p)) ≠ [] →
  QueryId.hasNext (Withdrawal.lastQueryId p) = true →
  Withdrawal.sendBatch (Withdrawal.plannedBatch now p) = Some e →
  let result := Withdrawal.processBatch now p in
  result.1 = Withdrawal.Threw e
  ∧ Withdrawal.sent result.2 = Withdrawal.sent p
  ∧ Withdrawal.pendingWithdrawals (Withdrawal.db result.2)
    = Withdrawal.pendingWithdrawals (Withdrawal.db p)
  ∧ Withdrawal.processedWithdrawals (Withdrawal.db result.2)
    = Withdrawal.processedWithdrawals (Withdrawal.db p)
  ∧ Withdrawal.lastQueryId result.2 = QueryId.getNext (Withdrawal.lastQueryId p)
  ∧ Withdrawal.plannedBatch later result.2
    = {| Withdrawal.messages := Withdrawal.messages (Withdrawal.plannedBatch now p);
         Withdrawal.subwalletId := Withdrawal.SUBWALLET_ID;
         Withdrawal.queryId := QueryId.getNext (QueryId.getNext (Withdrawal.lastQueryId p));
         Withdrawal.timeout := Withdrawal.TIMEOUT;
         Withdrawal.createdAt := later / 1000 |}.
Proof.
  intros Hsome Hnext Hsend result. subst result.
  destruct (processBatch_outcome now p)
    as [[Hws _]|[(_ & Hnone & _)|[(_ & Hn & _)|[(_ & _ & e' & He' & Heq)|(_ & _ & Hs & _)]]]].
  - exfalso. apply Hsome. by rewrite Hws.
  - by exfalso.
  - congruence.
  - assert (e' = e) as -> by congruence.
    rewrite Heq. by split_and!.
  - congruence.
Qed.

Lemma refused_batch_is_retried_under_next_id_witness :
  let p : Withdrawal.Processor string Z :=
    {| Withdrawal.db := Examples.queue (Examples.requests 0 2 (-1));
       Withdrawal.lastQueryId := 0;
       Withdrawal.sent := [] |} in
  let result :=
    Withdrawal.processBatch (H := MoreExamples.counterSequencer)
      (H0 := MoreExamples.refusingChain _) 1700000000000 p in
  result.1 = Withdrawal.Threw "network error"
  ∧ Withdrawal.sent result.2 = []
  ∧ Withdrawal.lastQueryId result.2 = 1
  ∧ Withdrawal.queryId
      (Withdrawal.plannedBatch (H := MoreExamples.counterSequencer)
         (H0 := MoreExamples.refusingChain _) 1700000060000 result.2) = 2.
Proof.
  intros p result.
  destruct (refused_batch_is_retried_under_next_id (H := MoreExamples.counterSequencer)
              (H0 := MoreExamples.refusingChain _) 1700000000000 1700000060000 p
              "network error")
    as (Hres & Hsent & _ & _ & Hlast & Hplanned).
  - vm_compute. discriminate.
  - reflexivity.
  - reflexivity.
  - fold result in Hres, Hsent, Hlast, Hplanned.
    split_and!; [done | by rewrite Hsent | by rewrite Hlast | by rewrite Hplanned].
Defined.

(** ** Batch withdrawal processor: sequences of calls *)

Section RunFacts.
Import QueryId Withdrawal Batches.
Context {Address Q : Type} `{Sequencer Q} `{Chain Address Q}.
Implicit Types (d : WithdrawalDatabase) (p : Processor Address Q) (ops : list Op).

Lemma omap_length_le {A B : Type} (f : A → option B) (l : list A) :
  (length (omap f l) <= length l)%nat.
Proof.
  induction l as [|x l IH]; [done|].
  change (omap f (x :: l)) with (match f x with Some y => y :: omap f l | None => omap f l end).
  destruct (f x); simpl; lia.
Qed.

Lemma run_snoc ops op p : run (ops ++ [op]) p = apply (run ops p) op.
Proof. unfold run. by rewrite foldl_app. Qed.

Lemma queued_snoc_add ops r : queued (ops ++ [AddWithdrawal r]) = queued ops ++ [r].
Proof. unfold queued. by rewrite omap_app. Qed.

Lemma queued_snoc_process ops now : queued (ops ++ [ProcessBatch now]) = queued ops.
Proof. unfold queued. rewrite omap_app. simpl. by rewrite app_nil_r. Qed.

Lemma wfDb_addTestWithdrawal r d : wfDb d → wfDb (addTestWithdrawal r d).
Proof.
  intros [Hwf Hkeys]. split; simpl.
  - by apply JsMap_wf_set.
  - by apply Forall_set.
Qed.

Lemma wfDb_deletes (m : list (string * WithdrawalRequest)) ws :
  JsMap.wf m ∧ Forall (λ e, withdrawalId e.2 = e.1) m →
  let m' := foldl (λ m w, JsMap.delete (withdrawalId w) m) m ws in
  JsMap.wf m' ∧ Forall (λ e, withdrawalId e.2 = e.1) m'.
Proof.
  revert m. induction ws as [|w ws IH]; intros m [Hwf Hkeys]; [done|].
  simpl. apply IH. split.
  - by apply JsMap_wf_delete.
  - by apply Forall_filter_keep.
Qed.

Lemma wfDb_processBatch now p : wfDb (db p) → wfDb (db (processBatch now p).2).
Proof.
  intros Hwf. unfold wfDb.
  destruct (processBatch_stores now p) as [(-> & _)|(_ & -> & _)]; [done|].
  by apply wfDb_deletes.
Qed.

Lemma wfDb_apply p op : wfDb (db p) → wfDb (db (apply p op)).
Proof.
  destruct op as [r|now]; simpl.
  - apply wfDb_addTestWithdrawal.
  - apply wfDb_processBatch.
Qed.

Lemma wfDb_run ops : ∀ p, wfDb (db p) → wfDb (db (run ops p)).
Proof.
  induction ops as [|op ops IH]; intros p Hwf; [done|].
  apply IH. by apply wfDb_apply.
Qed.

Lemma wfDb_newProcessor (first : Q) : wfDb (db (newProcessor (Address := Address) first)).
Proof. split; [apply NoDup_nil_2 | constructor]. Qed.

(** With a well-formed pending map, an accepted batch leaves the entries
    behind the fetched ones. *)
Lemma processBatch_stores_wf now p :
  wfDb (db p) →
  let ws := take 254 (JsMap.values (pendingWithdrawals (db p))) in
  let result := (processBatch now p).2 in
  (pendingWithdrawals (db result) = pendingWithdrawals (db p)
   ∧ processedWithdrawals (db result) = processedWithdrawals (db p)
   ∧ sent result = sent p)
  ∨ (omap messageOf ws ≠ []
     ∧ pendingWithdrawals (db result) = drop 254 (pendingWithdrawals (db p))
     ∧ processedWithdrawals (db result)
       = list_to_set (withdrawalId <$> ws) ∪ processedWithdrawals (db p)
     ∧ lastQueryId result = getNext (lastQueryId p)
     ∧ hasNext (lastQueryId p) = true
     ∧ sent result = sent p ++ [plannedBatch now p]).
Proof.
  intros [Hwf Hkeys] ws result.
  destruct (processBatch_stores now p) as [Hsame|(Hsome & Hpending & Hrest)]; [by left|].
  right. split; [done|]. split; [|done].
  fold result in Hpending. rewrite Hpending, getPendingWithdrawals_max.
  by apply delete_fetched.
Qed.

Lemma get_deletes_other (m : list (string * WithdrawalRequest)) k ws :
  k ∉ withdrawalId <$> ws →
  JsMap.get k (foldl (λ m w, JsMap.delete (withdrawalId w) m) m ws) = JsMap.get k m.
Proof.
  revert m. induction ws as [|w ws IH]; intros m Hn; [done|].
  rewrite fmap_cons, not_elem_of_cons in Hn. destruct Hn as [Hne Hn].
  simpl. rewrite IH by done. by apply JsMap_get_delete_ne.
Qed.

Lemma get_deletes_hit (m : list (string * WithdrawalRequest)) k ws :
  k ∈ withdrawalId <$> ws →
  JsMap.get k (foldl (λ m w, JsMap.delete (withdrawalId w) m) m ws) = None.
Proof.
  intros Hin. apply list_elem_of_fmap in Hin as (w & -> & Hw). by apply get_deleted.
Qed.
(** What a call does to one pending request. *)
Lemma processBatch_keeps_or_completes now p id w :
  JsMap.get id (pendingWithdrawals (db p)) = Some w →
  let result := (processBatch now p).2 in
  (JsMap.get id (pendingWithdrawals (db result)) = Some w
   ∧ (id ∈ processedWithdrawals (db result) ↔ id ∈ processedWithdrawals (db p)))
  ∨ (JsMap.get id (pendingWithdrawals (db result)) = None
     ∧ id ∈ processedWithdrawals (db result)
     ∧ sent result = sent p ++ [plannedBatch now p]).
Proof.
  intros Hget result. subst result.
  destruct (processBatch_stores now p)
    as [(-> & -> & _)|(_ & -> & -> & _ & _ & ->)]; [by left|].
  set (ws := getPendingWithdrawals MAX_BATCH_SIZE (db p)).
  destruct (decide (id ∈ withdrawalId <$> ws)) as [Hin|Hout].
  - right. split_and!; [by apply get_deletes_hit | | done].
    apply elem_of_union_l. by apply elem_of_list_to_set.
  - left. split; [by rewrite get_deletes_other|].
    rewrite elem_of_union, elem_of_list_to_set. tauto.
Qed.

Lemma processBatch_processed_grows now p :
  processedWithdrawals (db p) ⊆ processedWithdrawals (db (processBatch now p).2).
Proof.
  destruct (processBatch_stores now p) as [(_ & -> & _)|(_ & _ & -> & _)]; [done|].
  apply union_subseteq_r.
Qed.

(** A queued request stays accounted for: pending or completed. *)
Lemma accounted_apply p op id :
  is_Some (JsMap.get id (pendingWithdrawals (db p))) ∨ id ∈ processedWithdrawals (db p) →
  is_Some (JsMap.get id (pendingWithdrawals (db (apply p op))))
  ∨ id ∈ processedWithdrawals (db (apply p op)).
Proof.
  intros Hacc. destruct op as [r|now]; simpl.
  - destruct Hacc as [Hpending|Hdone]; [left | by right].
    destruct (decide (withdrawalId r = id)) as [<-|Hne].
    + rewrite JsMap_get_set_eq. by eexists.
    + by rewrite JsMap_get_set_ne.
  - destruct Hacc as [[w Hpending]|Hdone].
    + destruct (processBatch_keeps_or_completes now p id w Hpending)
        as [[Hkept _]|(_ & Hdone & _)]; [left; by eexists | by right].
    + right. by apply (processBatch_processed_grows now p).
Qed.

Lemma accounted_run ops : ∀ p id,
  is_Some (JsMap.get id (pendingWithdrawals (db p))) ∨ id ∈ processedWithdrawals (db p) →
  is_Some (JsMap.get id (pendingWithdrawals (db (run ops p))))
  ∨ id ∈ processedWithdrawals (db (run ops p)).
Proof.
  induction ops as [|op ops IH]; intros p id Hacc; [done|].
  apply IH. by apply accounted_apply.
Qed.

Lemma values_set_submseteq {B : Type} (f : WithdrawalRequest → option B) k v
    (m : list (string * WithdrawalRequest)) :
  omap f (JsMap.values (JsMap.set k v m)) ⊆+ omap f (JsMap.values m) ++ omap f [v].
Proof.
  unfold JsMap.values. induction m as [|[k' v'] m IH]; [done|].
  simpl JsMap.set. destruct (decide (k' = k)) as [->|Hne].
  - rewrite !fmap_cons. cbn [snd].
    change (v :: m.*2) with ([v] ++ m.*2). change (v' :: m.*2) with ([v'] ++ m.*2).
    rewrite !omap_app, <- app_assoc.
    apply (submseteq_inserts_l (omap f [v'])).
    apply Permutation_submseteq, Permutation_app_comm.
  - rewrite !fmap_cons. cbn [snd].
    change (v' :: (JsMap.set k v m).*2) with ([v'] ++ (JsMap.set k v m).*2).
    change (v' :: m.*2) with ([v'] ++ m.*2).
    rewrite !omap_app, <- app_assoc.
    apply submseteq_skips_l. exact IH.
Qed.

Lemma sentMessages_snoc p batch :
  concat (messages <$> (sent p ++ [batch])) = sentMessages p ++ messages batch.
Proof. unfold sentMessages. rewrite fmap_app, concat_app. simpl. by rewrite app_nil_r. Qed.

(** Sent and pending messages together never exceed the queued ones. *)
Lemma paid_once_run ops (first : Q) :
  let p := run ops (newProcessor (Address := Address) first) in
  sentMessages p ++ omap messageOf (JsMap.values (pendingWithdrawals (db p)))
  ⊆+ omap messageOf (queued ops).
Proof.
  induction ops as [|op ops IH] using rev_ind; [done|].
  simpl in IH. cbv zeta. rewrite run_snoc.
  pose proof (wfDb_run ops (newProcessor first) (wfDb_newProcessor first)) as Hwf.
  set (p := run ops (newProcessor first)) in *.
  destruct op as [r|now].
  - rewrite queued_snoc_add, omap_app. simpl apply.
    unfold sentMessages at 1. cbn [db sent addTestWithdrawal pendingWithdrawals].
    fold (sentMessages p).
    etrans; [apply submseteq_skips_l, values_set_submseteq|].
    rewrite app_assoc. by apply submseteq_app.
  - rewrite queued_snoc_process. simpl apply.
    destruct (processBatch_stores_wf now p Hwf)
      as [(Hpending & _ & Hsent)|(_ & Hpending & _ & _ & _ & Hsent)].
    + unfold sentMessages at 1. rewrite Hsent, Hpending. exact IH.
    + unfold sentMessages at 1. rewrite Hsent, Hpending, sentMessages_snoc.
      unfold plannedBatch. cbn [messages]. rewrite getPendingWithdrawals_max.
      unfold JsMap.values at 2. rewrite fmap_drop.
      rewrite <- app_assoc, <- omap_app.
      fold (JsMap.values (pendingWithdrawals (db p))).
      rewrite take_drop. exact IH.
Qed.

Lemma sorted_snoc {A : Type} (R : A → A → Prop) (l : list A) (x : A) :
  StronglySorted R l → Forall (λ y, R y x) l → StronglySorted R (l ++ [x]).
Proof.
  induction 1 as [|a l Hsorted IH Hall]; intros Hx.
  - repeat constructor.
  - apply Forall_cons in Hx as [Hax Hx]. simpl. constructor.
    + by apply IH.
    + apply Forall_app. split; [done | by repeat constructor].
Qed.

Lemma sorted_rank_NoDup {A : Type} (rank : Q → Z) (g : A → Q) (l : list A) :
  StronglySorted (λ a b, rank (g a) < rank (g b)) l → NoDup (g <$> l).
Proof.
  induction 1 as [|a l Hsorted IH Hall]; [constructor|].
  rewrite fmap_cons. constructor; [|done].
  intros Hin. apply list_elem_of_fmap in Hin as (b & Heq & Hb).
  rewrite Forall_forall in Hall. specialize (Hall b Hb). rewrite Heq in Hall. lia.
Qed.

(** Under a rank that [getNext] raises, the accepted batches carry
    increasing query ids between the first and the last one taken. *)
Lemma fresh_ids_run (rank : Q → Z) ops (first : Q) :
  (∀ q, hasNext q = true → rank q < rank (getNext q)) →
  let p := run ops (newProcessor (Address := Address) first) in
  StronglySorted (λ a b, rank (queryId a) < rank (queryId b)) (sent p)
  ∧ Forall (λ b, rank first < rank (queryId b) <= rank (lastQueryId p)) (sent p)
  ∧ rank first <= rank (lastQueryId p).
Proof.
  intros Hrank.
  induction ops as [|op ops IH] using rev_ind.
  { simpl. split_and!; [constructor | constructor | lia]. }
  cbv zeta in *. rewrite run_snoc.
  set (p := run ops (newProcessor first)) in *.
  destruct IH as (Hsorted & Hbounds & Hfirst).
  destruct op as [r|now]; [done|].
  simpl apply.
  destruct (processBatch_stores now p)
    as [(_ & _ & Hsent)|(_ & _ & _ & Hlast & Hnext & Hsent)].
  - rewrite Hsent.
    destruct (processBatch_lastQueryId now p) as [->|[Hnext ->]]; [done|].
    specialize (Hrank _ Hnext).
    split_and!; [done | | lia].
    eapply Forall_impl; [exact Hbounds|]. simpl. intros b Hb. lia.
  - rewrite Hsent, Hlast. specialize (Hrank _ Hnext).
    split_and!; [| | lia].
    + apply sorted_snoc; [done|].
      eapply Forall_impl; [exact Hbounds|]. simpl. intros b Hb. lia.
    + apply Forall_app. split.
      * eapply Forall_impl; [exact Hbounds|]. simpl. intros b Hb. lia.
      * repeat constructor; simpl; lia.
Qed.
End RunFacts.

(** X12. Every batch the wallet has accepted, over any sequence of queued
    requests and [processBatch] calls on a new processor, holds at least one
    and at most 254 messages and was sent for subwallet 0x10ad with a timeout
    of 3600 seconds. *)
Theorem sent_batches_within_limits {Address Q : Type}
    `{QueryId.Sequencer Q} `{Withdrawal.Chain Address Q}
    (ops : list Batches.Op) (first : Q) :
  Forall (λ batch,
            (1 <= length (Withdrawal.messages batch) <= 254)%nat
            ∧ Withdrawal.subwalletId batch = 4269
            ∧ Withdrawal.timeout batch = 3600)
    (Withdrawal.sent (Batches.run ops (Batches.newProcessor (Address := Address) first))).
Proof.
  induction ops as [|op ops IH] using rev_ind; [constructor|].
  rewrite run_snoc.
  set (p := Batches.run ops (Batches.newProcessor first)) in *.
  destruct op as [r|now]; [exact IH|].
  simpl.
  destruct (processBatch_stores now p) as [(_ & _ & ->)|(Hsome & _ & _ & _ & _ & ->)];
    [exact IH|].
  apply Forall_app. split; [exact IH|].
  constructor; [|constructor].
  split_and!; [| |done..].
  - simpl. destruct (omap _ _); [done | simpl; lia].
  - simpl. etrans; [apply omap_length_le|].
    rewrite getPendingWithdrawals_max, length_take. lia.
Qed.

(** X13. A request that is pending before a call of [processBatch] is
    afterwards either still pending, unchanged and with its completion
    status as before, or it is gone from the pending map, marked completed,
    and the call has recorded the batch as sent. *)
Theorem pending_request_kept_or_completed {Address Q : Type}
    `{QueryId.Sequencer Q} `{Withdrawal.Chain Address Q}
    (now : Z) (p : Withdrawal.Processor Address Q)
    (id : string) (w : Withdrawal.WithdrawalRequest) :
  JsMap.get id (Withdrawal.pendingWithdrawals (Withdrawal.db p)) = Some w →
  let result := (Withdrawal.processBatch now p).2 in
  (JsMap.get id (Withdrawal.pendingWithdrawals (Withdrawal.db result)) = Some w
   ∧ (id ∈ Withdrawal.processedWithdrawals (Withdrawal.db result)
      ↔ id ∈ Withdrawal.processedWithdrawals (Withdrawal.db p)))
  ∨ (JsMap.get id (Withdrawal.pendingWithdrawals (Withdrawal.db result)) = None
     ∧ id ∈ Withdrawal.processedWithdrawals (Withdrawal.db result)
     ∧ Withdrawal.sent result = Withdrawal.sent p ++ [Withdrawal.plannedBatch now p]).
Proof. apply processBatch_keeps_or_completes. Qed.

Lemma pending_request_kept_or_completed_witness :
  let p : Withdrawal.Processor string Z :=
    {| Withdrawal.db := Examples.queue (Examples.requests 0 2 (-1));
       Withdrawal.lastQueryId := 0;
       Withdrawal.sent := [] |} in
  let refused :=
    (Withdrawal.processBatch (H := MoreExamples.counterSequencer)
       (H0 := MoreExamples.refusingChain _) 1700000000000 p).2 in
  let accepted :=
    (Withdrawal.processBatch (H := MoreExamples.counterSequencer)
       (H0 := Examples.acceptingChain _) 1700000000000 p).2 in
  is_Some (JsMap.get "wd_1" (Withdrawal.pendingWithdrawals (Withdrawal.db refused)))
  ∧ ("wd_1" ∉ Withdrawal.processedWithdrawals (Withdrawal.db refused))
  ∧ JsMap.get "wd_1" (Withdrawal.pendingWithdrawals (Withdrawal.db accepted)) = None
  ∧ "wd_1" ∈ Withdrawal.processedWithdrawals (Withdrawal.db accepted).
Proof.
  intros p refused accepted.
  assert (Hget : JsMap.get "wd_1" (Withdrawal.pendingWithdrawals (Withdrawal.db p))
                 = Some {| Withdrawal.userId := "user1";
                           Withdrawal.address := Examples.goodAddress;
                           Withdrawal.amount := 1000000000;
                           Withdrawal.withdrawalId := "wd_1" |})
    by (vm_compute; reflexivity).
  destruct (pending_request_kept_or_completed (H := MoreExamples.counterSequencer)
              (H0 := MoreExamples.refusingChain _) 1700000000000 p "wd_1" _ Hget)
    as [[Hkept Hsame]|(_ & _ & Hsent)];
    [|exfalso; apply (f_equal length) in Hsent; vm_compute in Hsent; discriminate].
  destruct (pending_request_kept_or_completed (H := MoreExamples.counterSequencer)
              (H0 := Examples.acceptingChain _) 1700000000000 p "wd_1" _ Hget)
    as [[Hstill _]|(Hgone & Hdone & _)];
    [exfalso; vm_compute in Hstill; discriminate|].
  split_and!.
  - subst refused. by rewrite Hkept.
  - subst refused. rewrite Hsame. simpl. apply not_elem_of_empty.
  - exact Hgone.
  - exact Hdone.
Defined.

(** X14. A request queued at any point of a sequence of operations is
    never lost: after the whole sequence its withdrawal id is either still
    in the pending map or in the completed set, whatever the wallet and the
    sequencer did in between. *)
Theorem queued_request_never_lost {Address Q : Type}
    `{QueryId.Sequencer Q} `{Withdrawal.Chain Address Q}
    (ops : list Batches.Op) (p : Withdrawal.Processor Address Q)
    (request : Withdrawal.WithdrawalRequest) :
  Batches.AddWithdrawal request ∈ ops →
  let final := Batches.run ops p in
  is_Some (JsMap.get (Withdrawal.withdrawalId request)
             (Withdrawal.pendingWithdrawals (Withdrawal.db final)))
  ∨ Withdrawal.withdrawalId request ∈ Withdrawal.processedWithdrawals (Withdrawal.db final).
Proof.
  intros Hin. apply list_elem_of_split in Hin as (before & after & ->).
  cbv zeta. unfold Batches.run. rewrite foldl_app. simpl.
  apply accounted_run. left. simpl. rewrite JsMap_get_set_eq. by eexists.
Qed.

Lemma queued_request_never_lost_witness :
  let request :=
    {| Withdrawal.userId := "user7";
       Withdrawal.address := Examples.goodAddress;
       Withdrawal.amount := 5;
       Withdrawal.withdrawalId := "wd_7" |} in
  let final :=
    Batches.run (H := MoreExamples.counterSequencer) (H0 := Examples.acceptingChain _)
      [Batches.ProcessBatch 1000; Batches.AddWithdrawal request; Batches.ProcessBatch 2000]
      (Batches.newProcessor 0) in
  is_Some (JsMap.get "wd_7" (Withdrawal.pendingWithdrawals (Withdrawal.db final)))
  ∨ "wd_7" ∈ Withdrawal.processedWithdrawals (Withdrawal.db final).
Proof.
  intros request final.
  apply (queued_request_never_lost (H := MoreExamples.counterSequencer)
           (H0 := Examples.acceptingChain _)
           [Batches.ProcessBatch 1000; Batches.AddWithdrawal request; Batches.ProcessBatch 2000]
           (Batches.newProcessor 0) request).
  right. left.
Defined.

(** X15. No queued request is paid twice: over any sequence of queued
    requests and [processBatch] calls on a new processor, the messages of
    all accepted batches together with the messages of the requests still
    pending form a sub-multiset of the messages of the queued requests. In
    particular every sent message is the message of a queued request whose
    address parses. *)
Theorem no_request_paid_twice {Address Q : Type}
    `{QueryId.Sequencer Q} `{Withdrawal.Chain Address Q}
    (ops : list Batches.Op) (first : Q) :
  let p := Batches.run ops (Batches.newProcessor (Address := Address) first) in
  Batches.sentMessages p
    ++ omap Withdrawal.messageOf
         (JsMap.values (Withdrawal.pendingWithdrawals (Withdrawal.db p)))
  ⊆+ omap Withdrawal.messageOf (Batches.queued ops)
  ∧ ∀ message, message ∈ Batches.sentMessages p →
      ∃ request dest,
        request ∈ Batches.queued ops
        ∧ Withdrawal.parse (Withdrawal.address request) = inr dest
        ∧ message = Withdrawal.withdrawalMessage request dest.
Proof.
  intros p. pose proof (paid_once_run ops first) as Hpaid. fold p in Hpaid.
  split; [exact Hpaid|].
  intros message Hin.
  assert (Hq : message ∈ omap Withdrawal.messageOf (Batches.queued ops)).
  { eapply elem_of_submseteq; [|exact Hpaid]. apply elem_of_app. by left. }
  apply list_elem_of_omap in Hq as (request & Hrequest & Hmsg).
  unfold Withdrawal.messageOf in Hmsg.
  destruct (Withdrawal.parse (Withdrawal.address request)) as [e|dest] eqn:Hparse; [done|].
  exists request, dest. split_and!; [done..|]. congruence.
Qed.

(** X16. For a sequencer whose [getNext] moves strictly upwards in some
    rank whenever [hasNext] holds, the batches accepted over any sequence of
    operations on a new processor carry strictly increasing, hence pairwise
    distinct, query ids; each lies above the initial id and not above the
    last id taken. *)
Theorem sent_batches_have_fresh_query_ids {Address Q : Type}
    `{QueryId.Sequencer Q} `{Withdrawal.Chain Address Q}
    (rank : Q → Z) (ops : list Batches.Op) (first : Q) :
  (∀ q, QueryId.hasNext q = true → rank q < rank (QueryId.getNext q)) →
  let p := Batches.run ops (Batches.newProcessor (Address := Address) first) in
  StronglySorted (λ a b, rank (Withdrawal.queryId a) < rank (Withdrawal.queryId b))
    (Withdrawal.sent p)
  ∧ NoDup (Withdrawal.queryId <$> Withdrawal.sent p)
  ∧ Forall (λ b, rank first < rank (Withdrawal.queryId b)
                 ∧ rank (Withdrawal.queryId b) <= rank (Withdrawal.lastQueryId p))
      (Withdrawal.sent p).
Proof.
  intros Hrank p.
  destruct (fresh_ids_run rank ops first Hrank) as (Hsorted & Hbounds & _).
  fold p in Hsorted, Hbounds.
  split_and!; [done | by eapply sorted_rank_NoDup | done].
Qed.

Lemma sent_batches_have_fresh_query_ids_witness :
  let p :=
    Batches.run (H := MoreExamples.counterSequencer) (H0 := Examples.acceptingChain _)
      ((Batches.AddWithdrawal <$> Examples.requests 0 2 (-1))
       ++ [Batches.ProcessBatch 1000]
       ++ (Batches.AddWithdrawal <$> Examples.requests 2 1 (-1))
       ++ [Batches.ProcessBatch 2000; Batches.ProcessBatch 3000])
      (Batches.newProcessor 0) in
  Withdrawal.queryId <$> Withdrawal.sent p = [1; 2]
  ∧ NoDup (Withdrawal.queryId <$> Withdrawal.sent p).
Proof.
  intros p. split; [vm_compute; reflexivity|].
  apply (sent_batches_have_fresh_query_ids (H := MoreExamples.counterSequencer)
           (H0 := Examples.acceptingChain _) (λ q, q)).
  intros q Hq. simpl. lia.
Defined.

(** ** Batch withdrawal processor: draining the queue *)

Section DrainFacts.
Import QueryId Withdrawal Batches.
Context {Address Q : Type} `{Sequencer Q} `{Chain Address Q}.
Implicit Types (d : WithdrawalDatabase) (p : Processor Address Q).

Lemma hasNexts_fewer n : ∀ q, hasNexts (S n) q = true → hasNexts n q = true.
Proof.
  induction n as [|n IH]; intros q Hq; [done|].
  change (hasNexts (S (S n)) q) with (hasNext q && hasNexts (S n) (getNext q)) in Hq.
  change (hasNexts (S n) q) with (hasNext q && hasNexts n (getNext q)).
  apply andb_true_iff in Hq as [Hq Hrest]. rewrite Hq. simpl. by apply IH.
Qed.

Lemma omap_messageOf_nonempty ws :
  Forall (λ w, is_Some (messageOf w)) ws → ws ≠ [] → omap messageOf ws ≠ [].
Proof.
  intros Hall Hne. destruct ws as [|w ws]; [done|].
  apply Forall_cons in Hall as [[msg Hmsg] _].
  change (omap messageOf (w :: ws))
    with (match messageOf w with
          | Some m => m :: omap messageOf ws
          | None => omap messageOf ws
          end).
  by rewrite Hmsg.
Qed.

(** One call on a queue whose addresses all parse, with an id available
    and a wallet that accepts. *)
Lemma processBatch_drains now p :
  wfDb (db p) →
  Forall (λ e, is_Some (messageOf e.2)) (pendingWithdrawals (db p)) →
  (∀ batch, sendBatch batch = None) →
  hasNext (lastQueryId p) = true →
  pendingWithdrawals (db p) ≠ [] →
  let ws := take 254 (JsMap.values (pendingWithdrawals (db p))) in
  let result := (processBatch now p).2 in
  pendingWithdrawals (db result) = drop 254 (pendingWithdrawals (db p))
  ∧ processedWithdrawals (db result)
    = list_to_set (withdrawalId <$> ws) ∪ processedWithdrawals (db p)
  ∧ lastQueryId result = getNext (lastQueryId p)
  ∧ sentMessages result = sentMessages p ++ omap messageOf ws.
Proof.
  intros [Hwf Hkeys] Hparse Haccept Hnext Hne ws result.
  assert (Hsome : omap messageOf (getPendingWithdrawals MAX_BATCH_SIZE (db p)) ≠ []).
  { rewrite getPendingWithdrawals_max. apply omap_messageOf_nonempty.
    - apply Forall_take. unfold JsMap.values. by apply Forall_fmap.
    - unfold JsMap.values. destruct (pendingWithdrawals (db p)); done. }
  subst result. rewrite (processBatch_accepted now p Hsome Hnext (Haccept _)).
  cbn [snd db pendingWithdrawals processedWithdrawals lastQueryId].
  rewrite getPendingWithdrawals_max. fold ws.
  split_and!; [by apply delete_fetched | done | done |].
  unfold sentMessages at 1. cbn [sent]. rewrite sentMessages_snoc.
  unfold plannedBatch. cbn [messages]. by rewrite getPendingWithdrawals_max.
Qed.

Lemma processBatch_idle now p :
  pendingWithdrawals (db p) = [] → (processBatch now p).2 = p.
Proof.
  intros Hempty. unfold processBatch, getPendingWithdrawals. by rewrite Hempty.
Qed.

Lemma drain_run (nows : list Z) :
  ∀ p,
    wfDb (db p) →
    Forall (λ e, is_Some (messageOf e.2)) (pendingWithdrawals (db p)) →
    (∀ batch, sendBatch batch = None) →
    hasNexts (length nows) (lastQueryId p) = true →
    let n := (254 * length nows)%nat in
    let final := run (ProcessBatch <$> nows) p in
    pendingWithdrawals (db final) = drop n (pendingWithdrawals (db p))
    ∧ processedWithdrawals (db final)
      = list_to_set (withdrawalId <$> take n (JsMap.values (pendingWithdrawals (db p))))
        ∪ processedWithdrawals (db p)
    ∧ sentMessages final
      = sentMessages p ++ omap messageOf (take n (JsMap.values (pendingWithdrawals (db p)))).
Proof.
  induction nows as [|now nows IH]; intros p Hwf Hparse Haccept Hids.
  { simpl. rewrite app_nil_r, (left_id_L ∅ (∪)). done. }
  cbv zeta. rewrite fmap_cons. cbn [run foldl length apply].
  fold (run (ProcessBatch <$> nows) (processBatch now p).2).
  destruct (decide (pendingWithdrawals (db p) = [])) as [Hempty|Hne].
  - rewrite (processBatch_idle now p Hempty).
    destruct (IH p Hwf Hparse Haccept (hasNexts_fewer _ _ Hids)) as (Hp & Hd & Hs).
    rewrite Hp, Hd, Hs, Hempty. unfold JsMap.values. simpl.
    by rewrite !drop_nil, !take_nil.
  - change (hasNexts (S (length nows)) (lastQueryId p))
      with (hasNext (lastQueryId p) && hasNexts (length nows) (getNext (lastQueryId p)))
      in Hids.
    apply andb_true_iff in Hids as [Hnext Hids].
    destruct (processBatch_drains now p Hwf Hparse Haccept Hnext Hne)
      as (Hp1 & Hd1 & Hl1 & Hs1).
    set (p1 := (processBatch now p).2) in *.
    assert (Hwf1 : wfDb (db p1)) by by apply wfDb_processBatch.
    assert (Hparse1 : Forall (λ e, is_Some (messageOf e.2)) (pendingWithdrawals (db p1))).
    { rewrite Hp1. by apply Forall_drop. }
    rewrite <- Hl1 in Hids.
    destruct (IH p1 Hwf1 Hparse1 Haccept Hids) as (Hp & Hd & Hs).
    rewrite Hp, Hd, Hs, Hp1, Hd1, Hs1.
    replace (254 * S (length nows))%nat with (254 + 254 * length nows)%nat by lia.
    unfold JsMap.values. rewrite fmap_drop.
    split_and!.
    + by rewrite drop_drop.
    + rewrite <- (take_take_drop _ 254 (254 * length nows)).
      rewrite fmap_app, list_to_set_app_L.
      rewrite (assoc_L (∪)). f_equal. apply (comm_L (∪)).
    + rewrite <- (take_take_drop _ 254 (254 * length nows)).
      by rewrite omap_app, app_assoc.
Qed.
End DrainFacts.

(** X17. A queue is drained in order. On a well-formed pending map whose
    addresses all parse, with a wallet that accepts every batch and a
    sequencer that can hand out one id per call, k successive calls of
    [processBatch] remove the first 254*k pending requests, mark exactly
    those completed, and send their messages in queue order; once 254*k
    reaches the queue length nothing is left pending and every request has
    had its message sent. *)
Theorem queue_drains_in_order {Address Q : Type}
    `{QueryId.Sequencer Q} `{Withdrawal.Chain Address Q}
    (nows : list Z) (p : Withdrawal.Processor Address Q) :
  Withdrawal.wfDb (Withdrawal.db p) →
  Forall (λ e, is_Some (Withdrawal.messageOf e.2))
    (Withdrawal.pendingWithdrawals (Withdrawal.db p)) →
  (∀ batch, Withdrawal.sendBatch batch = None) →
  Batches.hasNexts (length nows) (Withdrawal.lastQueryId p) = true →
  let n := (254 * length nows)%nat in
  let queue := JsMap.values (Withdrawal.pendingWithdrawals (Withdrawal.db p)) in
  let final := Batches.run (Batches.ProcessBatch <$> nows) p in
  Withdrawal.pendingWithdrawals (Withdrawal.db final)
  = drop n (Withdrawal.pendingWithdrawals (Withdrawal.db p))
  ∧ Withdrawal.processedWithdrawals (Withdrawal.db final)
    = list_to_set (Withdrawal.withdrawalId <$> take n queue)
      ∪ Withdrawal.processedWithdrawals (Withdrawal.db p)
  ∧ Batches.sentMessages final
    = Batches.sentMessages p ++ omap Withdrawal.messageOf (take n queue)
  ∧ ((length queue <= n)%nat →
     Withdrawal.pendingWithdrawals (Withdrawal.db final) = []
     ∧ Batches.sentMessages final
       = Batches.sentMessages p ++ omap Withdrawal.messageOf queue
     ∧ length (Batches.sentMessages final)
       = (length (Batches.sentMessages p) + length queue)%nat).
Proof.
  intros Hwf Hparse Haccept Hids n queue final.
  destruct (drain_run nows p Hwf Hparse Haccept Hids) as (Hp & Hd & Hs).
  fold n final queue in Hp, Hd, Hs.
  split_and!; [done..|].
  intros Hlen. rewrite Hp, Hs.
  assert (Hlen' : (length (Withdrawal.pendingWithdrawals (Withdrawal.db p)) <= n)%nat).
  { subst queue. unfold JsMap.values in Hlen. by rewrite length_fmap in Hlen. }
  rewrite drop_ge, take_ge by done.
  split_and!; [done..|].
  rewrite length_app. f_equal.
  apply omap_messageOf_length. subst queue. unfold JsMap.values.
  apply Forall_fmap. by apply parses_from_messageOf.
Qed.

Lemma queue_drains_in_order_witness :
  let p : Withdrawal.Processor string Z :=
    {| Withdrawal.db := Examples.queue (Examples.requests 0 3 (-1));
       Withdrawal.lastQueryId := 0;
       Withdrawal.sent := [] |} in
  let final :=
    Batches.run (H := MoreExamples.counterSequencer) (H0 := Examples.acceptingChain _)
      (Batches.ProcessBatch <$> [1000; 2000]) p in
  Withdrawal.pendingWithdrawals (Withdrawal.db final) = []
  ∧ Withdrawal.bodyText
      <$> Batches.sentMessages final
    = ["Withdrawal: wd_0"; "Withdrawal: wd_1"; "Withdrawal: wd_2"].
Proof.
  intros p final.
  destruct (queue_drains_in_order (H := MoreExamples.counterSequencer)
              (H0 := Examples.acceptingChain _) [1000; 2000] p)
    as (_ & _ & _ & Hdone).
  - unfold Withdrawal.wfDb, JsMap.wf.
    split; [apply (bool_decide_unpack (NoDup _)) | apply (bool_decide_unpack (Forall _ _))];
      vm_compute; exact I.
  - apply (bool_decide_unpack (Forall _ _)). vm_compute. exact I.
  - intros batch. reflexivity.
  - reflexivity.
  - destruct Hdone as (Hpending & Hsent & _); [vm_compute; lia|].
    fold final in Hpending, Hsent.
    split; [exact Hpending|]. rewrite Hsent. vm_compute. reflexivity.
Defined.

(** ** Deposit address generator: allocation over many users *)

Section DigestFacts.
Import Sha256.

Lemma w32_range x : 0 <= w32 x < 2 ^ 32.
Proof. unfold w32. apply Z.mod_pos_bound. reflexivity. Qed.

Lemma zip_with_Forall {A B C : Type} (P : C → Prop) (f : A → B → C) :
  (∀ x y, P (f x y)) → ∀ l k, Forall P (zip_with f l k).
Proof.
  intros Hf. induction l as [|x l IH]; intros k; [constructor|].
  destruct k as [|y k]; simpl; [constructor|]. constructor; [apply Hf | apply IH].
Qed.

Lemma blocks_range fuel :
  ∀ hs ws,
    Forall (λ w, 0 <= w < 2 ^ 32) hs →
    Forall (λ w, 0 <= w < 2 ^ 32) (blocks fuel hs ws).
Proof.
  induction fuel as [|fuel IH]; intros hs ws Hhs; [done|].
  simpl. destruct ws as [|w ws]; [done|].
  apply IH. unfold compress. apply zip_with_Forall.
  intros x y. apply w32_range.
Qed.

(** Every word of a digest is an unsigned 32-bit number. *)
Lemma digest_range msg : Forall (λ w, 0 <= w < 2 ^ 32) (digest msg).
Proof.
  unfold digest. apply blocks_range.
  unfold H0. apply Forall_fmap, Forall_forall. intros p _. apply w32_range.
Qed.

Lemma hash32_range parts : 0 <= AddressGenerator.hash32 parts < 2 ^ 32.
Proof.
  unfold AddressGenerator.hash32, readUInt32BE0.
  pose proof (digest_range (concat (bytesOf <$> parts))) as Hall.
  destruct (digest _) as [|w ws]; [simpl; by split|].
  by apply Forall_cons in Hall as [Hw _].
Qed.
End DigestFacts.

Section AllocationFacts.
Import AddressGenerator AddressTools.
Context `{Wallet}.
Implicit Types (d : AddressMappingDatabase) (g : Generator).

(** The three ways through [generateDepositAddress]. *)
Lemma generateDepositAddress_cases user g :
  (∃ a, getAddressForUser user (db g) = Some a
        ∧ generateDepositAddress user g = (inr a, g))
  ∨ (getAddressForUser user (db g) = None
     ∧ search (Z.to_nat maxAttempts) user (baseSubwalletId g) 0 (db g) = AttemptsExceeded
     ∧ generateDepositAddress user g
       = (inl ("Failed to generate unique subwallet ID for user " +:+ user
               +:+ " after " +:+ pretty maxAttempts +:+ " attempts"), g))
  ∨ (getAddressForUser user (db g) = None
     ∧ ∃ id,
         search (Z.to_nat maxAttempts) user (baseSubwalletId g) 0 (db g) = Found id
         ∧ generateDepositAddress user g
           = (inr (walletAddress id (timeout g)),
              {| db := createUserAddress user (walletAddress id (timeout g)) id (db g);
                 baseSubwalletId := baseSubwalletId g;
                 timeout := timeout g |})).
Proof.
  unfold generateDepositAddress.
  destruct (getAddressForUser user (db g)) as [a|] eqn:Hget.
  { left. by exists a. }
  right.
  destruct (search (Z.to_nat maxAttempts) user (baseSubwalletId g) 0 (db g))
    as [id| |] eqn:Hsearch.
  - right. split; [done|]. by exists id.
  - left. by split_and!.
  - exfalso. by apply (search_never_out_of_fuel user (baseSubwalletId g) (db g)).
Qed.

Lemma generateDepositAddress_params user g :
  baseSubwalletId (generateDepositAddress user g).2 = baseSubwalletId g
  ∧ timeout (generateDepositAddress user g).2 = timeout g.
Proof.
  destruct (generateDepositAddress_cases user g)
    as [(a & _ & ->)|[(_ & _ & ->)|(_ & id & _ & ->)]]; done.
Qed.

(** A call for any user leaves the entries of a user who has an address. *)
Lemma generateDepositAddress_keeps user g u a :
  getAddressForUser u (db g) = Some a →
  let g' := (generateDepositAddress user g).2 in
  getAddressForUser u (db g') = Some a
  ∧ JsMap.get u (userToSubwalletId (db g')) = JsMap.get u (userToSubwalletId (db g)).
Proof.
  intros Hget g'. subst g'.
  destruct (generateDepositAddress_cases user g)
    as [(a' & _ & ->)|[(_ & _ & ->)|(Hnone & id & _ & ->)]]; [done..|].
  assert (Hne : user ≠ u) by (intros ->; congruence).
  unfold getAddressForUser, createUserAddress in *.
  cbn [snd db userToAddress userToSubwalletId].
  by rewrite !JsMap_get_set_ne.
Qed.

Lemma allocateAll_keeps users :
  ∀ g u a,
    getAddressForUser u (db g) = Some a →
    getAddressForUser u (db (allocateAll users g)) = Some a
    ∧ JsMap.get u (userToSubwalletId (db (allocateAll users g)))
      = JsMap.get u (userToSubwalletId (db g)).
Proof.
  induction users as [|user users IH]; intros g u a Hget; [done|].
  destruct (generateDepositAddress_keeps user g u a Hget) as [Hget' Hid'].
  destruct (IH _ u a Hget') as [Hfinal Hid].
  split; [exact Hfinal|]. etrans; [exact Hid | exact Hid'].
Qed.

(** When the loop gives up: exactly when the candidates of the nonces it
    tests are all taken. *)
Lemma search_exceeded_iff fuel :
  ∀ nonce user base d,
    (1 ≤ fuel)%nat →
    maxAttempts - nonce <= Z.of_nat fuel →
    search fuel user base nonce d = AttemptsExceeded
    ↔ ∀ n, nonce <= n < 999 → collides (candidate user base n) d = true.
Proof.
  induction fuel as [|fuel IH]; intros nonce user base d Hpos Hfuel; [lia|].
  simpl. unfold maxAttempts in *.
  destruct (1000 <=? nonce + 1) eqn:Hmax.
  { apply Z.leb_le in Hmax. split; [intros _ n Hn; lia | done]. }
  apply Z.leb_gt in Hmax.
  destruct (collides (candidate user base nonce) d) eqn:Hcol.
  - rewrite IH by lia. split.
    + intros Hall n Hn. destruct (decide (n = nonce)) as [->|Hne]; [done|].
      apply Hall. lia.
    + intros Hall n Hn. apply Hall. lia.
  - split; [done|]. intros Hall. rewrite Hall in Hcol by lia. done.
Qed.

(** An id the loop settles on is one of its candidates. *)
Lemma search_found_candidate fuel :
  ∀ nonce user base d id,
    search fuel user base nonce d = Found id →
    ∃ n, nonce <= n < 999 ∧ id = candidate user base n.
Proof.
  induction fuel as [|fuel IH]; intros nonce user base d id; [done|].
  simpl. unfold maxAttempts. destruct (1000 <=? nonce + 1) eqn:Hmax; [done|].
  apply Z.leb_gt in Hmax.
  destruct (collides (candidate user base nonce) d).
  - intros Hfound. destruct (IH _ _ _ _ _ Hfound) as (n & Hn & ->).
    exists n. split; [lia | done].
  - intros [= <-]. exists nonce. split; [lia | done].
Qed.

Lemma candidate_range user base nonce :
  0 <= base < 2 ^ 32 → 0 <= candidate user base nonce < 2 ^ 32.
Proof.
  intros Hbase. unfold candidate.
  destruct (hash32 _ =? 0); [done | apply hash32_range].
Qed.

Lemma subwallet_ids_step user g :
  0 <= baseSubwalletId g < 2 ^ 32 →
  Forall (λ e, 0 <= e.2 < 2 ^ 32) (userToSubwalletId (db g)) →
  Forall (λ e, 0 <= e.2 < 2 ^ 32) (userToSubwalletId (db (generateDepositAddress user g).2)).
Proof.
  intros Hbase Hall.
  destruct (generateDepositAddress_cases user g)
    as [(a' & _ & ->)|[(_ & _ & ->)|(Hnone & id & Hsearch & ->)]]; [done..|].
  unfold createUserAddress. cbn [snd db userToSubwalletId].
  apply Forall_set; [|done]. cbn [snd].
  destruct (search_found_candidate _ _ _ _ _ _ Hsearch) as (n & _ & ->).
  by apply candidate_range.
Qed.

Lemma JsMap_keys_set_elem {V : Type} (u k : string) (v : V) (m : list (string * V)) :
  u ∈ JsMap.keys (JsMap.set k v m) ↔ u = k ∨ u ∈ JsMap.keys m.
Proof.
  destruct (decide (k ∈ JsMap.keys m)) as [Hin|Hout].
  - rewrite JsMap_keys_set_present by done. split; [by right|].
    intros [->|Hu]; done.
  - rewrite JsMap_set_absent by done. unfold JsMap.keys. rewrite fmap_app. simpl.
    rewrite elem_of_app, list_elem_of_singleton. tauto.
Qed.

(** The loop of [generateBatchAddresses]: the result map extends the
    accumulator by the users visited, and agrees with the store. *)
Lemma generateBatchLoop_spec userIds :
  ∀ acc g addresses g',
    generateBatchLoop userIds acc g = (inr addresses, g') →
    (∀ u a, JsMap.get u acc = Some a → JsMap.get u (userToAddress (db g)) = Some a) →
    g' = allocateAll userIds g
    ∧ (∀ u, u ∈ JsMap.keys addresses ↔ u ∈ userIds ∨ u ∈ JsMap.keys acc)
    ∧ (∀ u a, JsMap.get u addresses = Some a →
         JsMap.get u (userToAddress (db g')) = Some a).
Proof.
  induction userIds as [|user userIds IH]; intros acc g addresses g' Hloop Hacc.
  { simpl in Hloop. injection Hloop as <- <-. split_and!; [done | | done].
    intros u. rewrite elem_of_nil. tauto. }
  simpl in Hloop.
  destruct (generateDepositAddress user g) as [[e|address] g1] eqn:Hgen; [done|].
  assert (Hstore : JsMap.get user (userToAddress (db g1)) = Some address
                   ∧ ∀ u, u ≠ user →
                       JsMap.get u (userToAddress (db g1))
                       = JsMap.get u (userToAddress (db g))).
  { destruct (generateDepositAddress_cases user g)
      as [(a & Hget & Heq)|[(_ & _ & Heq)|(_ & id & _ & Heq)]];
      rewrite Heq in Hgen; try discriminate;
      injection Hgen as Haddress Hg1; subst address g1.
    - split; [|done]. unfold getAddressForUser, orNull in Hget.
      destruct (truthy _); [done | discriminate].
    - unfold createUserAddress. cbn [db userToAddress]. split.
      + apply JsMap_get_set_eq.
      + intros u Hne. by apply JsMap_get_set_ne. }
  destruct Hstore as [Hnew Hother].
  destruct (IH (JsMap.set user address acc) g1 addresses g' Hloop) as (Hg & Hkeys & Hagree).
  { intros u a. destruct (decide (user = u)) as [<-|Hne].
    - rewrite JsMap_get_set_eq. by intros [= <-].
    - rewrite JsMap_get_set_ne by done. intros Hu.
      rewrite Hother by done. by apply Hacc. }
  split_and!.
  - rewrite Hg. unfold allocateAll. simpl. by rewrite Hgen.
  - intros u. rewrite Hkeys, JsMap_keys_set_elem, elem_of_cons. tauto.
  - exact Hagree.
Qed.
End AllocationFacts.

(** X18. An address, once allocated, is final: whatever users later calls
    of [generateDepositAddress] are made for (the same user included), the
    user keeps the same deposit address and the same stored subwallet id. *)
Theorem allocated_address_is_stable `{AddressGenerator.Wallet}
    (users : list string) (g : AddressGenerator.Generator) (user address : string) :
  AddressGenerator.getAddressForUser user (AddressGenerator.db g) = Some address →
  let g' := AddressTools.allocateAll users g in
  AddressGenerator.getAddressForUser user (AddressGenerator.db g') = Some address
  ∧ AddressGenerator.getSubwalletIdForUser user (AddressGenerator.db g')
    = AddressGenerator.getSubwalletIdForUser user (AddressGenerator.db g)
  ∧ (AddressGenerator.generateDepositAddress user g').1 = inr address.
Proof.
  intros Hget g'. destruct (allocateAll_keeps users g user address Hget) as [Hfinal Hid].
  fold g' in Hfinal, Hid.
  split_and!; [done | |].
  - unfold AddressGenerator.getSubwalletIdForUser. by rewrite Hid.
  - by rewrite (generateDepositAddress_existing user g' address Hfinal).
Qed.

Lemma allocated_address_is_stable_witness :
  let g :=
    (AddressGenerator.generateDepositAddress (H := Examples.textWallet) "alice"
       Examples.freshGenerator).2 in
  let g' := AddressTools.allocateAll (H := Examples.textWallet) ["bob"; "alice"; "carol"] g in
  AddressGenerator.getAddressForUser "alice" (AddressGenerator.db g')
  = AddressGenerator.getAddressForUser "alice" (AddressGenerator.db g)
  ∧ is_Some (AddressGenerator.getAddressForUser "alice" (AddressGenerator.db g')).
Proof.
  intros g g'.
  destruct (AddressGenerator.getAddressForUser "alice" (AddressGenerator.db g))
    as [address|] eqn:Hget; [|vm_compute in Hget; discriminate].
  destruct (allocated_address_is_stable (H := Examples.textWallet)
              ["bob"; "alice"; "carol"] g "alice" address Hget) as (Hfinal & _).
  fold g' in Hfinal. rewrite Hfinal. split; [done | by eexists].
Defined.

(** X19. For a user without an address, [generateDepositAddress] throws
    exactly when the candidates of the nonces 0 to 998 are all taken by
    stored mappings: 999 candidates are tested, the iteration with nonce 999
    throws before its candidate is compared. A failed call changes nothing. *)
Theorem allocation_fails_iff_candidates_taken `{AddressGenerator.Wallet}
    (user : string) (g : AddressGenerator.Generator) :
  AddressGenerator.getAddressForUser user (AddressGenerator.db g) = None →
  ((∃ e, (AddressGenerator.generateDepositAddress user g).1 = inl e)
   ↔ ∀ n, 0 <= n < 999 →
       AddressGenerator.collides
         (AddressGenerator.candidate user (AddressGenerator.baseSubwalletId g) n)
         (AddressGenerator.db g) = true)
  ∧ ∀ e, (AddressGenerator.generateDepositAddress user g).1 = inl e →
      (AddressGenerator.generateDepositAddress user g).2 = g.
Proof.
  intros Hnone.
  pose proof (search_exceeded_iff (Z.to_nat AddressGenerator.maxAttempts) 0 user
                (AddressGenerator.baseSubwalletId g) (AddressGenerator.db g)) as Hiff.
  destruct (generateDepositAddress_cases user g)
    as [(a & Hget & _)|[(_ & Hsearch & ->)|(_ & id & Hsearch & ->)]]; [congruence| |].
  - split; [|done]. split; [intros _ | intros _; by eexists].
    apply Hiff; [unfold AddressGenerator.maxAttempts; lia.. | done].
  - split; [|done]. split; [by intros [e He]|].
    intros Hall. apply Hiff in Hall; [congruence | unfold AddressGenerator.maxAttempts; lia..].
Qed.

Lemma allocation_fails_iff_candidates_taken_witness :
  ∃ address,
    (AddressGenerator.generateDepositAddress (H := Examples.textWallet) "alice"
       Examples.freshGenerator).1 = inr address.
Proof.
  destruct (allocation_fails_iff_candidates_taken (H := Examples.textWallet) "alice"
              Examples.freshGenerator) as [[Hall _] _]; [reflexivity|].
  destruct (AddressGenerator.generateDepositAddress (H := Examples.textWallet) "alice"
              Examples.freshGenerator).1 as [e|address] eqn:Hres; [|by exists address].
  exfalso.
  assert (Htaken : AddressGenerator.collides
                     (AddressGenerator.candidate "alice"
                        (AddressGenerator.baseSubwalletId Examples.freshGenerator) 0)
                     (AddressGenerator.db Examples.freshGenerator) = true).
  { apply Hall; [by exists e | lia]. }
  vm_compute in Htaken. discriminate.
Defined.

(** X20. When [generateBatchAddresses] returns, the returned map has one
    entry for each requested user and no other, every entry is the address
    the store holds for that user, and the generator is in the state that
    the single calls of [generateDepositAddress] would have left. *)
Theorem batch_addresses_agree_with_store `{AddressGenerator.Wallet}
    (userIds : list string) (g g' : AddressGenerator.Generator)
    (addresses : list (string * string)) :
  AddressTools.generateBatchAddresses userIds g = (inr addresses, g') →
  g' = AddressTools.allocateAll userIds g
  ∧ (∀ u, u ∈ JsMap.keys addresses ↔ u ∈ userIds)
  ∧ (∀ u a, JsMap.get u addresses = Some a →
       JsMap.get u (AddressGenerator.userToAddress (AddressGenerator.db g')) = Some a).
Proof.
  intros Hbatch.
  destruct (generateBatchLoop_spec userIds [] g addresses g' Hbatch) as (Hg & Hkeys & Hagree).
  { intros u a Hu. done. }
  split_and!; [done | | done].
  intros u. rewrite Hkeys. unfold JsMap.keys. simpl. rewrite elem_of_nil. tauto.
Qed.

Lemma batch_addresses_agree_with_store_witness :
  match
    AddressTools.generateBatchAddresses (H := Examples.textWallet) ["alice"; "bob"; "alice"]
      Examples.freshGenerator
  with
  | (inr addresses, g') =>
      JsMap.keys addresses = ["alice"; "bob"]
      ∧ ∀ u a, JsMap.get u addresses = Some a →
          JsMap.get u (AddressGenerator.userToAddress (AddressGenerator.db g')) = Some a
  | (inl _, _) => False
  end.
Proof.
  destruct (AddressTools.generateBatchAddresses (H := Examples.textWallet)
              ["alice"; "bob"; "alice"] Examples.freshGenerator)
    as [[e|addresses] g'] eqn:Hbatch.
  - vm_compute in Hbatch. discriminate.
  - destruct (batch_addresses_agree_with_store (H := Examples.textWallet)
                ["alice"; "bob"; "alice"] Examples.freshGenerator g' addresses Hbatch)
      as (_ & _ & Hagree).
    split; [|exact Hagree].
    vm_compute in Hbatch. injection Hbatch as <- _. reflexivity.
Defined.

(** X21. Every subwallet id that [generateDepositAddress] stores is an
    unsigned 32-bit number, provided the base id is one: with the base id
    and the stored ids in [0, 2^32) before a series of allocations, the
    stored ids lie in [0, 2^32) afterwards. (The id is the first four bytes
    of a digest, or the base id in place of zero.) *)
Theorem stored_subwallet_ids_fit_32_bits `{AddressGenerator.Wallet}
    (users : list string) (g : AddressGenerator.Generator) :
  0 <= AddressGenerator.baseSubwalletId g < 2 ^ 32 →
  Forall (λ e, 0 <= e.2 < 2 ^ 32)
    (AddressGenerator.userToSubwalletId (AddressGenerator.db g)) →
  Forall (λ e, 0 <= e.2 < 2 ^ 32)
    (AddressGenerator.userToSubwalletId
       (AddressGenerator.db (AddressTools.allocateAll users g))).
Proof.
  revert g. induction users as [|user users IH]; intros g Hbase Hall; [done|].
  apply IH.
  - by rewrite (proj1 (generateDepositAddress_params user g)).
  - by apply subwallet_ids_step.
Qed.

Lemma stored_subwallet_ids_fit_32_bits_witness :
  Forall (λ e, 0 <= e.2 < 2 ^ 32)
    (AddressGenerator.userToSubwalletId
       (AddressGenerator.db
          (AddressTools.allocateAll (H := Examples.textWallet) ["alice"; "bob"]
             Examples.freshGenerator))).
Proof.
  apply (stored_subwallet_ids_fit_32_bits (H := Examples.textWallet)).
  - vm_compute. split; [discriminate | reflexivity].
  - constructor.
Defined.

(** ** Deposit address generator: the mapping store and the helpers *)

Section MappingFacts.
Import AddressGenerator AddressTools.
Implicit Types (d : AddressMappingDatabase) (g : Generator).

Lemma JsMap_keys_set {V : Type} (k : string) (v : V) (m : list (string * V)) :
  JsMap.keys (JsMap.set k v m)
  = if decide (k ∈ JsMap.keys m) then JsMap.keys m else JsMap.keys m ++ [k].
Proof.
  destruct (decide (k ∈ JsMap.keys m)) as [Hin|Hout].
  - by apply JsMap_keys_set_present.
  - rewrite JsMap_set_absent by done. unfold JsMap.keys. by rewrite fmap_app.
Qed.

Lemma JsMap_get_elem {V : Type} (k : string) (v : V) (m : list (string * V)) :
  JsMap.wf m → (k, v) ∈ m → JsMap.get k m = Some v.
Proof.
  unfold JsMap.wf, JsMap.keys. induction m as [|[k' v'] m IH]; intros Hwf Hin.
  - by apply elem_of_nil in Hin.
  - rewrite fmap_cons in Hwf. apply NoDup_cons in Hwf as [Hk Hwf]. simpl in *.
    apply elem_of_cons in Hin as [[= -> ->]|Hin].
    + by rewrite decide_True.
    + rewrite decide_False; [by apply IH|].
      intros ->. apply Hk. apply list_elem_of_fmap. by exists (k, v).
Qed.

Lemma JsMap_elem_get {V : Type} (k : string) (v : V) (m : list (string * V)) :
  JsMap.get k m = Some v → (k, v) ∈ m.
Proof.
  induction m as [|[k' v'] m IH]; simpl; [done|].
  destruct (decide (k' = k)) as [->|Hne].
  - intros [= ->]. left.
  - intros Hget. right. by apply IH.
Qed.

(** The two maps of the store are keyed alike, and by each user once. *)
Local Abbreviation aligned d :=
  (JsMap.wf (userToAddress d)
   ∧ JsMap.keys (userToAddress d) = JsMap.keys (userToSubwalletId d)).

Lemma aligned_createUserAddress user addr id d :
  aligned d → aligned (createUserAddress user addr id d).
Proof.
  intros [Hwf Hkeys]. split; simpl.
  - by apply JsMap_wf_set.
  - rewrite !JsMap_keys_set, Hkeys. done.
Qed.

Lemma getAllMappings_users d :
  aligned d → userId <$> getAllMappings d = JsMap.keys (userToAddress d).
Proof.
  intros [_ Hkeys]. unfold getAllMappings.
  assert (Hall : Forall (λ p, is_Some (JsMap.get p.1 (userToSubwalletId d))) (userToAddress d)).
  { apply Forall_forall. intros [u a] Hin. simpl.
    destruct (JsMap.get u (userToSubwalletId d)) eqn:Hget; [by eexists|].
    exfalso. apply JsMap_get_None in Hget. apply Hget. rewrite <- Hkeys.
    unfold JsMap.keys. apply list_elem_of_fmap. by exists (u, a). }
  clear Hkeys. unfold JsMap.keys. induction Hall as [|[u a] m [id Hid] _ IH]; [done|].
  change (omap ?f ((u, a) :: m)) with (match f (u, a) with
                                       | Some y => y :: omap f m
                                       | None => omap f m
                                       end).
  simpl in *. rewrite Hid. simpl. f_equal. exact IH.
Qed.

Lemma getAllMappings_elem d m :
  JsMap.wf (userToAddress d) →
  m ∈ getAllMappings d
  ↔ JsMap.get (userId m) (userToAddress d) = Some (address m)
    ∧ JsMap.get (userId m) (userToSubwalletId d) = Some (subwalletId m).
Proof.
  intros Hwf. unfold getAllMappings. rewrite list_elem_of_omap. split.
  - intros ([u a] & Hin & Hm). simpl in Hm.
    destruct (JsMap.get u (userToSubwalletId d)) as [id|] eqn:Hid; [|done].
    injection Hm as <-. simpl. split; [by apply JsMap_get_elem | done].
  - intros [Haddr Hid]. exists (userId m, address m). split.
    + by apply JsMap_elem_get.
    + simpl. rewrite Hid. by destruct m.
Qed.

Context `{Wallet}.

Lemma aligned_generateDepositAddress user g :
  aligned (db g) → aligned (db (generateDepositAddress user g).2).
Proof.
  intros Hal.
  destruct (generateDepositAddress_cases user g)
    as [(a' & _ & ->)|[(_ & _ & ->)|(Hnone & id & _ & ->)]]; [done..|].
  by apply aligned_createUserAddress.
Qed.

Lemma aligned_allocateAll users : ∀ g, aligned (db g) → aligned (db (allocateAll users g)).
Proof.
  induction users as [|user users IH]; intros g Hal; [done|].
  apply IH. by apply aligned_generateDepositAddress.
Qed.



(** No two users hold the same subwallet id. *)
Local Abbreviation distinctIds d :=
  (∀ u v idu idv,
     u ≠ v →
     JsMap.get u (userToSubwalletId d) = Some idu →
     JsMap.get v (userToSubwalletId d) = Some idv →
     idu ≠ idv).


End MappingFacts.

(** X22. What [createUserAddress] stores is what the lookups return, with
    the JavaScript edge cases: a subwallet id of 0, an empty address or an
    empty user id is stored but read back as null; the entries of every
    other user and every other address are untouched. *)
Theorem stored_mapping_round_trip
    (user addr : string) (id : Z) (d : AddressGenerator.AddressMappingDatabase) :
  let d' := AddressGenerator.createUserAddress user addr id d in
  AddressGenerator.getSubwalletIdForUser user d' = (if id =? 0 then None else Some id)
  ∧ AddressGenerator.getAddressForUser user d'
    = (if String.eqb addr "" then None else Some addr)
  ∧ AddressGenerator.getUserForAddress addr d'
    = (if String.eqb user "" then None else Some user)
  ∧ (∀ other, other ≠ user →
       AddressGenerator.getAddressForUser other d'
       = AddressGenerator.getAddressForUser other d
       ∧ AddressGenerator.getSubwalletIdForUser other d'
         = AddressGenerator.getSubwalletIdForUser other d)
  ∧ (∀ other, other ≠ addr →
       AddressGenerator.getUserForAddress other d'
       = AddressGenerator.getUserForAddress other d).
Proof.
  intros d'. subst d'.
  unfold AddressGenerator.getSubwalletIdForUser, AddressGenerator.getAddressForUser,
    AddressGenerator.getUserForAddress, AddressGenerator.createUserAddress, orNull, truthy.
  cbn [AddressGenerator.userToAddress AddressGenerator.addressToUser
       AddressGenerator.userToSubwalletId].
  rewrite !JsMap_get_set_eq. split_and!.
  - done.
  - by destruct (String.eqb addr "").
  - by destruct (String.eqb user "").
  - intros other Hne. by rewrite !JsMap_get_set_ne.
  - intros other Hne. by rewrite !JsMap_get_set_ne.
Qed.

(** X23. After any series of allocations on a generator with an empty
    store, [getAllMappings] lists every stored user exactly once, in the
    order of first allocation, and each listed mapping carries the address
    and the subwallet id that the store holds for that user. *)
Theorem all_mappings_list_each_user_once `{AddressGenerator.Wallet}
    (users : list string) (g : AddressGenerator.Generator) :
  AddressGenerator.db g = AddressGenerator.emptyDb →
  let d := AddressGenerator.db (AddressTools.allocateAll users g) in
  AddressGenerator.userId <$> AddressGenerator.getAllMappings d
  = JsMap.keys (AddressGenerator.userToAddress d)
  ∧ NoDup (AddressGenerator.userId <$> AddressGenerator.getAllMappings d)
  ∧ ∀ m, m ∈ AddressGenerator.getAllMappings d
      ↔ JsMap.get (AddressGenerator.userId m) (AddressGenerator.userToAddress d)
        = Some (AddressGenerator.address m)
        ∧ JsMap.get (AddressGenerator.userId m) (AddressGenerator.userToSubwalletId d)
          = Some (AddressGenerator.subwalletId m).
Proof.
  intros Hempty d.
  assert (Hal : JsMap.wf (AddressGenerator.userToAddress d)
                ∧ JsMap.keys (AddressGenerator.userToAddress d)
                  = JsMap.keys (AddressGenerator.userToSubwalletId d)).
  { apply aligned_allocateAll. rewrite Hempty. split; [apply NoDup_nil_2 | done]. }
  pose proof (getAllMappings_users d Hal) as Husers.
  split_and!; [done | rewrite Husers; apply Hal |].
  intros m. apply getAllMappings_elem, Hal.
Qed.

Lemma all_mappings_list_each_user_once_witness :
  let d :=
    AddressGenerator.db
      (AddressTools.allocateAll (H := Examples.textWallet) ["bob"; "alice"; "bob"]
         Examples.freshGenerator) in
  AddressGenerator.userId <$> AddressGenerator.getAllMappings d = ["bob"; "alice"].
Proof.
  intros d.
  destruct (all_mappings_list_each_user_once (H := Examples.textWallet)
              ["bob"; "alice"; "bob"] Examples.freshGenerator eq_refl) as (Husers & _).
  fold d in Husers. rewrite Husers. vm_compute. reflexivity.
Defined.

(** X26. A new allocation can be traced back: when [generateDepositAddress]
    returns an address for a user (with a non-empty id) who had none,
    [identifyUser] maps that address to the user, the store holds for the
    user a subwallet id together with that address, the address is the
    wallet address of that id, and the stored pair of every other user is
    as before. *)
Theorem new_address_identifies_user `{AddressGenerator.Wallet}
    (user address : string) (g g' : AddressGenerator.Generator) :
  user ≠ "" →
  AddressGenerator.getAddressForUser user (AddressGenerator.db g) = None →
  AddressGenerator.generateDepositAddress user g = (inr address, g') →
  AddressGenerator.identifyUser address g' = Some user
  ∧ (∃ id,
       AddressGenerator.allocation user g' = Some (id, address)
       ∧ address = AddressGenerator.walletAddress id (AddressGenerator.timeout g))
  ∧ ∀ other, other ≠ user →
      AddressGenerator.allocation other g' = AddressGenerator.allocation other g.
Proof.
  intros Huser Hnone Hgen.
  destruct (generateDepositAddress_cases user g)
    as [(a & Hget & _)|[(_ & _ & Heq)|(_ & id & _ & Heq)]]; [congruence| |];
    rewrite Heq in Hgen; [discriminate|].
  injection Hgen as Haddress Hg. subst address g'.
  unfold AddressGenerator.identifyUser, AddressGenerator.getUserForAddress,
    AddressGenerator.allocation, AddressGenerator.createUserAddress, orNull, truthy.
  cbn [AddressGenerator.db AddressGenerator.userToAddress AddressGenerator.addressToUser
       AddressGenerator.userToSubwalletId].
  split_and!.
  - rewrite JsMap_get_set_eq.
    destruct (String.eqb user "") eqn:Heqb; [|done].
    by apply String.eqb_eq in Heqb.
  - exists id. by rewrite !JsMap_get_set_eq.
  - intros other Hne. by rewrite !JsMap_get_set_ne.
Qed.

Lemma new_address_identifies_user_witness :
  let result :=
    AddressGenerator.generateDepositAddress (H := Examples.textWallet) "alice"
      Examples.freshGenerator in
  ∃ address,
    result.1 = inr address
    ∧ AddressGenerator.identifyUser address result.2 = Some "alice".
Proof.
  intros result.
  destruct result as [[e|address] g'] eqn:Hgen; [vm_compute in Hgen; discriminate|].
  exists address. split; [done|].
  destruct (new_address_identifies_user (H := Examples.textWallet) "alice" address
              Examples.freshGenerator g') as (Hid & _); [done | reflexivity | exact Hgen |].
  exact Hid.
Defined.



(** ** Deposit address generator: display helper and sequential variant *)

Section StringFacts.

Lemma string_length_append (s1 s2 : string) :
  String.length (s1 +:+ s2) = (String.length s1 + String.length s2)%nat.
Proof. induction s1 as [|a s1 IH]; [done|]. simpl. by rewrite IH. Qed.

Lemma string_length_substring (s : string) :
  ∀ n m, (n + m <= String.length s)%nat → String.length (String.substring n m s) = m.
Proof.
  induction s as [|a s IH]; intros n m Hlen; simpl in Hlen.
  - assert (n = 0%nat ∧ m = 0%nat) as [-> ->] by lia. done.
  - destruct n as [|n]; simpl.
    + destruct m as [|m]; [done|]. simpl. rewrite IH by lia. done.
    + apply IH. lia.
Qed.

Lemma substring_append_l (s1 s2 : string) :
  String.substring 0 (String.length s1) (s1 +:+ s2) = s1.
Proof. induction s1 as [|a s1 IH]; simpl; [by destruct s2 | by rewrite IH]. Qed.

Lemma string_append_assoc (s1 s2 s3 : string) : (s1 +:+ s2) +:+ s3 = s1 +:+ s2 +:+ s3.
Proof.
  induction s1 as [|a s1 IH]; [done|].
  change (String a ((s1 +:+ s2) +:+ s3) = String a (s1 +:+ s2 +:+ s3)). by rewrite IH.
Qed.

Lemma substring_append_r (s1 s2 : string) m :
  String.substring (String.length s1) m (s1 +:+ s2) = String.substring 0 m s2.
Proof. induction s1 as [|a s1 IH]; [done|]. simpl. exact IH. Qed.
End StringFacts.

(** X24. On an address text of 7-bit characters, [formatAddress] returns
    a text of at most 20 characters unchanged; a longer one is shortened to
    exactly 23 characters: its first ten characters, three dots, and its
    last ten characters. *)
Theorem formatted_address_shape (address : string) :
  AddressTools.isAscii address = true →
  if (String.length address <=? 20)%nat
  then AddressTools.formatAddress address = address
  else String.length (AddressTools.formatAddress address) = 23%nat
       ∧ String.substring 0 10 (AddressTools.formatAddress address)
         = String.substring 0 10 address
       ∧ String.substring 10 3 (AddressTools.formatAddress address) = "..."
       ∧ String.substring 13 10 (AddressTools.formatAddress address)
         = String.substring (String.length address - 10) 10 address.
Proof.
  intros _. unfold AddressTools.formatAddress.
  destruct (String.length address <=? 20)%nat eqn:Hlen; [done|].
  apply Nat.leb_gt in Hlen.
  set (front := String.substring 0 10 address).
  set (back := String.substring (String.length address - 10) 10 address).
  assert (Hfront : String.length front = 10%nat)
    by (apply string_length_substring; lia).
  assert (Hback : String.length back = 10%nat)
    by (apply string_length_substring; lia).
  split_and!.
  - rewrite !string_length_append, Hfront, Hback. done.
  - rewrite <- Hfront at 1. apply substring_append_l.
  - rewrite <- Hfront at 1. rewrite substring_append_r.
    change 3%nat with (String.length "..."). apply substring_append_l.
  - change 13%nat with (10 + 3)%nat. rewrite <- Hfront at 1.
    replace (String.length front + 3)%nat with (String.length (front +:+ "..."))
      by (rewrite string_length_append; done).
    rewrite <- string_append_assoc, substring_append_r.
    rewrite <- Hback at 1. apply substring_whole.
Qed.

Lemma formatted_address_shape_witness :
  let address := "EQABCDEFGHIJKLMNOPQRSTUVWXYZabcdefghijklmnopqrstuvwxyz012345" in
  String.length (AddressTools.formatAddress address) = 23%nat
  ∧ String.substring 0 10 (AddressTools.formatAddress address) = "EQABCDEFGH"
  ∧ String.substring 13 10 (AddressTools.formatAddress address) = "wxyz012345"
  ∧ AddressTools.formatAddress "EQshort" = "EQshort".
Proof.
  intros address.
  pose proof (formatted_address_shape address eq_refl) as Hlong.
  pose proof (formatted_address_shape "EQshort" eq_refl) as Hshort.
  change (String.length address <=? 20)%nat with false in Hlong.
  change (String.length "EQshort" <=? 20)%nat with true in Hshort.
  cbv iota in Hlong, Hshort.
  destruct Hlong as (Hlen & Hfront & _ & Hback).
  split_and!; [exact Hlen | by rewrite Hfront | by rewrite Hback | exact Hshort].
Defined.

Section SequentialFacts.
Import AddressGenerator.
Context `{Wallet}.
Implicit Types (d : AddressMappingDatabase) (g : Generator).

(** A call of the sequential generator for a user without an address. *)
Lemma sequential_new user g :
  getAddressForUser user (db g) = None →
  let id := baseSubwalletId g + nextUserId (db g) in
  let g' := (SequentialGenerator.generateDepositAddress user g).2 in
  JsMap.get user (userToSubwalletId (db g')) = Some id
  ∧ nextUserId (db g') = nextUserId (db g) + 1
  ∧ baseSubwalletId g' = baseSubwalletId g
  ∧ (∀ other, other ≠ user →
       JsMap.get other (userToSubwalletId (db g')) = JsMap.get other (userToSubwalletId (db g))
       ∧ getAddressForUser other (db g') = getAddressForUser other (db g)).
Proof.
  intros Hnone id g'. subst g'. unfold SequentialGenerator.generateDepositAddress.
  rewrite Hnone. unfold getNextUserIdNumber, createUserAddress, getAddressForUser.
  cbn [snd db userToSubwalletId userToAddress nextUserId baseSubwalletId].
  rewrite JsMap_get_set_eq. split_and!; [done..|].
  intros other Hne. by rewrite !JsMap_get_set_ne.
Qed.

Lemma sequential_loop users :
  ∀ acc g,
    NoDup users →
    (∀ u, u ∈ users → getAddressForUser u (db g) = None) →
    let g' := (SequentialGenerator.generateBatchLoop users acc g).2 in
    (∀ i u, users !! i = Some u →
       JsMap.get u (userToSubwalletId (db g'))
       = Some (baseSubwalletId g + nextUserId (db g) + Z.of_nat i))
    ∧ nextUserId (db g') = nextUserId (db g) + Z.of_nat (length users)
    ∧ ∀ other, other ∉ users →
        JsMap.get other (userToSubwalletId (db g')) = JsMap.get other (userToSubwalletId (db g)).
Proof.
  induction users as [|user users IH]; intros acc g Hnodup Hnew.
  { simpl. split_and!; [done | lia | done]. }
  apply NoDup_cons in Hnodup as [Hfresh Hnodup].
  cbv zeta. cbn [SequentialGenerator.generateBatchLoop].
  destruct (SequentialGenerator.generateDepositAddress user g) as [address g1] eqn:Hgen.
  destruct (sequential_new user g) as (Hid & Hnext & Hbase & Hother).
  { apply Hnew. left. }
  rewrite Hgen in Hid, Hnext, Hbase, Hother. cbn [snd] in Hid, Hnext, Hbase, Hother.
  destruct (IH (JsMap.set user address acc) g1 Hnodup) as (Hids & Hcount & Hrest).
  { intros u Hu. destruct (Hother u) as [_ ->]; [by intros -> | apply Hnew; by right]. }
  split_and!.
  - intros i u Hi. destruct i as [|i]; simpl in Hi.
    + injection Hi as <-. rewrite Hrest by done. rewrite Hid. f_equal. lia.
    + rewrite (Hids i u Hi), Hbase, Hnext. f_equal. lia.
  - rewrite Hcount, Hnext. cbn [length]. lia.
  - intros other Hout. apply not_elem_of_cons in Hout as [Hne Hout].
    rewrite Hrest by done. by apply Hother.
Qed.
End SequentialFacts.

(** X25. The sequential generator numbers its users. Called for distinct
    users that have no address yet, with the base id and the counter not
    negative and their sum with the number of users within the integers
    that a [number] holds exactly (2^53), [generateBatchAddresses] stores
    for the user at position i (from 0) the subwallet id
    base + nextUserId + i, and advances the counter by the number of users.
    On a new generator (counter 1) the ids of N users are therefore
    base + 1, ..., base + N, one above the range base, ..., base + N - 1
    that [calculateSubwalletRange] gives. *)
Theorem sequential_ids_number_the_users `{AddressGenerator.Wallet}
    (users : list string) (g : AddressGenerator.Generator) :
  NoDup users →
  (∀ u, u ∈ users →
     AddressGenerator.getAddressForUser u (AddressGenerator.db g) = None) →
  0 <= AddressGenerator.baseSubwalletId g →
  0 <= AddressGenerator.nextUserId (AddressGenerator.db g) →
  AddressGenerator.baseSubwalletId g
  + AddressGenerator.nextUserId (AddressGenerator.db g)
  + Z.of_nat (length users) <= SequentialGenerator.MAX_EXACT →
  let g' := (SequentialGenerator.generateBatchAddresses users g).2 in
  let ids := AddressGenerator.userToSubwalletId (AddressGenerator.db g') in
  (∀ i u, users !! i = Some u →
     JsMap.get u ids
     = Some (AddressGenerator.baseSubwalletId g
             + AddressGenerator.nextUserId (AddressGenerator.db g) + Z.of_nat i))
  ∧ AddressGenerator.nextUserId (AddressGenerator.db g')
    = AddressGenerator.nextUserId (AddressGenerator.db g) + Z.of_nat (length users)
  ∧ (AddressGenerator.nextUserId (AddressGenerator.db g) = 1 →
     ∀ u, last users = Some u →
       JsMap.get u ids
       = Some (AddressTools.max
                 (SequentialGenerator.calculateSubwalletRange
                    (AddressGenerator.baseSubwalletId g) (Z.of_nat (length users))) + 1)).
Proof.
  intros Hnodup Hnew _ _ _ g' ids. subst ids g'.
  unfold SequentialGenerator.generateBatchAddresses.
  destruct (sequential_loop users [] g Hnodup Hnew) as (Hids & Hcount & _).
  split_and!; [done..|].
  intros Hfirst u Hlast. rewrite last_lookup in Hlast.
  rewrite (Hids _ u Hlast), Hfirst.
  unfold SequentialGenerator.calculateSubwalletRange. cbn [AddressTools.max]. f_equal.
  destruct users as [|u0 users]; [done|]. cbn [length Init.Nat.pred]. lia.
Qed.

Lemma sequential_ids_number_the_users_witness :
  let g' :=
    (SequentialGenerator.generateBatchAddresses (H := MoreExamples.idWallet)
       ["alice"; "bob"; "carol"] Examples.freshGenerator).2 in
  JsMap.get "carol" (AddressGenerator.userToSubwalletId (AddressGenerator.db g'))
  = Some 4272
  ∧ AddressTools.max (SequentialGenerator.calculateSubwalletRange 4269 3) = 4271.
Proof.
  intros g'.
  destruct (sequential_ids_number_the_users (H := MoreExamples.idWallet)
              ["alice"; "bob"; "carol"] Examples.freshGenerator) as (Hids & _).
  - apply (bool_decide_unpack (NoDup _)). vm_compute. exact I.
  - intros u Hu. reflexivity.
  - vm_compute. discriminate.
  - vm_compute. discriminate.
  - vm_compute. discriminate.
  - fold g' in Hids. split; [|reflexivity].
    rewrite (Hids 2%nat "carol" eq_refl). reflexivity.
Defined.
